(** * Query-range algebra of db/queryutil.h

    A shallow embedding of the classes declared in [db/queryutil.h]
    ([FieldBound], [FieldInterval], [FieldRange], [FieldRangeSet],
    [FieldRangeVector] and its [Iterator]) together with the properties
    the design document states about them.

    The header includes [jsobj.h] and [indexkey.h], which are not part of
    the sources at hand: the element type, its comparison [woCompare], the
    two sentinel documents [minKey] and [maxKey] and the out-of-line
    members of [FieldRange] are therefore parameters of the development.
    [Module Sample] instantiates them with a small concrete value model so
    that every definition can be run. *)

From Stdlib Require Import ZArith List String Ascii Bool Lia.
From Stdlib Require Import OrderedTypeEx.
Import ListNotations.

Local Open Scope Z_scope.
Local Open Scope list_scope.

(** ** Exceptions

    [assert] and [uassert] both unwind the constructor or member that
    executes them.  [assert( e )] carries the text of the failed
    expression, [uassert( code, msg, e )] a stable numeric code and a
    message. *)

Inductive Exception : Type :=
| AssertionFailed (expr : string)
| UserAssertion (code : Z) (msg : string).

Inductive Result (A : Type) : Type :=
| Ok (a : A)
| Thrown (e : Exception).

Arguments Ok {A} a.
Arguments Thrown {A} e.

Definition bind {A B : Type} (c : Result A) (k : A -> Result B) : Result B :=
  match c with
  | Ok a => k a
  | Thrown e => Thrown e
  end.

Notation "x <- c ;; k" := (bind c (fun x => k))
  (at level 61, c at next level, right associativity).

(** [assert( cond )] *)
Definition assert (cond : bool) (expr : string) : Result unit :=
  if cond then Ok tt else Thrown (AssertionFailed expr).

(** [uassert( code, msg, cond )] *)
Definition uassert (code : Z) (msg : string) (cond : bool) : Result unit :=
  if cond then Ok tt else Thrown (UserAssertion code msg).

(** Short-circuit conjunction and disjunction of fallible conditions:
    the right operand is evaluated only when the left one does not decide. *)
Definition and_then (a b : Result bool) : Result bool :=
  x <- a ;; if x then b else Ok false.

Definition or_else (a b : Result bool) : Result bool :=
  x <- a ;; if x then Ok true else b.

(** [vector::back()], undefined on an empty vector. *)
Fixpoint back {A : Type} (l : list A) : option A :=
  match l with
  | [] => None
  | [x] => Some x
  | _ :: l' => back l'
  end.

(** [vector::front()], undefined on an empty vector. *)
Definition front {A : Type} (l : list A) : option A :=
  match l with
  | [] => None
  | x :: _ => Some x
  end.

(** [string::empty()] *)
Definition string_empty (s : string) : bool :=
  match s with
  | EmptyString => true
  | String _ _ => false
  end.

(** ** The document model

    [BSONElement] and [BSONObj] come from [jsobj.h].  [woCompare a b] is
    [a.woCompare( b, false )], the three-way comparison of two element
    values that ignores field names: negative, zero or positive.
    [minKeyElement] and [maxKeyElement] are [minKey.firstElement()] and
    [maxKey.firstElement()]. *)

Class BSONModel : Type := {
  BSONElement : Type;
  BSONObj : Type;
  woCompare : BSONElement -> BSONElement -> Z;
  minKeyElement : BSONElement;
  maxKeyElement : BSONElement
}.

Section FieldRangeDefs.

Context {M : BSONModel}.

(** *** struct FieldBound *)

Record FieldBound : Type := mkFieldBound {
  _bound : BSONElement;
  _inclusive : bool
}.

(** [FieldBound::flipInclusive] *)
Definition flipInclusive (b : FieldBound) : FieldBound :=
  mkFieldBound (_bound b) (negb (_inclusive b)).

(** *** struct FieldInterval

    [_cachedEquality] is the [mutable int] tri-state: [-1] unknown,
    [0] false, anything else true. *)

Record FieldInterval : Type := mkFieldInterval {
  _lower : FieldBound;
  _upper : FieldBound;
  _cachedEquality : Z
}.

(** [FieldInterval()] leaves both bounds to the caller, who assigns them
    next; the embedding takes them as arguments. *)
Definition FieldInterval_new (lo up : FieldBound) : FieldInterval :=
  mkFieldInterval lo up (-1).

(** [FieldInterval( const BSONElement& e )] *)
Definition FieldInterval_of (e : BSONElement) : FieldInterval :=
  mkFieldInterval (mkFieldBound e true) (mkFieldBound e true) (-1).

(** [FieldInterval::strictValid] *)
Definition strictValid (fi : FieldInterval) : bool :=
  let cmp := woCompare (_bound (_lower fi)) (_bound (_upper fi)) in
  (cmp <? 0) || ((cmp =? 0) && _inclusive (_lower fi) && _inclusive (_upper fi)).

(** What [equality()] computes when the cache holds no answer. *)
Definition equality_now (fi : FieldInterval) : bool :=
  _inclusive (_lower fi) && _inclusive (_upper fi) &&
  (woCompare (_bound (_lower fi)) (_bound (_upper fi)) =? 0).

(** [FieldInterval::equality]: a [const] member that writes the
    [mutable] cache, hence the interval is returned along with the
    answer. *)
Definition FieldInterval_equality (fi : FieldInterval) : bool * FieldInterval :=
  let fi' :=
    if _cachedEquality fi =? -1
    then mkFieldInterval (_lower fi) (_upper fi) (if equality_now fi then 1 else 0)
    else fi in
  (negb (_cachedEquality fi' =? 0), fi').

(** *** class FieldRange *)

Record FieldRange : Type := mkFieldRange {
  _intervals : list FieldInterval;
  _objData : list BSONObj;
  _special : string
}.

(** [FieldRange::empty] *)
Definition empty (r : FieldRange) : bool :=
  match _intervals r with
  | [] => true
  | _ :: _ => false
  end.

(** [FieldRange::min], [max], [minInclusive], [maxInclusive]: each
    asserts [!empty()] and then reads the first or the last interval. *)
Definition min (r : FieldRange) : Result BSONElement :=
  _ <- assert (negb (empty r)) "!empty()" ;;
  match front (_intervals r) with
  | Some fi => Ok (_bound (_lower fi))
  | None => Thrown (AssertionFailed "!empty()")
  end.

Definition max (r : FieldRange) : Result BSONElement :=
  _ <- assert (negb (empty r)) "!empty()" ;;
  match back (_intervals r) with
  | Some fi => Ok (_bound (_upper fi))
  | None => Thrown (AssertionFailed "!empty()")
  end.

Definition minInclusive (r : FieldRange) : Result bool :=
  _ <- assert (negb (empty r)) "!empty()" ;;
  match front (_intervals r) with
  | Some fi => Ok (_inclusive (_lower fi))
  | None => Thrown (AssertionFailed "!empty()")
  end.

Definition maxInclusive (r : FieldRange) : Result bool :=
  _ <- assert (negb (empty r)) "!empty()" ;;
  match back (_intervals r) with
  | Some fi => Ok (_inclusive (_upper fi))
  | None => Thrown (AssertionFailed "!empty()")
  end.

(** [FieldRange::equality] *)
Definition equality (r : FieldRange) : Result bool :=
  and_then (Ok (negb (empty r)))
    (and_then (mn <- min r ;; mx <- max r ;; Ok (woCompare mn mx =? 0))
       (and_then (maxInclusive r) (minInclusive r))).

(** [FieldRange::inQuery]: the loop asks each interval in turn and
    stops at the first that is not an equality; the intervals asked keep
    the answer in their cache. *)
Fixpoint inQuery_loop (l : list FieldInterval) : bool * list FieldInterval :=
  match l with
  | [] => (true, [])
  | fi :: l' =>
      let (b, fi') := FieldInterval_equality fi in
      if b
      then let (b', l'') := inQuery_loop l' in (b', fi' :: l'')
      else (false, fi' :: l')
  end.

Definition inQuery (r : FieldRange) : Result (bool * FieldRange) :=
  e <- equality r ;;
  if e then Ok (true, r)
  else let (b, l) := inQuery_loop (_intervals r) in
       Ok (b, mkFieldRange l (_objData r) (_special r)).

(** [FieldRange::nontrivial] *)
Definition nontrivial (r : FieldRange) : Result bool :=
  and_then (Ok (negb (empty r)))
    (or_else (Ok (negb (Z.of_nat (List.length (_intervals r)) =? 1)))
       (or_else (mn <- min r ;; Ok (negb (woCompare minKeyElement mn =? 0)))
                (mx <- max r ;; Ok (negb (woCompare maxKeyElement mx =? 0))))).

(** [FieldRange::makeEmpty] *)
Definition makeEmpty (r : FieldRange) : FieldRange :=
  mkFieldRange [] (_objData r) (_special r).

(** [FieldRange::setExclusiveBounds]: the loop assigns the two
    [_inclusive] members and nothing else. *)
Definition setExclusive (fi : FieldInterval) : FieldInterval :=
  mkFieldInterval (mkFieldBound (_bound (_lower fi)) false)
                  (mkFieldBound (_bound (_upper fi)) false)
                  (_cachedEquality fi).

Definition setExclusiveBounds (r : FieldRange) : FieldRange :=
  mkFieldRange (map setExclusive (_intervals r)) (_objData r) (_special r).

(** [FieldRange::reverse( FieldRange &ret )]: [ret] is passed in and
    returned; its [_special] is not assigned.  The loop walks
    [_intervals] from [rbegin()] to [rend()] and pushes one fresh
    interval per step. *)
Fixpoint reverse_loop (rl : list FieldInterval) (acc : list FieldInterval)
  : list FieldInterval :=
  match rl with
  | [] => acc
  | i :: rl' => reverse_loop rl' (acc ++ [FieldInterval_new (_upper i) (_lower i)])
  end.

Definition reverse (r ret : FieldRange) : Result FieldRange :=
  _ <- assert (string_empty (_special r)) "_special.empty()" ;;
  Ok (mkFieldRange (reverse_loop (rev (_intervals r)) []) (_objData r) (_special ret)).

(** Out-of-line members of [FieldRange], declared in the header and
    defined in [queryutil.cpp]: the default-constructed range
    [FieldRange()], [operator<=] and [operator-=].  [operator<=] is taken
    to leave both of its operands as they are. *)
Class FieldRangeOps : Type := {
  FieldRange_default : FieldRange;
  FieldRange_le : FieldRange -> FieldRange -> bool;
  FieldRange_minus : FieldRange -> FieldRange -> FieldRange
}.

Context {Ops : FieldRangeOps}.

(** ** class FieldRangeSet

    [map< string, FieldRange >] is kept as the list of its entries in
    iteration order, that is by increasing key; [string::compare] is
    [String.compare]. *)

Definition RangeMap : Type := list (string * FieldRange).

(** [map::find] *)
Fixpoint map_find (k : string) (m : RangeMap) : option FieldRange :=
  match m with
  | [] => None
  | (k', r) :: m' => if String.eqb k k' then Some r else map_find k m'
  end.

(** The entries after [m[ k ] = r]: the entry of [k] is replaced, or a
    new one is put at its place in key order. *)
Fixpoint map_set (k : string) (r : FieldRange) (m : RangeMap) : RangeMap :=
  match m with
  | [] => [(k, r)]
  | (k', r') :: m' =>
      match String.compare k k' with
      | Eq => (k', r) :: m'
      | Lt => (k, r) :: (k', r') :: m'
      | Gt => (k', r') :: map_set k r m'
      end
  end.

(** The value [m[ k ]] reads: a missing key yields [FieldRange()]. *)
Definition map_subscript (m : RangeMap) (k : string) : FieldRange :=
  match map_find k m with
  | Some r => r
  | None => FieldRange_default
  end.

Record FieldRangeSet : Type := mkFieldRangeSet {
  _ranges : RangeMap;
  _ns : string;
  _queries : list BSONObj
}.

(** The process-wide object behind [static FieldRange *__trivialRange],
    which [trivialRange()] returns by reference. *)
Record Globals : Type := mkGlobals {
  __trivialRange : FieldRange
}.

(** Modelled from the spec: [FieldRangeSet::trivialRange()] is defined in
    [queryutil.cpp]; on first use it creates the universal range, the
    single interval [[MIN_KEY, MAX_KEY]] with both ends inclusive. *)
Definition trivialRange_initial : FieldRange :=
  mkFieldRange
    [ mkFieldInterval (mkFieldBound minKeyElement true)
                      (mkFieldBound maxKeyElement true) (-1) ]
    [] EmptyString.

Definition Globals_initial : Globals := mkGlobals trivialRange_initial.

(** [FieldRangeSet::hasRange] *)
Definition hasRange (s : FieldRangeSet) (fieldName : string) : bool :=
  match map_find fieldName (_ranges s) with
  | Some _ => true
  | None => false
  end.

(** [const FieldRange &range( const char * ) const], read at once. *)
Definition range (g : Globals) (s : FieldRangeSet) (fieldName : string) : FieldRange :=
  match map_find fieldName (_ranges s) with
  | None => __trivialRange g
  | Some r => r
  end.

(** What a [FieldRange &] handed out by the non-const overload designates:
    an entry of the set's own map, or the shared [__trivialRange]. *)
Inductive FieldRangeRef : Type :=
| RefTrivialRange
| RefEntry (fieldName : string).

(** [FieldRange &range( const char * )] *)
Definition range_ref (s : FieldRangeSet) (fieldName : string) : FieldRangeRef :=
  match map_find fieldName (_ranges s) with
  | None => RefTrivialRange
  | Some _ => RefEntry fieldName
  end.

(** Reading through such a reference. *)
Definition deref (g : Globals) (s : FieldRangeSet) (ref : FieldRangeRef) : option FieldRange :=
  match ref with
  | RefTrivialRange => Some (__trivialRange g)
  | RefEntry k => map_find k (_ranges s)
  end.

(** Calling a mutating member [f] of [FieldRange] through such a
    reference: the object it designates is replaced by [f] of it. *)
Definition call_through (ref : FieldRangeRef) (f : FieldRange -> FieldRange)
           (g : Globals) (s : FieldRangeSet) : Globals * FieldRangeSet :=
  match ref with
  | RefTrivialRange => (mkGlobals (f (__trivialRange g)), s)
  | RefEntry k =>
      match map_find k (_ranges s) with
      | Some r => (g, mkFieldRangeSet (map_set k (f r) (_ranges s)) (_ns s) (_queries s))
      | None => (g, s)
      end
  end.

(** [FieldRangeSet::nNontrivialRanges] *)
Fixpoint nNontrivialRanges_loop (m : RangeMap) (count : Z) : Result Z :=
  match m with
  | [] => Ok count
  | (_, r) :: m' =>
      b <- nontrivial r ;;
      nNontrivialRanges_loop m' (if b then count + 1 else count)
  end.

Definition nNontrivialRanges (s : FieldRangeSet) : Result Z :=
  nNontrivialRanges_loop (_ranges s) 0.

(** [FieldRangeSet::matchPossible] *)
Fixpoint matchPossible_loop (m : RangeMap) : bool :=
  match m with
  | [] => true
  | (_, r) :: m' => if empty r then false else matchPossible_loop m'
  end.

Definition matchPossible (s : FieldRangeSet) : bool :=
  matchPossible_loop (_ranges s).

(** [FieldRangeSet::appendQueries] *)
Definition appendQueries (s other : FieldRangeSet) : FieldRangeSet :=
  mkFieldRangeSet (_ranges s) (_ns s) (_queries s ++ _queries other).

(** [FieldRangeSet::makeEmpty] *)
Definition FieldRangeSet_makeEmpty (s : FieldRangeSet) : FieldRangeSet :=
  mkFieldRangeSet (map (fun kr => (fst kr, makeEmpty (snd kr))) (_ranges s))
                  (_ns s) (_queries s).

(** The [while] loop of [FieldRangeSet::operator-=].  It leaves either
    through one of its [return *this] or with the counter, the recorded
    key and what remains of [other]'s entries. *)
Inductive WalkExit : Type :=
| ReturnThis
| LoopDone (nUnincluded : Z) (unincludedKey : string) (j : RangeMap).

Fixpoint minus_walk (i j : RangeMap) (nUnincluded : Z) (unincludedKey : string)
  {struct i} : WalkExit :=
  if nUnincluded <? 2 then
    match i with
    | [] => LoopDone nUnincluded unincludedKey j
    | (ki, ri) :: i' =>
        match j with
        | [] => LoopDone nUnincluded unincludedKey j
        | (kj, rj) :: j' =>
            match String.compare ki kj with
            | Eq =>
                if FieldRange_le ri rj
                then minus_walk i' j' nUnincluded unincludedKey
                else minus_walk i' j' (nUnincluded + 1) ki
            | Lt => minus_walk i' j nUnincluded unincludedKey
            | Gt => ReturnThis
            end
        end
    end
  else LoopDone nUnincluded unincludedKey j.

(** [FieldRangeSet::operator-=].  In the last branch both [_ranges[ key ]]
    and [other._ranges[ key ]] go through [map::operator[]]. *)
Definition FieldRangeSet_minus (this other : FieldRangeSet) : FieldRangeSet :=
  match minus_walk (_ranges this) (_ranges other) 0 EmptyString with
  | ReturnThis => this
  | LoopDone nUnincluded unincludedKey j =>
      match j with
      | _ :: _ => this
      | [] =>
          if nUnincluded >? 1 then this
          else if nUnincluded =? 0 then FieldRangeSet_makeEmpty this
          else
            let diff := FieldRange_minus (map_subscript (_ranges this) unincludedKey)
                                         (map_subscript (_ranges other) unincludedKey) in
            appendQueries
              (mkFieldRangeSet (map_set unincludedKey diff (_ranges this))
                               (_ns this) (_queries this))
              other
      end
  end.

(** ** class FieldRangeVector

    [IndexSpec] comes from [indexkey.h]; the constructor reads its
    [keyPattern] only, element by element: the field name and
    [(int) e.number()], kept here as the integer the cast yields. *)
Record IndexSpec : Type := mkIndexSpec {
  keyPattern : list (string * Z)
}.

(** The members [_ranges] and [_queries] are [v_ranges] and [v_queries]
    here, [FieldRangeSet] having taken the names. *)
Record FieldRangeVector : Type := mkFieldRangeVector {
  v_ranges : list FieldRange;
  _indexSpec : IndexSpec;
  _direction : Z;
  v_queries : list BSONObj
}.

(** [x >= 0 ? 1 : -1] *)
Definition sign (x : Z) : Z := if x >=? 0 then 1 else -1.

(** A 64-bit product read back as [long long]: [ret *= n] with [n] of
    type [size_t] multiplies modulo [2^64]. *)
Definition wrap_long_long (z : Z) : Z := (z + 2 ^ 63) mod 2 ^ 64 - 2 ^ 63.

(** The [(int)] cast of a [size_t]. *)
Definition to_int (z : Z) : Z := (z + 2 ^ 31) mod 2 ^ 32 - 2 ^ 31.

(** [FieldRangeVector::size] *)
Fixpoint size_loop (ranges : list FieldRange) (ret : Z) : Z :=
  match ranges with
  | [] => ret
  | r :: ranges' =>
      size_loop ranges' (wrap_long_long (ret * Z.of_nat (List.length (_intervals r))))
  end.

Definition size (v : FieldRangeVector) : Z := size_loop (v_ranges v) 1.

(** The [while( i.more() )] loop of the constructor; [ranges] is
    [_ranges] as filled so far. *)
Fixpoint FieldRangeVector_fill (g : Globals) (frs : FieldRangeSet) (direction : Z)
         (kp : list (string * Z)) (ranges : list FieldRange)
  : Result (list FieldRange) :=
  match kp with
  | [] => Ok ranges
  | (fieldName, number) :: kp' =>
      let forward := sign number * sign direction >? 0 in
      pushed <- (if forward
                 then Ok (range g frs fieldName)
                 else reverse (range g frs fieldName) FieldRange_default) ;;
      _ <- assert (negb (empty pushed)) "!_ranges.back().empty()" ;;
      FieldRangeVector_fill g frs direction kp' (ranges ++ [pushed])
  end.

(** [FieldRangeVector::FieldRangeVector] *)
Definition FieldRangeVector_new (g : Globals) (frs : FieldRangeSet)
           (indexSpec : IndexSpec) (direction : Z) : Result FieldRangeVector :=
  ranges <- FieldRangeVector_fill g frs direction (keyPattern indexSpec) [] ;;
  let v := mkFieldRangeVector ranges indexSpec (sign direction) (_queries frs) in
  _ <- uassert 13385 "combinatorial limit of $in partitioning of result set exceeded"
               (size v <? 1000000) ;;
  Ok v.

(** [FieldRangeVector::startKey] and [endKey].  The key built by
    [b.appendAs] with an empty field name for every value is the list of
    the appended values; [None] stands for [front()] or [back()] of an
    empty vector. *)
Fixpoint startKey_loop (ranges : list FieldRange) (b : list BSONElement)
  : option (list BSONElement) :=
  match ranges with
  | [] => Some b
  | r :: ranges' =>
      match front (_intervals r) with
      | None => None
      | Some fi => startKey_loop ranges' (b ++ [_bound (_lower fi)])
      end
  end.

Definition startKey (v : FieldRangeVector) : option (list BSONElement) :=
  startKey_loop (v_ranges v) [].

Fixpoint endKey_loop (ranges : list FieldRange) (b : list BSONElement)
  : option (list BSONElement) :=
  match ranges with
  | [] => Some b
  | r :: ranges' =>
      match back (_intervals r) with
      | None => None
      | Some fi => endKey_loop ranges' (b ++ [_bound (_upper fi)])
      end
  end.

Definition endKey (v : FieldRangeVector) : option (list BSONElement) :=
  endKey_loop (v_ranges v) [].

(** ** class FieldRangeVector::Iterator

    [_cmp] holds pointers, null after construction. *)
Record Iterator : Type := mkIterator {
  _v : FieldRangeVector;
  _i : list Z;
  _cmp : list (option BSONElement);
  _inc : list bool;
  _after : bool
}.

(** [Iterator::Iterator] *)
Definition Iterator_new (v : FieldRangeVector) : Iterator :=
  let n := List.length (v_ranges v) in
  mkIterator v (repeat (-1) n) (repeat None n) (repeat false n) false.

(** [(int)_v._ranges[ i ].intervals().size()]; [None] when [i] is out of
    range. *)
Definition nIntervals (v : FieldRangeVector) (i : nat) : option Z :=
  match nth_error (v_ranges v) i with
  | Some r => Some (to_int (Z.of_nat (List.length (_intervals r))))
  | None => None
  end.

(** [for( j = from; j < l.size(); ++j ) l[ j ] = x] *)
Fixpoint fill_from (from : nat) (x : Z) (l : list Z) : list Z :=
  match l with
  | [] => []
  | y :: l' =>
      match from with
      | O => x :: fill_from O x l'
      | S from' => y :: fill_from from' x l'
      end
  end.

(** [l[ i ] = x] for [i] in range. *)
Fixpoint store_at (i : nat) (x : Z) (l : list Z) : list Z :=
  match l with
  | [] => []
  | y :: l' =>
      match i with
      | O => x :: l'
      | S i' => y :: store_at i' x l'
      end
  end.

(** [Iterator::setZero] and [setMinus] *)
Definition setZero (it : Iterator) (i : nat) : Iterator :=
  mkIterator (_v it) (fill_from i 0 (_i it)) (_cmp it) (_inc it) (_after it).

Definition setMinus (it : Iterator) (i : nat) : Iterator :=
  mkIterator (_v it) (fill_from i (-1) (_i it)) (_cmp it) (_inc it) (_after it).

(** [Iterator::ok] *)
Definition ok (it : Iterator) : option bool :=
  match nth_error (_i it) 0, nIntervals (_v it) 0 with
  | Some x, Some n => Some (x <? n)
  | _, _ => None
  end.

(** The [while] loop of [advance()].  [k] is [i + 1]; the result is
    [Some None] when the loop ends with [i = -1], [Some (Some i)] when it
    stops at [i >= 0], and [None] on an access out of range. *)
Fixpoint advance_scan (v : FieldRangeVector) (idx : list Z) (k : nat)
  : option (option nat) :=
  match k with
  | O => Some None
  | S i =>
      match nth_error idx i, nIntervals v i with
      | Some x, Some n =>
          if x >=? n - 1 then advance_scan v idx i else Some (Some i)
      | _, _ => None
      end
  end.

(** [bool Iterator::advance()]: the new iterator and the value of
    [ok()] it returns. *)
Definition advance (it : Iterator) : option (bool * Iterator) :=
  match advance_scan (_v it) (_i it) (List.length (_i it)) with
  | None => None
  | Some found =>
      match
        match found with
        | Some i =>
            match nth_error (_i it) i with
            | Some x => Some (fill_from (S i) 0 (store_at i (x + 1) (_i it)))
            | None => None
            end
        | None =>
            match _i it, nIntervals (_v it) 0 with
            | _ :: _, Some n => Some (store_at 0 n (_i it))
            | _, _ => None
            end
        end
      with
      | None => None
      | Some idx' =>
          let it' := mkIterator (_v it) idx' (_cmp it) (_inc it) (_after it) in
          match ok it' with
          | Some b => Some (b, it')
          | None => None
          end
      end
  end.

(** [n] calls of [advance()] in a row. *)
Fixpoint advance_times (n : nat) (it : Iterator) : option Iterator :=
  match n with
  | O => Some it
  | S n' =>
      match advance_times n' it with
      | Some it' =>
          match advance it' with
          | Some (_, it'') => Some it''
          | None => None
          end
      | None => None
      end
  end.

(** ** Which documents a range and a set admit *)

(** Modelled from the spec: [FieldRangeVector::matchesElement] is defined
    in [queryutil.cpp].  A value lies in an interval when it is between
    the two bounds, a bound being reached only if inclusive. *)
Definition interval_contains (fi : FieldInterval) (e : BSONElement) : bool :=
  let lo := woCompare (_bound (_lower fi)) e in
  let up := woCompare e (_bound (_upper fi)) in
  ((lo <? 0) || ((lo =? 0) && _inclusive (_lower fi))) &&
  ((up <? 0) || ((up =? 0) && _inclusive (_upper fi))).

(** Modelled from the spec: a value lies in a range when it lies in one
    of its intervals. *)
Definition range_contains (r : FieldRange) (e : BSONElement) : bool :=
  existsb (fun fi => interval_contains fi e) (_intervals r).

(** Modelled from the spec: [FieldRangeVector::matches] is defined in
    [queryutil.cpp].  A document offers, for each field, the values found
    there (several for an array); a range admits it when one of them lies
    in the range, and a set admits it when each of its ranges does. *)
Definition Document : Type := string -> list BSONElement.

Definition range_admits (r : FieldRange) (d : Document) (fieldName : string) : bool :=
  existsb (range_contains r) (d fieldName).

Definition set_admits (s : FieldRangeSet) (d : Document) : bool :=
  forallb (fun kr => range_admits (snd kr) d (fst kr)) (_ranges s).

End FieldRangeDefs.

(** ** Notions the properties are stated with *)

(** The comparison of [jsobj.h] is a total preorder on element values. *)
Class BSONOrder `{M : BSONModel} : Prop := {
  woCompare_refl : forall a, woCompare a a = 0;
  woCompare_antisym : forall a b, Z.sgn (woCompare b a) = - Z.sgn (woCompare a b);
  woCompare_trans : forall a b c,
      woCompare a b <= 0 -> woCompare b c <= 0 -> woCompare a c <= 0
}.

Section Notions.

Context {M : BSONModel} {Ops : @FieldRangeOps M}.

(** The two bounds of an interval, each a value with its inclusivity
    flag, as they stand and exchanged. *)
Definition endpoints (fi : FieldInterval) : FieldBound * FieldBound :=
  (_lower fi, _upper fi).

Definition swapped (fi : FieldInterval) : FieldBound * FieldBound :=
  (_upper fi, _lower fi).

(** What [reverse] pushes for the interval [i]. *)
Definition flip (i : FieldInterval) : FieldInterval :=
  FieldInterval_new (_upper i) (_lower i).




(** One interval, both ends inclusive, on one value. *)
Definition single_point (r : FieldRange) : Prop :=
  exists fi, _intervals r = [fi] /\
             woCompare (_bound (_lower fi)) (_bound (_upper fi)) = 0 /\
             _inclusive (_lower fi) = true /\ _inclusive (_upper fi) = true.

(** One interval that runs from [MinKey] to [MaxKey]. *)
Definition universal (r : FieldRange) : Prop :=
  exists fi, _intervals r = [fi] /\
             woCompare minKeyElement (_bound (_lower fi)) = 0 /\
             woCompare maxKeyElement (_bound (_upper fi)) = 0.

(** A containment test and a coarse difference for ranges.  [outer]
    covers [inner] when it starts no later and ends no earlier; as in the
    design document, a range is a subset of another when each of its
    intervals is covered by one of the other's.  The difference drops the
    covered intervals and keeps the others whole: it removes less than
    [operator-=] may, never more. *)
Definition covers (outer inner : FieldInterval) : bool :=
  let lo := woCompare (_bound (_lower outer)) (_bound (_lower inner)) in
  let up := woCompare (_bound (_upper inner)) (_bound (_upper outer)) in
  ((lo <? 0) || ((lo =? 0) && (_inclusive (_lower outer) || negb (_inclusive (_lower inner))))) &&
  ((up <? 0) || ((up =? 0) && (_inclusive (_upper outer) || negb (_inclusive (_upper inner))))).

Definition covered_by (other : FieldRange) (fi : FieldInterval) : bool :=
  existsb (fun fj => covers fj fi) (_intervals other).

Definition subset_by_cover (a b : FieldRange) : bool :=
  forallb (covered_by b) (_intervals a).

Definition drop_covered (a b : FieldRange) : FieldRange :=
  mkFieldRange (filter (fun fi => negb (covered_by b fi)) (_intervals a))
               (_objData a ++ _objData b) (_special a).

(** The keys of a map and the invariant of [std::map]: keys strictly
    increasing. *)
Definition keys (m : RangeMap) : list string := map fst m.

Fixpoint sorted_keys (m : RangeMap) : Prop :=
  match m with
  | [] => True
  | (k, _) :: m' =>
      match m' with
      | [] => True
      | (k', _) :: _ => String.compare k k' = Lt
      end /\ sorted_keys m'
  end.

(** Every key of [m] is greater than [k]. *)
Definition above (k : string) (m : RangeMap) : Prop :=
  Forall (fun kr => String.compare k (fst kr) = Lt) m.

(** Some field of [j] is absent from [i]. *)
Definition missing (i j : RangeMap) : Prop :=
  exists k, In k (keys j) /\ map_find k i = None.

(** The three ways in which [operator-=] is led to [return *this]. *)
Definition gives_this (w : WalkExit) : bool :=
  match w with
  | ReturnThis => true
  | LoopDone n _ j => match j with [] => n >? 1 | _ :: _ => true end
  end.

(** The fields both sets constrain on which the first range is not a
    subset of the second. *)
Definition unincluded (a b : RangeMap) : list string :=
  keys (filter (fun kr => match map_find (fst kr) b with
                          | Some rb => negb (FieldRange_le (snd kr) rb)
                          | None => false
                          end) a).

(** The number of intervals of each range and their product, as
    unbounded integers. *)
Definition interval_count (r : FieldRange) : Z := Z.of_nat (List.length (_intervals r)).

Definition product (ranges : list FieldRange) : Z :=
  fold_right (fun r acc => interval_count r * acc) 1 ranges.

(** The range the constructor reads for a key-pattern element, and
    whether it keeps it as it is. *)
Definition field_range (g : Globals) (frs : FieldRangeSet) (kp : string * Z) : FieldRange :=
  range g frs (fst kp).

Definition is_forward (direction : Z) (kp : string * Z) : bool :=
  sign (snd kp) * sign direction >? 0.

(** What the constructor pushes for a key-pattern element. *)
Definition projected (g : Globals) (frs : FieldRangeSet) (direction : Z) (kp : string * Z)
  : Result FieldRange :=
  if is_forward direction kp
  then Ok (field_range g frs kp)
  else reverse (field_range g frs kp) FieldRange_default.

(** The text of the two conditions the constructor may see fail. *)
Definition nonempty_assertion : string := "!_ranges.back().empty()".

Definition limit_message : string :=
  "combinatorial limit of $in partitioning of result set exceeded".

(** The number of intervals of each field of a vector, in key-pattern
    order, and the product of such a list. *)
Definition interval_counts (v : FieldRangeVector) : list Z :=
  map interval_count (v_ranges v).

Definition product_of (counts : list Z) : Z := fold_right Z.mul 1 counts.

(** Position vectors of the iterator: each index within its field's
    intervals; their lexicographic order. *)
Definition in_bounds (counts : list Z) (idx : list Z) : Prop :=
  Forall2 (fun c x => 0 <= x < c) counts idx.

Fixpoint lex_lt (a b : list Z) : Prop :=
  match a, b with
  | x :: a', y :: b' => x < y \/ (x = y /\ lex_lt a' b')
  | _, _ => False
  end.

(** The step of a mixed-radix odometer, stated on its own: the
    rightmost position that is not at its field's last interval is
    incremented and every position to its right is set to 0; [None] when
    every position is at its last interval. *)
Fixpoint odometer_step (counts : list Z) (idx : list Z) : option (list Z) :=
  match counts, idx with
  | c :: counts', x :: idx' =>
      match odometer_step counts' idx' with
      | Some idx'' => Some (x :: idx'')
      | None => if x <? c - 1 then Some (x + 1 :: map (fun _ => 0) idx') else None
      end
  | _, _ => None
  end.

(** The rank of a position vector among all of them in lexicographic
    order: its value as a mixed-radix numeral. *)
Fixpoint position_value (counts : list Z) (idx : list Z) : Z :=
  match counts, idx with
  | _ :: counts', x :: idx' => x * product_of counts' + position_value counts' idx'
  | _, _ => 0
  end.

(** The loop of [advance()] read on the list of interval counts. *)
Fixpoint scan_counts (counts : list Z) (idx : list Z) (k : nat) : option (option nat) :=
  match k with
  | O => Some None
  | S i =>
      match nth_error idx i, nth_error counts i with
      | Some x, Some n =>
          if x >=? n - 1 then scan_counts counts idx i else Some (Some i)
      | _, _ => None
      end
  end.

(** The positions after the last vector: position 0 holds the number of
    intervals of the first field, the others are at their last interval. *)
Definition past_the_end (counts : list Z) : list Z :=
  match counts with
  | [] => []
  | c :: cs => c :: map (fun c' => c' - 1) cs
  end.

(** The interval counts of a vector all fit an [int]. *)
Definition counts_fit (v : FieldRangeVector) : Prop :=
  Forall (fun c => 1 <= c < 2 ^ 31) (interval_counts v).

(** The iterator of [v] with every position at 0, as [setZero( 0 )]
    leaves it. *)
Definition Iterator_zero (v : FieldRangeVector) : Iterator :=
  setZero (Iterator_new v) 0.

End Notions.

(** ** A small document model to run the definitions

    Values are [MinKey], the integers and [MaxKey], compared in that
    order.  The out-of-line [operator<=] is [subset_by_cover] and
    [operator-=] is [drop_covered]; [FieldRange()] is the universal
    range. *)
Module Sample.

Inductive Value : Type :=
| MinKey
| NumberInt (n : Z)
| MaxKey.

Definition compare (a b : Value) : Z :=
  match a, b with
  | MinKey, MinKey => 0
  | MinKey, _ => -1
  | _, MinKey => 1
  | MaxKey, MaxKey => 0
  | MaxKey, _ => 1
  | _, MaxKey => -1
  | NumberInt x, NumberInt y =>
      match Z.compare x y with
      | Lt => -1
      | Eq => 0
      | Gt => 1
      end
  end.

#[global] Instance bson : BSONModel := {|
  BSONElement := Value;
  BSONObj := list (string * Value);
  woCompare := compare;
  minKeyElement := MinKey;
  maxKeyElement := MaxKey
|}.

#[global] Instance ops : FieldRangeOps := {|
  FieldRange_default := trivialRange_initial;
  FieldRange_le := subset_by_cover;
  FieldRange_minus := drop_covered
|}.

(** [[lo, up]] with both ends inclusive, and the range made of the given
    intervals. *)
Definition closed (lo up : Z) : FieldInterval :=
  mkFieldInterval (mkFieldBound (NumberInt lo) true) (mkFieldBound (NumberInt up) true) (-1).

Definition range_of (l : list FieldInterval) : FieldRange :=
  mkFieldRange l [] EmptyString.

Definition set_of (m : RangeMap) : FieldRangeSet :=
  mkFieldRangeSet m "test.c" [].

(** The range of [{ $in : [ 1, ..., 8 ] }]. *)
Definition in_eight : FieldRange :=
  range_of (map (fun n => FieldInterval_of (NumberInt n)) [1; 2; 3; 4; 5; 6; 7; 8]).

(** Twenty-two fields [a] to [v], each with the range [in_eight], and
    the ascending index on all of them. *)
Definition letters : list string :=
  map (fun n => String (ascii_of_nat n) EmptyString) (seq 97 22).

Definition wide_set : FieldRangeSet :=
  set_of (map (fun k => (k, in_eight)) letters).

Definition wide_index : IndexSpec :=
  mkIndexSpec (map (fun k => (k, 1)) letters).

Definition wide_vector : FieldRangeVector :=
  mkFieldRangeVector (map (fun _ => in_eight) letters) wide_index 1 [].

(** The index [{ a : 1 }]; the set of [{ a : { $gte : 1, $lte : 3 } }];
    a set whose range for [a] is empty. *)
Definition index_a : IndexSpec := mkIndexSpec [("a"%string, 1)].

Definition one_to_three : FieldRangeSet :=
  set_of [("a"%string, range_of [closed 1 3])].

Definition nothing_for_a : FieldRangeSet :=
  set_of [("a"%string, range_of [])].

(** The set of [{ a : { $in : [ 1, 2, 3 ] }, b : { $in : [ 10, 20 ] } }],
    the index [{ a : 1, b : 1 }] and the vector built from them. *)
Definition in_three_two : FieldRangeSet :=
  set_of [("a"%string, range_of (map (fun n => FieldInterval_of (NumberInt n)) [1; 2; 3]));
          ("b"%string, range_of (map (fun n => FieldInterval_of (NumberInt n)) [10; 20]))].

Definition index_a_b : IndexSpec := mkIndexSpec [("a"%string, 1); ("b"%string, 1)].

Definition three_by_two : FieldRangeVector :=
  mkFieldRangeVector (map snd (_ranges in_three_two)) index_a_b 1 [].

(** The vector with the single interval from 3 down to 1, both ends
    inclusive, for the index [{ a : 1 }] read backwards. *)
Definition three_down_to_one : FieldRangeVector :=
  mkFieldRangeVector
    [range_of [mkFieldInterval (mkFieldBound (NumberInt 3) true)
                               (mkFieldBound (NumberInt 1) true) (-1)]]
    index_a (-1) [].

(** The positions of the iterator of [v] after [k] calls of
    [advance()] from all zeros. *)
Definition positions_after (v : FieldRangeVector) (k : nat) : option (list Z) :=
  match advance_times k (Iterator_zero v) with
  | Some it => Some (_i it)
  | None => None
  end.

(** The constructor run on these. *)
Definition build_wide : Result FieldRangeVector :=
  FieldRangeVector_new Globals_initial wide_set wide_index 1.

Definition build_descending : Result FieldRangeVector :=
  FieldRangeVector_new Globals_initial one_to_three index_a (-1).

Definition build_nothing : Result FieldRangeVector :=
  FieldRangeVector_new Globals_initial nothing_for_a index_a 1.

Definition build_three_by_two : Result FieldRangeVector :=
  FieldRangeVector_new Globals_initial in_three_two index_a_b 1.

(** The interval of [{ $in : [ 5 ] }] at three moments: as built, after
    one call of [equality()], and after [setExclusiveBounds()] or
    [_lower.flipInclusive()] on top of that. *)
Definition point_five : FieldInterval := FieldInterval_of (NumberInt 5).

Definition point_five_asked : FieldInterval := snd (FieldInterval_equality point_five).

Definition point_five_exclusive : FieldInterval := setExclusive point_five_asked.

Definition point_five_flipped : FieldInterval :=
  mkFieldInterval (flipInclusive (_lower point_five_asked)) (_upper point_five_asked)
                  (_cachedEquality point_five_asked).

(** The range of [{ $in : [ 5, 6 ] }], the same once [inQuery()] has
    been asked, and once [setExclusiveBounds()] has been called on top of
    that. *)
Definition five_six : FieldRange :=
  range_of [FieldInterval_of (NumberInt 5); FieldInterval_of (NumberInt 6)].

Definition five_six_asked : FieldRange :=
  range_of [mkFieldInterval (mkFieldBound (NumberInt 5) true) (mkFieldBound (NumberInt 5) true) 1;
            mkFieldInterval (mkFieldBound (NumberInt 6) true) (mkFieldBound (NumberInt 6) true) 1].

Definition five_six_exclusive : FieldRange := setExclusiveBounds five_six_asked.

(** Two sets on the fields [a] and [b]: the range of [a] in the first
    lies within that of the second, the range of [b] does not; and a
    document with [a = 5] and [b = 1]. *)
Definition left_set : FieldRangeSet :=
  set_of [("a"%string, range_of [closed 1 10]); ("b"%string, range_of [closed 1 3])].

Definition right_set : FieldRangeSet :=
  set_of [("a"%string, range_of [closed 0 20]); ("b"%string, range_of [closed 2 5])].

Definition five_and_one : Document :=
  fun fieldName =>
    if String.eqb fieldName "a" then [NumberInt 5]
    else if String.eqb fieldName "b" then [NumberInt 1]
    else [].

(** Two intervals, in ascending order, and the single value 5. *)
Definition two_intervals : FieldRange := range_of [closed 1 3; closed 5 7].


(** A set without any range, as an empty query yields it, and the
    process state once [makeEmpty()] has been called on what the
    non-const [range] returns for the field [a]. *)
Definition no_ranges : FieldRangeSet := set_of [].

Definition after_makeEmpty : Globals * FieldRangeSet :=
  call_through (range_ref no_ranges "a") makeEmpty Globals_initial no_ranges.

End Sample.

(** ** Further members of the header *)

Section MoreDefs.

Context {M : BSONModel}.

(** [FieldRange::operator&=], declared in the header and defined in
    [queryutil.cpp]. *)
Class FieldRangeAnd : Type := {
  FieldRange_and : FieldRange -> FieldRange -> FieldRange
}.

Context {And : FieldRangeAnd}.

(** The second loop of [FieldRangeSet::operator&=]:
    [_ranges[ j->first ] = j->second] for what is left of [other]. *)
Fixpoint and_rest (j whole : RangeMap) : RangeMap :=
  match j with
  | [] => whole
  | (kj, rj) :: j' => and_rest j' (map_set kj rj whole)
  end.

(** The first loop of [FieldRangeSet::operator&=].  [i] is what the
    iterator over [_ranges] has still to visit, [whole] the map as it
    stands: an entry inserted for a key of [other] comes before the
    position of [i], and [i->second &= j->second] rewrites the entry [i]
    is at, which nothing has touched before. *)
Fixpoint and_walk (i : RangeMap) : RangeMap -> RangeMap -> RangeMap :=
  fix against (j whole : RangeMap) {struct j} : RangeMap :=
    match i with
    | [] => and_rest j whole
    | (ki, ri) :: i' =>
        match j with
        | [] => whole
        | (kj, rj) :: j' =>
            match String.compare ki kj with
            | Eq => and_walk i' j' (map_set ki (FieldRange_and ri rj) whole)
            | Lt => and_walk i' j whole
            | Gt => against j' (map_set kj rj whole)
            end
        end
    end.

(** [FieldRangeSet::operator&=] *)
Definition FieldRangeSet_and (this other : FieldRangeSet) : FieldRangeSet :=
  appendQueries
    (mkFieldRangeSet (and_walk (_ranges this) (_ranges other) (_ranges this))
                     (_ns this) (_queries this))
    other.

(** *** class FieldRangeOrSet *)






(** *** Iterator::startKey and endKey

    [_v._ranges[ i ].intervals()[ _i[ i ] ]]; [None] when either index is
    out of range, a negative position included. *)
Definition interval_at (v : FieldRangeVector) (i : nat) (x : Z) : option FieldInterval :=
  match nth_error (v_ranges v) i with
  | Some r => if x <? 0 then None else nth_error (_intervals r) (Z.to_nat x)
  | None => None
  end.

Fixpoint Iterator_startKey_loop (v : FieldRangeVector) (idx : list Z) (i : nat)
         (b : list BSONElement) : option (list BSONElement) :=
  match idx with
  | [] => Some b
  | x :: idx' =>
      match interval_at v i x with
      | Some fi => Iterator_startKey_loop v idx' (S i) (b ++ [_bound (_lower fi)])
      | None => None
      end
  end.

Definition Iterator_startKey (it : Iterator) : option (list BSONElement) :=
  Iterator_startKey_loop (_v it) (_i it) 0 [].

Fixpoint Iterator_endKey_loop (v : FieldRangeVector) (idx : list Z) (i : nat)
         (b : list BSONElement) : option (list BSONElement) :=
  match idx with
  | [] => Some b
  | x :: idx' =>
      match interval_at v i x with
      | Some fi => Iterator_endKey_loop v idx' (S i) (b ++ [_bound (_upper fi)])
      | None => None
      end
  end.

Definition Iterator_endKey (it : Iterator) : option (list BSONElement) :=
  Iterator_endKey_loop (_v it) (_i it) 0 [].

(** *** class QueryPattern

    [enum Type], compared as the integers its enumerators stand for. *)
Inductive PatternType : Type :=
| Equality
| LowerBound
| UpperBound
| UpperAndLowerBound.

Definition PatternType_value (t : PatternType) : Z :=
  match t with
  | Equality => 0
  | LowerBound => 1
  | UpperBound => 2
  | UpperAndLowerBound => 3
  end.

(** [map< string, Type > _fieldTypes] is the list of its entries by
    increasing key. *)
Record QueryPattern : Type := mkQueryPattern {
  _fieldTypes : list (string * PatternType);
  _sort : BSONObj
}.

(** [a.woCompare( b )] on two documents, from [jsobj.h]. *)
Class BSONObjCompare : Type := {
  objCompare : BSONObj -> BSONObj -> Z
}.

Context {C : BSONObjCompare}.

(** The loop of [QueryPattern::operator<] and the two statements that
    follow it; [sortLess] is [_sort.woCompare( other._sort ) < 0]. *)
Fixpoint less_walk (i j : list (string * PatternType)) (sortLess : bool) : bool :=
  match i with
  | [] => match j with
          | [] => sortLess
          | _ :: _ => true
          end
  | (ni, ti) :: i' =>
      match j with
      | [] => false
      | (nj, tj) :: j' =>
          match String.compare ni nj with
          | Lt => true
          | Gt => false
          | Eq =>
              if PatternType_value ti <? PatternType_value tj then true
              else if PatternType_value ti >? PatternType_value tj then false
              else less_walk i' j' sortLess
          end
      end
  end.

(** [QueryPattern::operator<] *)
Definition QueryPattern_less (a b : QueryPattern) : bool :=
  less_walk (_fieldTypes a) (_fieldTypes b) (objCompare (_sort a) (_sort b) <? 0).

(** [QueryPattern::operator==] *)
Definition QueryPattern_eq (a b : QueryPattern) : Result bool :=
  let less := QueryPattern_less a b in
  let more := QueryPattern_less b a in
  _ <- assert (negb (less && more)) "!( less && more )" ;;
  Ok (negb (less || more)).

(** [QueryPattern::operator!=] *)
Definition QueryPattern_ne (a b : QueryPattern) : Result bool :=
  e <- QueryPattern_eq a b ;; Ok (negb e).

(** [QueryPattern::normalizeSort].  The specification is read element by
    element through [fieldName()] and the test [number() >= 0], kept here
    as a name and a boolean; what is built holds the name and the integer
    appended. *)
Fixpoint normalizeSort_loop (direction : Z) (spec : list (string * bool))
         (b : list (string * Z)) : list (string * Z) :=
  match spec with
  | [] => b
  | (fieldName, nonneg) :: spec' =>
      normalizeSort_loop direction spec'
                         (b ++ [(fieldName, direction * (if nonneg then -1 else 1))])
  end.

Definition normalizeSort (spec : list (string * bool)) : list (string * Z) :=
  match spec with
  | [] => []
  | (_, nonneg) :: _ =>
      let direction := if nonneg then 1 else -1 in
      normalizeSort_loop direction spec []
  end.

(** How [normalizeSort] reads a specification it has built. *)
Definition read_sort (built : list (string * Z)) : list (string * bool) :=
  map (fun e => (fst e, snd e >=? 0)) built.

End MoreDefs.

(** The comparison of documents is a total preorder. *)
Class BSONObjOrder {M : BSONModel} {C : @BSONObjCompare M} : Prop := {
  objCompare_refl : forall a, objCompare a a = 0;
  objCompare_antisym : forall a b, Z.sgn (objCompare b a) = - Z.sgn (objCompare a b);
  objCompare_trans : forall a b c,
      objCompare a b <= 0 -> objCompare b c <= 0 -> objCompare a c <= 0
}.

(** ** Further notions *)

Section MoreNotions.

Context {M : BSONModel} {And : @FieldRangeAnd M}.

(** The answer of [nontrivial()], which no range makes fail. *)
Definition is_nontrivial (r : FieldRange) : bool :=
  match nontrivial r with
  | Ok b => b
  | Thrown _ => false
  end.

(** The entry of a field after [operator&=], from the entries the two
    sets had for it. *)
Definition and_entry (ra rb : option FieldRange) : option FieldRange :=
  match ra, rb with
  | Some x, Some y => Some (FieldRange_and x y)
  | Some x, None => Some x
  | None, Some y => Some y
  | None, None => None
  end.

End MoreNotions.

Section ScanNotions.

Context {M : BSONModel}.

(** Two elements of key patterns on the same field, in opposite
    directions as the constructor reads them. *)
Definition opposite (kp kp' : string * Z) : Prop :=
  fst kp' = fst kp /\ sign (snd kp') = - sign (snd kp).

(** One of two ranges holds the intervals of the other in reverse order,
    each with its bounds exchanged. *)
Definition mirrored (r r' : FieldRange) : Prop :=
  _intervals r' = map flip (rev (_intervals r)) \/
  _intervals r = map flip (rev (_intervals r')).


End ScanNotions.

Section RangeNotions.

Context {M : BSONModel}.


(** The single interval [[MinKey, MaxKey]] with both ends inclusive. *)
Definition universal_inclusive (r : FieldRange) : Prop :=
  exists fi, _intervals r = [fi] /\
             woCompare minKeyElement (_bound (_lower fi)) = 0 /\
             woCompare maxKeyElement (_bound (_upper fi)) = 0 /\
             _inclusive (_lower fi) = true /\ _inclusive (_upper fi) = true.

(** The call [r.reverse( r )], in which [ret] designates the range
    itself: after the assertion [ret._intervals.clear()] empties the very
    vector the loop is about to walk, and [ret._objData = _objData]
    assigns the member to itself. *)
Definition reverse_self (r : FieldRange) : Result FieldRange :=
  _ <- assert (string_empty (_special r)) "_special.empty()" ;;
  let cleared : list FieldInterval := [] in
  Ok (mkFieldRange (reverse_loop (rev cleared) cleared) (_objData r) (_special r)).

End RangeNotions.

(** An intersection for ranges to run [operator&=] with: the intervals
    of the first range that the second covers. *)
Definition keep_covered {M : BSONModel} (a b : FieldRange) : FieldRange :=
  mkFieldRange (filter (covered_by b) (_intervals a))
               (_objData a ++ _objData b) (_special a).

(** ** More sample values *)

Module Cases.

Import Sample.

#[global] Instance intersect : FieldRangeAnd := {|
  FieldRange_and := keep_covered
|}.

(** Two sets that share the field [c] only. *)
Definition on_a_c : FieldRangeSet :=
  mkFieldRangeSet [("a"%string, range_of [closed 1 10]); ("c"%string, range_of [closed 1 3; closed 5 7])]
                  "test.c" [[("a"%string, NumberInt 1)]].

Definition on_b_c : FieldRangeSet :=
  mkFieldRangeSet [("b"%string, range_of [closed 2 5]); ("c"%string, range_of [closed 4 9])]
                  "test.c" [[("b"%string, NumberInt 2)]].

(** Documents compared element by element, a field name before its
    value; a document that ends first comes first. *)
Fixpoint compare_docs (a b : list (string * Value)) : Z :=
  match a, b with
  | [], [] => 0
  | [], _ :: _ => -1
  | _ :: _, [] => 1
  | (n, x) :: a', (m, y) :: b' =>
      match String.compare n m with
      | Lt => -1
      | Gt => 1
      | Eq => if compare x y =? 0 then compare_docs a' b' else compare x y
      end
  end.

#[global] Instance docs : BSONObjCompare := {|
  objCompare := compare_docs
|}.

(** Three query patterns: an equality on [a]; an equality on [a] and a
    lower bound on [b]; the same with a sort on [b]. *)
Definition eq_a : QueryPattern :=
  mkQueryPattern [("a"%string, Equality)] [].

Definition eq_a_low_b : QueryPattern :=
  mkQueryPattern [("a"%string, Equality); ("b"%string, LowerBound)] [].

Definition eq_a_low_b_sorted : QueryPattern :=
  mkQueryPattern [("a"%string, Equality); ("b"%string, LowerBound)]
                 [("b"%string, NumberInt (-1))].

(** The indexes [{ a : 1, b : -1 }] and [{ a : -1, b : 1 }], and the
    vector of [{ a : { $gte : 1, $lte : 3 } }] on [{ a : 1 }] read
    forwards. *)
Definition index_a_down_b : IndexSpec := mkIndexSpec [("a"%string, 1); ("b"%string, -1)].

Definition index_down_a_b : IndexSpec := mkIndexSpec [("a"%string, -1); ("b"%string, 1)].

Definition one_up_to_three : FieldRangeVector :=
  mkFieldRangeVector [range_of [closed 1 3]] index_a 1 [].



Definition tagged_2d : FieldRange :=
  mkFieldRange [closed 0 9] [] "2d".

Definition open_min_max : FieldRange :=
  range_of [mkFieldInterval (mkFieldBound MinKey false) (mkFieldBound MaxKey false) (-1)].


End Cases.

(** * Properties *)

Lemma back_app_one {A : Type} (l : list A) (x : A) : back (l ++ [x]) = Some x.
Proof.
  induction l as [|y l IH]; simpl; [reflexivity|].
  destruct (l ++ [x]) eqn:E; [destruct l; discriminate|exact IH].
Qed.

Lemma back_some_inv {A : Type} (l : list A) (x : A) :
  back l = Some x -> exists l', l = l' ++ [x].
Proof.
  induction l as [|y l IH]; simpl; [discriminate|].
  destruct l as [|z l'].
  - intros [= ->]. exists []. reflexivity.
  - intros H. destruct (IH H) as [l0 ->]. exists (y :: l0). reflexivity.
Qed.

Lemma back_none_inv {A : Type} (l : list A) : back l = None -> l = [].
Proof.
  induction l as [|y l IH]; simpl; [reflexivity|].
  destruct l as [|z l']; [discriminate|].
  intros H. specialize (IH H). discriminate.
Qed.

Lemma string_empty_true (s : string) : string_empty s = true <-> s = EmptyString.
Proof. destruct s; simpl; split; congruence. Qed.

Section RangeProperties.

Context {M : BSONModel}.

(** ** reverse *)

Lemma reverse_loop_map (rl acc : list FieldInterval) :
  reverse_loop rl acc = acc ++ map flip rl.
Proof.
  revert acc. induction rl as [|i rl IH]; intros acc; simpl.
  - now rewrite app_nil_r.
  - rewrite IH, <- app_assoc. reflexivity.
Qed.

Lemma reverse_intervals (r ret r1 : FieldRange) :
  reverse r ret = Ok r1 ->
  _intervals r1 = map flip (rev (_intervals r)) /\
  _objData r1 = _objData r /\ _special r1 = _special ret.
Proof.
  unfold reverse, assert. destruct (string_empty (_special r)); simpl; [|discriminate].
  intros [= <-]. simpl. rewrite reverse_loop_map. auto.
Qed.

Lemma reverse_runs (r ret : FieldRange) :
  _special r = EmptyString -> exists r1, reverse r ret = Ok r1.
Proof.
  intros H. unfold reverse, assert. rewrite H. simpl. eauto.
Qed.

Lemma endpoints_flip_rev (l : list FieldInterval) :
  map endpoints (map flip (rev l)) = rev (map swapped l).
Proof. rewrite map_map, map_rev. reflexivity. Qed.

Lemma endpoints_flip_twice (l : list FieldInterval) :
  map endpoints (map flip (rev (map flip (rev l)))) = map endpoints l.
Proof.
  rewrite <- map_rev, rev_involutive, !map_map.
  apply map_ext. intros []. reflexivity.
Qed.

Lemma flip_twice (l : list FieldInterval) :
  map flip (rev (map flip (rev l))) =
  map (fun fi => FieldInterval_new (_lower fi) (_upper fi)) l.
Proof.
  rewrite <- map_rev, rev_involutive, map_map. reflexivity.
Qed.

Lemma flip_twice_fresh (l : list FieldInterval) :
  Forall (fun fi => _cachedEquality fi = -1) l ->
  map flip (rev (map flip (rev l))) = l.
Proof.
  intros H. rewrite flip_twice. rewrite <- (map_id l) at 2.
  apply map_ext_in. intros [lo up c] Hin.
  rewrite Forall_forall in H. specialize (H _ Hin). simpl in H. subst c.
  reflexivity.
Qed.

(** C3.  [r.reverse( ret )] into a range other than [r] itself.  When
    [r] carries no special tag the call succeeds and [ret] holds the
    intervals of [r] in the opposite order, each with its two bounds
    (value and inclusivity flag together) exchanged and with a new cache,
    the backing objects of [r], and the tag [ret] had, which [reverse]
    does not assign.  A second [reverse] of the result succeeds exactly
    when that tag is empty; it then gives the intervals of [r] in the
    original order with their bounds as they were and new caches, the
    backing objects of [r] and the tag of the second target: a range
    equal to [r] when the second target has no tag either and no interval
    of [r] held a cached equality answer.  When the first target has a
    tag the second [reverse] fails the assertion, as [reverse] does on
    every range that carries a special tag. *)
Theorem C3_reverse_involution (r ret ret2 : FieldRange) :
  (_special r = EmptyString ->
   exists r1,
     reverse r ret = Ok r1 /\
     map endpoints (_intervals r1) = rev (map swapped (_intervals r)) /\
     Forall (fun fi => _cachedEquality fi = -1) (_intervals r1) /\
     _objData r1 = _objData r /\ _special r1 = _special ret /\
     (_special ret = EmptyString ->
      exists r2,
        reverse r1 ret2 = Ok r2 /\
        _intervals r2 =
        map (fun fi => FieldInterval_new (_lower fi) (_upper fi)) (_intervals r) /\
        map endpoints (_intervals r2) = map endpoints (_intervals r) /\
        _objData r2 = _objData r /\ _special r2 = _special ret2 /\
        (_special ret2 = EmptyString ->
         Forall (fun fi => _cachedEquality fi = -1) (_intervals r) -> r2 = r)) /\
     (_special ret <> EmptyString ->
      reverse r1 ret2 = Thrown (AssertionFailed "_special.empty()"))) /\
  (_special r <> EmptyString ->
   reverse r ret = Thrown (AssertionFailed "_special.empty()")).
Proof.
  assert (Hthrow : forall x y, _special x <> EmptyString ->
                               reverse x y = Thrown (AssertionFailed "_special.empty()")).
  { intros x y Hx. unfold reverse, assert.
    destruct (string_empty (_special x)) eqn:E; [|reflexivity].
    apply string_empty_true in E. contradiction. }
  split; [|apply Hthrow].
  intros Hr. destruct (reverse_runs r ret Hr) as [r1 H1].
  destruct (reverse_intervals _ _ _ H1) as (Hi1 & Ho1 & Hs1).
  exists r1. split; [exact H1|]. split; [|split; [|split; [|split; [|split]]]].
  - rewrite Hi1. apply endpoints_flip_rev.
  - rewrite Hi1. apply Forall_forall. intros fi Hin.
    apply in_map_iff in Hin as (fj & <- & _). reflexivity.
  - exact Ho1.
  - exact Hs1.
  - intros Hret. assert (Hs : _special r1 = EmptyString) by congruence.
    destruct (reverse_runs r1 ret2 Hs) as [r2 H2].
    destruct (reverse_intervals _ _ _ H2) as (Hi2 & Ho2 & Hs2).
    exists r2. split; [exact H2|]. split; [|split; [|split; [|split]]].
    + rewrite Hi2, Hi1. apply flip_twice.
    + rewrite Hi2, Hi1. apply endpoints_flip_twice.
    + congruence.
    + exact Hs2.
    + intros Hret2 Hfresh.
      assert (Hi : _intervals r2 = _intervals r)
        by (rewrite Hi2, Hi1; now apply flip_twice_fresh).
      assert (Ho : _objData r2 = _objData r) by congruence.
      assert (Hsp : _special r2 = _special r) by congruence.
      destruct r2, r. cbn [_intervals _objData _special] in Hi, Ho, Hsp. congruence.
  - intros Hret. apply Hthrow. congruence.
Qed.

(** ** equality and nontrivial *)

Lemma equality_empty (r : FieldRange) :
  _intervals r = [] -> equality r = Ok false.
Proof. intros H. unfold equality, empty. rewrite H. reflexivity. Qed.

Lemma equality_eval (r : FieldRange) (fi fl : FieldInterval) (l : list FieldInterval) :
  _intervals r = fi :: l -> back (fi :: l) = Some fl ->
  equality r =
  Ok ((woCompare (_bound (_lower fi)) (_bound (_upper fl)) =? 0) &&
      (_inclusive (_upper fl) && _inclusive (_lower fi))).
Proof.
  intros Hi Hb.
  unfold equality, min, max, maxInclusive, minInclusive, empty, and_then, assert.
  rewrite Hi, Hb. simpl.
  destruct (woCompare _ _ =? 0); simpl; [|reflexivity].
  destruct (_inclusive (_upper fl)); reflexivity.
Qed.

Lemma back_cons_some {A : Type} (x : A) (l : list A) : exists y, back (x :: l) = Some y.
Proof.
  destruct (back (x :: l)) eqn:E; [eauto|].
  apply back_none_inv in E. discriminate.
Qed.

Lemma nontrivial_empty (r : FieldRange) :
  _intervals r = [] -> nontrivial r = Ok false.
Proof. intros H. unfold nontrivial, empty. rewrite H. reflexivity. Qed.

Lemma nontrivial_eval (r : FieldRange) (fi fl : FieldInterval) (l : list FieldInterval) :
  _intervals r = fi :: l -> back (fi :: l) = Some fl ->
  nontrivial r =
  Ok (negb (Z.of_nat (List.length (fi :: l)) =? 1) ||
      (negb (woCompare minKeyElement (_bound (_lower fi)) =? 0) ||
       negb (woCompare maxKeyElement (_bound (_upper fl)) =? 0))).
Proof.
  intros Hi Hb.
  unfold nontrivial, min, max, empty, and_then, or_else, assert.
  rewrite Hi, Hb.
  generalize (negb (Z.of_nat (List.length (fi :: l)) =? 1)).
  intros []; simpl; [reflexivity|].
  destruct (negb (woCompare minKeyElement _ =? 0)); reflexivity.
Qed.

Lemma length_one_inv {A : Type} (x : A) (l : list A) :
  (Z.of_nat (List.length (x :: l)) =? 1) = true <-> l = [].
Proof.
  rewrite Z.eqb_eq. destruct l as [|y l]; split; try reflexivity; try discriminate.
  intros H. exfalso. cbn [List.length] in H. lia.
Qed.

Lemma nontrivial_values (r : FieldRange) :
  _intervals r <> [] -> (nontrivial r = Ok true <-> ~ universal r).
Proof.
  intros Hne. destruct (_intervals r) as [|fi l] eqn:Hi; [contradiction|].
  destruct (back_cons_some fi l) as [fl Hb].
  rewrite (nontrivial_eval r fi fl l Hi Hb). split.
  - intros [= H] (fi' & Hone & Hmin & Hmax).
    rewrite Hi in Hone. injection Hone as -> ->. simpl in Hb.
    injection Hb as <-.
    simpl in H. rewrite Hmin, Hmax in H. discriminate.
  - intros Hnu. f_equal.
    destruct (Z.of_nat (List.length (fi :: l)) =? 1) eqn:E1; [|reflexivity].
    apply length_one_inv in E1. subst l. simpl in Hb. injection Hb as <-.
    simpl.
    destruct (woCompare minKeyElement (_bound (_lower fi)) =? 0) eqn:E2; [|reflexivity].
    destruct (woCompare maxKeyElement (_bound (_upper fi)) =? 0) eqn:E3; [|reflexivity].
    exfalso. apply Hnu. exists fi. rewrite Hi.
    apply Z.eqb_eq in E2, E3. auto.
Qed.

(** *** The order of element values *)

Section Order.

Context {O : @BSONOrder M}.

Lemma cmp_neg_pos (a b : BSONElement) : woCompare a b < 0 <-> 0 < woCompare b a.
Proof.
  pose proof (woCompare_antisym a b) as H.
  destruct (woCompare a b), (woCompare b a); simpl in H; split; intros; try lia; discriminate.
Qed.


Lemma cmp_lt_le_trans (a b c : BSONElement) :
  woCompare a b < 0 -> woCompare b c <= 0 -> woCompare a c < 0.
Proof.
  intros Hab Hbc.
  destruct (Z_lt_le_dec (woCompare a c) 0) as [|Hac]; [assumption|].
  assert (Hca : woCompare c a <= 0).
  { destruct (Z_le_gt_dec (woCompare c a) 0); [assumption|].
    assert (woCompare a c < 0) by (apply cmp_neg_pos; lia). lia. }
  pose proof (woCompare_trans b c a Hbc Hca).
  apply cmp_neg_pos in Hab. lia.
Qed.

Lemma cmp_le_lt_trans (a b c : BSONElement) :
  woCompare a b <= 0 -> woCompare b c < 0 -> woCompare a c < 0.
Proof.
  intros Hab Hbc.
  destruct (Z_lt_le_dec (woCompare a c) 0) as [|Hac]; [assumption|].
  assert (Hca : woCompare c a <= 0).
  { destruct (Z_le_gt_dec (woCompare c a) 0); [assumption|].
    assert (woCompare a c < 0) by (apply cmp_neg_pos; lia). lia. }
  pose proof (woCompare_trans c a b Hca Hab).
  apply cmp_neg_pos in Hbc. lia.
Qed.






Lemma equality_true_inv (r : FieldRange) :
  equality r = Ok true ->
  exists fi l fl, _intervals r = fi :: l /\ back (fi :: l) = Some fl /\
                  woCompare (_bound (_lower fi)) (_bound (_upper fl)) = 0 /\
                  _inclusive (_lower fi) = true /\ _inclusive (_upper fl) = true.
Proof.
  destruct (_intervals r) as [|fi l] eqn:Hi.
  - rewrite (equality_empty r Hi). discriminate.
  - destruct (back_cons_some fi l) as [fl Hb].
    rewrite (equality_eval r fi fl l Hi Hb). intros [= H].
    apply andb_true_iff in H as [Hc H]. apply andb_true_iff in H as [Hu Hl].
    apply Z.eqb_eq in Hc. exists fi, l, fl. auto.
Qed.

Lemma equality_exclusive (r : FieldRange) :
  equality (setExclusiveBounds r) = Ok true <-> single_point (setExclusiveBounds r).
Proof.
  split.
  - intros H. apply equality_true_inv in H as (fi & l & fl & Hi & _ & _ & Hl & _).
    exfalso. unfold setExclusiveBounds in Hi. cbn [_intervals] in Hi.
    destruct (_intervals r) as [|f0 l0]; [discriminate|].
    simpl in Hi. injection Hi as <- _. discriminate.
  - intros (fi & Hi & _ & Hl & _).
    exfalso. unfold setExclusiveBounds in Hi. cbn [_intervals] in Hi.
    destruct (_intervals r) as [|f0 l0]; [discriminate|].
    simpl in Hi. injection Hi as <- _. discriminate.
Qed.



End Order.

End RangeProperties.

(** C6.  [nontrivial()] never fails.  On a range that has an interval it
    answers true exactly when the range is not one single interval whose
    end values compare equal to [MinKey] and [MaxKey]; the inclusivity
    flags are not read.  On a range without intervals it answers false,
    although such a range is not the universal interval and holds no
    value at all; and it answers false on the interval from [MinKey] to
    [MaxKey] with neither end inclusive, which is not the interval
    [[MinKey, MaxKey]] and does not hold [MinKey]. *)
Theorem C6_nontrivial_empty_range :
  (forall (M : BSONModel) (r : FieldRange),
      (exists b, nontrivial r = Ok b) /\
      (_intervals r <> [] -> (nontrivial r = Ok true <-> ~ universal r)) /\
      (universal_inclusive r -> nontrivial r = Ok false) /\
      (empty r = true ->
       nontrivial r = Ok false /\ ~ universal r /\ ~ universal_inclusive r /\
       forall e, range_contains r e = false)) /\
  (empty (Sample.range_of []) = true /\
   nontrivial (Sample.range_of []) = Ok false /\
   ~ universal_inclusive (Sample.range_of []) /\
   range_contains (Sample.range_of []) (Sample.NumberInt 5) = false) /\
  (nontrivial Cases.open_min_max = Ok false /\
   ~ universal_inclusive Cases.open_min_max /\
   range_contains Cases.open_min_max Sample.MinKey = false).
Proof.
  split; [|split].
  - intros M r. split; [|split; [|split]].
    + destruct (_intervals r) as [|fi l] eqn:Hi.
      * rewrite (nontrivial_empty r Hi). eauto.
      * destruct (back_cons_some fi l) as [fl Hb].
        rewrite (nontrivial_eval r fi fl l Hi Hb). eauto.
    + apply nontrivial_values.
    + intros (fi & Hi & Hmin & Hmax & _).
      destruct (nontrivial r) as [[|]|e] eqn:E.
      * exfalso. apply (proj1 (nontrivial_values r ltac:(rewrite Hi; discriminate)) E).
        exists fi. auto.
      * reflexivity.
      * exfalso. rewrite (nontrivial_eval r fi fi [] Hi eq_refl) in E. discriminate.
    + intros He. unfold empty in He.
      destruct (_intervals r) as [|fi l] eqn:Hi; [|discriminate].
      split; [now apply nontrivial_empty|]. split; [|split].
      * intros (fi & H & _). congruence.
      * intros (fi & H & _). congruence.
      * intros e. unfold range_contains. rewrite Hi. reflexivity.
  - split; [reflexivity|]. split; [reflexivity|]. split; [|reflexivity].
    intros (fi & H & _). discriminate.
  - split; [reflexivity|]. split; [|reflexivity].
    intros (fi & H & _ & _ & Hl & _). injection H as <-. discriminate.
Qed.

(** ** Keys of a [std::map] *)

Lemma str_cmp_refl (k : string) : String.compare k k = Eq.
Proof. now apply String_as_OT.cmp_eq. Qed.

Lemma str_cmp_eq (k k' : string) : String.compare k k' = Eq -> k = k'.
Proof. apply String.compare_eq_iff. Qed.

Lemma str_cmp_lt_trans (a b c : string) :
  String.compare a b = Lt -> String.compare b c = Lt -> String.compare a c = Lt.
Proof.
  intros H1 H2. apply String_as_OT.cmp_lt in H1, H2. apply String_as_OT.cmp_lt.
  eapply String_as_OT.lt_trans; eassumption.
Qed.

Lemma str_cmp_gt_lt (a b : string) :
  String.compare a b = Gt -> String.compare b a = Lt.
Proof.
  intros H. rewrite String.compare_antisym, H. reflexivity.
Qed.

Lemma str_lt_neq (a b : string) : String.compare a b = Lt -> a <> b.
Proof. intros H ->. rewrite str_cmp_refl in H. discriminate. Qed.

Lemma str_lt_eqb (a b : string) :
  String.compare a b = Lt -> String.eqb a b = false /\ String.eqb b a = false.
Proof.
  intros H. apply str_lt_neq in H. split; apply String.eqb_neq; congruence.
Qed.

Section SetProperties.

Context {M : BSONModel} {Ops : @FieldRangeOps M}.

Lemma sorted_above (k : string) (r : FieldRange) (m : RangeMap) :
  sorted_keys ((k, r) :: m) -> above k m /\ sorted_keys m.
Proof.
  revert k r. induction m as [|[k' r'] m IH]; intros k r [H Hs].
  - split; [constructor|exact I].
  - split; [|exact Hs]. destruct (IH k' r' Hs) as [Hab _].
    constructor; [exact H|].
    eapply Forall_impl; [|exact Hab]. intros kr Hk.
    eapply str_cmp_lt_trans; eassumption.
Qed.

Lemma above_find_none (k : string) (m : RangeMap) :
  above k m -> map_find k m = None.
Proof.
  induction 1 as [|[k' r'] m Hk _ IH]; simpl; [reflexivity|].
  simpl in Hk. destruct (str_lt_eqb _ _ Hk) as [-> _]. exact IH.
Qed.

Lemma above_trans (k k' : string) (m : RangeMap) :
  String.compare k k' = Lt -> above k' m -> above k m.
Proof.
  intros H Hab. eapply Forall_impl; [|exact Hab].
  intros kr Hk. eapply str_cmp_lt_trans; eassumption.
Qed.

Lemma find_in (k : string) (r : FieldRange) (m : RangeMap) :
  map_find k m = Some r -> In (k, r) m.
Proof.
  induction m as [|[k' r'] m IH]; simpl; [discriminate|].
  destruct (String.eqb k k') eqn:E.
  - apply String.eqb_eq in E. subst. intros [= ->]. now left.
  - intros H. right. auto.
Qed.

Lemma in_find (k : string) (r : FieldRange) (m : RangeMap) :
  sorted_keys m -> In (k, r) m -> map_find k m = Some r.
Proof.
  induction m as [|[k' r'] m IH]; intros Hs Hin; [contradiction|].
  destruct (sorted_above _ _ _ Hs) as [Hab Hs'].
  simpl. destruct Hin as [[= -> ->]|Hin].
  - now rewrite String.eqb_refl.
  - assert (Hlt : String.compare k' k = Lt).
    { unfold above in Hab. rewrite Forall_forall in Hab. apply (Hab _ Hin). }
    destruct (str_lt_eqb _ _ Hlt) as [_ ->]. auto.
Qed.

Lemma unincluded_nil_r (i : RangeMap) : unincluded i [] = [].
Proof.
  unfold unincluded. induction i as [|[k r] i IH]; simpl; [reflexivity|exact IH].
Qed.

Lemma unincluded_skip_r (i : RangeMap) (kj : string) (rj : FieldRange) (j : RangeMap) :
  above kj i -> unincluded i ((kj, rj) :: j) = unincluded i j.
Proof.
  intros Hab. unfold unincluded. f_equal. apply filter_ext_in.
  intros [k r] Hin. unfold above in Hab. rewrite Forall_forall in Hab.
  specialize (Hab _ Hin). cbn [fst snd map_find] in *.
  destruct (str_lt_eqb _ _ Hab) as [_ ->]. reflexivity.
Qed.

Lemma unincluded_shared (k : string) (ri rj : FieldRange) (i j : RangeMap) :
  above k i ->
  unincluded ((k, ri) :: i) ((k, rj) :: j) =
  (if FieldRange_le ri rj then [] else [k]) ++ unincluded i j.
Proof.
  intros Hab. rewrite <- (unincluded_skip_r i k rj j Hab).
  unfold unincluded, keys. cbn [filter fst snd].
  replace (map_find k ((k, rj) :: j)) with (Some rj)
    by (cbn [map_find]; now rewrite String.eqb_refl).
  destruct (FieldRange_le ri rj); reflexivity.
Qed.

Lemma unincluded_skip_l (k : string) (ri : FieldRange) (i j : RangeMap) :
  map_find k j = None -> unincluded ((k, ri) :: i) j = unincluded i j.
Proof. intros H. unfold unincluded. simpl. rewrite H. reflexivity. Qed.

Lemma missing_shared (k : string) (ri rj : FieldRange) (i j : RangeMap) :
  above k j -> (missing ((k, ri) :: i) ((k, rj) :: j) <-> missing i j).
Proof.
  intros Hab. split; intros (x & Hin & Hnone).
  - simpl in Hnone. destruct (String.eqb x k) eqn:E; [discriminate|].
    destruct Hin as [Hin|Hin]; [simpl in Hin; subst; rewrite String.eqb_refl in E; discriminate|].
    exists x. auto.
  - exists x. split; [now right|]. simpl.
    assert (Hlt : String.compare k x = Lt).
    { unfold above in Hab. rewrite Forall_forall in Hab.
      unfold keys in Hin. apply in_map_iff in Hin as ([x' r'] & <- & Hin).
      apply (Hab _ Hin). }
    destruct (str_lt_eqb _ _ Hlt) as [_ ->]. exact Hnone.
Qed.

Lemma missing_skip_l (ki : string) (ri : FieldRange) (i : RangeMap)
      (kj : string) (rj : FieldRange) (j : RangeMap) :
  String.compare ki kj = Lt -> above kj j ->
  (missing ((ki, ri) :: i) ((kj, rj) :: j) <-> missing i ((kj, rj) :: j)).
Proof.
  intros Hlt Hab.
  assert (Hne : forall x, In x (keys ((kj, rj) :: j)) -> String.eqb x ki = false).
  { intros x [Hx|Hx].
    - simpl in Hx. subst. now destruct (str_lt_eqb _ _ Hlt).
    - unfold keys in Hx. apply in_map_iff in Hx as ([x' r'] & <- & Hin).
      unfold above in Hab. rewrite Forall_forall in Hab. specialize (Hab _ Hin).
      simpl in *. pose proof (str_cmp_lt_trans _ _ _ Hlt Hab) as H.
      now destruct (str_lt_eqb _ _ H). }
  split; intros (x & Hin & Hnone); exists x; (split; [exact Hin|]).
  - simpl in Hnone. now rewrite (Hne x Hin) in Hnone.
  - simpl. now rewrite (Hne x Hin).
Qed.

(** The walk over the two maps, whatever the counter it starts with:
    a field of [j] absent from [i] leads to [return *this]. *)
Lemma walk_missing (i : RangeMap) :
  forall (j : RangeMap) (n : Z) (key : string),
    sorted_keys i -> sorted_keys j -> missing i j ->
    gives_this (minus_walk i j n key) = true.
Proof.
  induction i as [|[ki ri] i IH]; intros j n key Hsi Hsj Hm.
  - destruct Hm as (x & Hin & _). destruct j as [|[kj rj] j]; [contradiction|].
    simpl. destruct (n <? 2); reflexivity.
  - destruct (sorted_above _ _ _ Hsi) as [Habi Hsi'].
    destruct j as [|[kj rj] j].
    + destruct Hm as (x & [] & _).
    + destruct (sorted_above _ _ _ Hsj) as [Habj Hsj'].
      simpl. destruct (n <? 2); [|reflexivity].
      destruct (String.compare ki kj) eqn:E.
      * apply str_cmp_eq in E. subst kj.
        apply missing_shared in Hm; [|exact Habj].
        destruct (FieldRange_le ri rj); apply IH; assumption.
      * apply IH; try assumption.
        now apply (missing_skip_l ki ri i kj rj j E Habj).
      * reflexivity.
Qed.

(** When every field of [j] is in [i], the walk counts the unincluded
    fields of what it has left to visit, up to two. *)
Lemma walk_counts (i : RangeMap) :
  forall (j : RangeMap) (n : Z) (key : string),
    sorted_keys i -> sorted_keys j -> ~ missing i j -> 0 <= n ->
    let u := unincluded i j in
    (2 <= n + Z.of_nat (List.length u) ->
     gives_this (minus_walk i j n key) = true) /\
    (n + Z.of_nat (List.length u) < 2 ->
     minus_walk i j n key =
     LoopDone (n + Z.of_nat (List.length u)) (last u key) []).
Proof.
  induction i as [|[ki ri] i IH]; intros j n key Hsi Hsj Hm Hn u.
  - assert (j = []) as ->.
    { destruct j as [|[kj rj] j]; [reflexivity|]. exfalso. apply Hm.
      exists kj. split; [now left|reflexivity]. }
    subst u. simpl. split.
    + intros H. assert (E : (n <? 2) = false) by (apply Z.ltb_ge; lia).
      rewrite E. apply Z.gtb_lt. lia.
    + intros H. assert (E : (n <? 2) = true) by (apply Z.ltb_lt; lia).
      rewrite E, Z.add_0_r. reflexivity.
  - destruct (sorted_above _ _ _ Hsi) as [Habi Hsi'].
    destruct j as [|[kj rj] j].
    + subst u. rewrite unincluded_nil_r. simpl. split.
      * intros H. assert (E : (n <? 2) = false) by (apply Z.ltb_ge; lia).
        rewrite E. apply Z.gtb_lt. lia.
      * intros H. assert (E : (n <? 2) = true) by (apply Z.ltb_lt; lia).
        rewrite E, Z.add_0_r. reflexivity.
    + destruct (sorted_above _ _ _ Hsj) as [Habj Hsj'].
      simpl minus_walk.
      destruct (String.compare ki kj) eqn:E.
      * apply str_cmp_eq in E. subst kj.
        assert (Hm' : ~ missing i j).
        { intros H. apply Hm. now apply missing_shared. }
        subst u. rewrite (unincluded_shared ki ri rj i j Habi).
        destruct (n <? 2) eqn:En.
        -- apply Z.ltb_lt in En.
           destruct (FieldRange_le ri rj).
           ++ simpl app. apply IH; assumption.
           ++ destruct (IH j (n + 1) ki Hsi' Hsj' Hm' ltac:(lia)) as [IH1 IH2].
              simpl app. cbn [List.length]. split.
              ** intros H. apply IH1. lia.
              ** intros H. rewrite IH2 by lia. f_equal; [lia|].
                 destruct (unincluded i j); [reflexivity|].
                 cbn [List.length] in H. lia.
        -- apply Z.ltb_ge in En. split; [|lia].
           intros _. reflexivity.
      * assert (Hm' : ~ missing i ((kj, rj) :: j)).
        { intros H. apply Hm. now apply (missing_skip_l ki ri i kj rj j E Habj). }
        assert (Hnone : map_find ki ((kj, rj) :: j) = None).
        { apply above_find_none. constructor; [exact E|].
          eapply above_trans; eassumption. }
        subst u. rewrite (unincluded_skip_l ki ri i _ Hnone).
        destruct (n <? 2) eqn:En.
        -- apply IH; assumption.
        -- apply Z.ltb_ge in En. split; [|lia]. intros _. reflexivity.
      * exfalso. apply Hm. exists kj. split; [now left|].
        apply above_find_none. apply str_cmp_gt_lt in E.
        constructor; [exact E|]. eapply above_trans; eassumption.
Qed.

Lemma minus_gives_this (a b : FieldRangeSet) :
  gives_this (minus_walk (_ranges a) (_ranges b) 0 EmptyString) = true ->
  FieldRangeSet_minus a b = a.
Proof.
  unfold FieldRangeSet_minus.
  destruct (minus_walk _ _ _ _) as [|n key j]; [reflexivity|].
  destruct j; [|reflexivity]. simpl. intros ->. reflexivity.
Qed.

Lemma unincluded_in (k : string) (a b : RangeMap) :
  In k (unincluded a b) <->
  exists ra rb, In (k, ra) a /\ map_find k b = Some rb /\ FieldRange_le ra rb = false.
Proof.
  unfold unincluded, keys. rewrite in_map_iff. split.
  - intros ([k' ra] & <- & Hin). apply filter_In in Hin as [Hin Hf].
    cbn [fst snd] in *. destruct (map_find k' b) as [rb|]; [|discriminate].
    exists ra, rb. apply negb_true_iff in Hf. auto.
  - intros (ra & rb & Hin & Hb & Hle). exists (k, ra). split; [reflexivity|].
    apply filter_In. split; [exact Hin|]. cbn [fst snd]. now rewrite Hb, Hle.
Qed.

Lemma map_set_present (k : string) (v ra : FieldRange) (m : RangeMap) :
  sorted_keys m -> map_find k m = Some ra ->
  map_set k v m = map (fun kr => if String.eqb (fst kr) k then (k, v) else kr) m.
Proof.
  induction m as [|[k' r'] m IH]; intros Hs Hf; [discriminate|].
  destruct (sorted_above _ _ _ Hs) as [Hab Hs'].
  cbn [map_set map fst]. cbn [map_find] in Hf.
  destruct (String.compare k k') eqn:E.
  - apply str_cmp_eq in E. subst k'. rewrite String.eqb_refl. f_equal.
    rewrite <- (map_id m) at 1. apply map_ext_in. intros [x rx] Hin.
    unfold above in Hab. rewrite Forall_forall in Hab. specialize (Hab _ Hin).
    cbn [fst] in *. now destruct (str_lt_eqb _ _ Hab) as [_ ->].
  - exfalso. destruct (str_lt_eqb _ _ E) as [E1 _]. rewrite E1 in Hf.
    rewrite (above_find_none k m) in Hf; [discriminate|].
    eapply above_trans; eassumption.
  - apply str_cmp_gt_lt in E. destruct (str_lt_eqb _ _ E) as [E1 E2].
    rewrite E2 in Hf. rewrite E1. f_equal. auto.
Qed.

Lemma matchPossible_emptied (m : RangeMap) :
  matchPossible_loop (map (fun kr => (fst kr, makeEmpty (snd kr))) m) = false <-> m <> [].
Proof.
  destruct m as [|[k r] m]; simpl; split; congruence.
Qed.

Lemma forallb_false_exists {A : Type} (f : A -> bool) (l : list A) :
  forallb f l = false -> exists x, In x l /\ f x = false.
Proof.
  induction l as [|x l IH]; simpl; [discriminate|].
  destruct (f x) eqn:E; simpl.
  - intros H. destruct (IH H) as (y & Hin & Hy). exists y. auto.
  - intros _. exists x. auto.
Qed.

Section Soundness.

(** What the out-of-line [operator<=] and [operator-=] of [FieldRange]
    are documented to compute, in terms of the values a range contains. *)
Hypothesis le_sound : forall x y,
    FieldRange_le x y = true ->
    forall e, range_contains x e = true -> range_contains y e = true.
Hypothesis minus_sound : forall x y e,
    range_contains x e = true -> range_contains y e = false ->
    range_contains (FieldRange_minus x y) e = true.

Lemma le_admits (x y : FieldRange) (doc : Document) (k : string) :
  FieldRange_le x y = true -> range_admits x doc k = true -> range_admits y doc k = true.
Proof.
  unfold range_admits. intros Hle H. apply existsb_exists in H as (e & Hin & He).
  apply existsb_exists. exists e. split; [exact Hin|]. eapply le_sound; eassumption.
Qed.

Lemma minus_admits (x y : FieldRange) (doc : Document) (k : string) :
  range_admits x doc k = true -> range_admits y doc k = false ->
  range_admits (FieldRange_minus x y) doc k = true.
Proof.
  unfold range_admits. intros Hx Hy. apply existsb_exists in Hx as (e & Hin & He).
  apply existsb_exists. exists e. split; [exact Hin|]. apply minus_sound; [exact He|].
  destruct (range_contains y e) eqn:E; [|reflexivity].
  assert (existsb (range_contains y) (doc k) = true)
    by (apply existsb_exists; eauto).
  congruence.
Qed.

(** A document that [a] admits and [b] does not is rejected by [b] on an
    unincluded field. *)
Lemma rejected_on_unincluded (a b : RangeMap) (doc : Document) :
  sorted_keys a -> sorted_keys b -> ~ missing a b ->
  forallb (fun kr => range_admits (snd kr) doc (fst kr)) a = true ->
  forallb (fun kr => range_admits (snd kr) doc (fst kr)) b = false ->
  exists k ra rb,
    In k (unincluded a b) /\ map_find k a = Some ra /\ map_find k b = Some rb /\
    range_admits ra doc k = true /\ range_admits rb doc k = false.
Proof.
  intros Hsa Hsb Hm Ha Hb.
  apply forallb_false_exists in Hb as ([k rb] & Hin & Hrej). cbn [fst snd] in Hrej.
  destruct (map_find k a) as [ra|] eqn:Hfa.
  - rewrite forallb_forall in Ha. pose proof (Ha _ (find_in _ _ _ Hfa)) as Hadm.
    cbn [fst snd] in Hadm.
    pose proof (in_find _ _ _ Hsb Hin) as Hfb.
    exists k, ra, rb. repeat split; try assumption.
    destruct (FieldRange_le ra rb) eqn:Hle.
    + rewrite (le_admits ra rb doc k Hle Hadm) in Hrej. discriminate.
    + apply unincluded_in. exists ra, rb. split; [now apply find_in|auto].
  - exfalso. apply Hm. exists k. split; [|exact Hfa].
    unfold keys. apply in_map_iff. exists (k, rb). auto.
Qed.

Lemma minus_superset (a b : FieldRangeSet) (doc : Document) :
  sorted_keys (_ranges a) -> sorted_keys (_ranges b) ->
  set_admits a doc = true -> set_admits b doc = false ->
  set_admits (FieldRangeSet_minus a b) doc = true.
Proof.
  intros Hsa Hsb Ha Hb.
  destruct (gives_this (minus_walk (_ranges a) (_ranges b) 0 EmptyString)) eqn:Hg.
  { now rewrite (minus_gives_this a b Hg). }
  assert (Hm : ~ missing (_ranges a) (_ranges b)).
  { intros H. rewrite (walk_missing _ _ 0 EmptyString Hsa Hsb H) in Hg. discriminate. }
  destruct (walk_counts _ _ 0 EmptyString Hsa Hsb Hm ltac:(lia)) as [W1 W2].
  cbv zeta in W1, W2.
  destruct (rejected_on_unincluded _ _ doc Hsa Hsb Hm Ha Hb)
    as (k & ra & rb & Hu & Hfa & Hfb & Hadm & Hrej).
  destruct (unincluded (_ranges a) (_ranges b)) as [|k0 [|k1 u]] eqn:Eu.
  - contradiction.
  - destruct Hu as [->|[]].
    unfold FieldRangeSet_minus. rewrite W2 by (simpl; lia).
    cbn [List.length last Z.of_nat Pos.of_succ_nat Z.add Z.gtb Z.compare Pos.compare
         Pos.compare_cont Z.eqb].
    unfold map_subscript. rewrite Hfa, Hfb.
    unfold set_admits, appendQueries. cbn [_ranges].
    rewrite (map_set_present k _ ra _ Hsa Hfa).
    apply forallb_forall. intros [x rx] Hin. apply in_map_iff in Hin as ([y ry] & Hy & Hin).
    cbn [fst snd] in *.
    destruct (String.eqb y k) eqn:E.
    + injection Hy as <- <-. cbn [fst snd]. now apply minus_admits.
    + injection Hy as <- <-. unfold set_admits in Ha. rewrite forallb_forall in Ha.
      apply (Ha _ Hin).
  - rewrite W1 in Hg; [discriminate|]. cbn [List.length]. lia.
Qed.

End Soundness.

(** C2.  For two sets whose maps are ordered by key, [a -= b] is [a]
    itself when [b] constrains a field that [a] does not, and otherwise
    follows the number of shared fields on which [a]'s range is not a
    subset of [b]'s: two or more, [a] itself; none, every range of [a]
    emptied, which makes [a] unsatisfiable as soon as it has a range;
    exactly one, that field's range replaced by its difference with [b]'s
    and every other entry kept, with [b]'s queries appended.  Whenever the
    subset test and the difference of ranges are sound for the values a
    range contains, every document that [a] admits and [b] does not is
    admitted by the result. *)
Theorem C2_set_difference (a b : FieldRangeSet) :
  sorted_keys (_ranges a) -> sorted_keys (_ranges b) ->
  let d := FieldRangeSet_minus a b in
  let u := unincluded (_ranges a) (_ranges b) in
  (missing (_ranges a) (_ranges b) -> d = a) /\
  (~ missing (_ranges a) (_ranges b) ->
   ((2 <= List.length u)%nat -> d = a) /\
   (u = [] ->
    d = FieldRangeSet_makeEmpty a /\
    keys (_ranges d) = keys (_ranges a) /\
    Forall (fun kr => empty (snd kr) = true) (_ranges d) /\
    (matchPossible d = false <-> _ranges a <> [])) /\
   (forall k, u = [k] ->
    exists ra rb,
      map_find k (_ranges a) = Some ra /\ map_find k (_ranges b) = Some rb /\
      FieldRange_le ra rb = false /\
      _ranges d = map (fun kr => if String.eqb (fst kr) k
                                 then (k, FieldRange_minus ra rb) else kr) (_ranges a) /\
      _ns d = _ns a /\ _queries d = _queries a ++ _queries b)) /\
  ((forall x y, FieldRange_le x y = true ->
                forall e, range_contains x e = true -> range_contains y e = true) ->
   (forall x y e, range_contains x e = true -> range_contains y e = false ->
                  range_contains (FieldRange_minus x y) e = true) ->
   forall doc, set_admits a doc = true -> set_admits b doc = false ->
               set_admits d doc = true).
Proof.
  intros Hsa Hsb d u. split; [|split].
  - intros Hm. apply minus_gives_this. now apply walk_missing.
  - intros Hm.
    destruct (walk_counts _ _ 0 EmptyString Hsa Hsb Hm ltac:(lia)) as [W1 W2].
    cbv zeta in W1, W2. fold u in W1, W2. split; [|split].
    + intros H. apply minus_gives_this. apply W1. lia.
    + intros Hu. rewrite Hu in W2.
      assert (Hd : d = FieldRangeSet_makeEmpty a).
      { subst d. unfold FieldRangeSet_minus. rewrite W2 by (simpl; lia). reflexivity. }
      rewrite Hd. unfold FieldRangeSet_makeEmpty, matchPossible, keys. cbn [_ranges].
      split; [reflexivity|]. split; [|split].
      * rewrite map_map. apply map_ext. intros []. reflexivity.
      * apply Forall_forall. intros kr Hin. apply in_map_iff in Hin as (x & <- & _).
        reflexivity.
      * apply matchPossible_emptied.
    + intros k Hu. rewrite Hu in W2.
      assert (Hin : In k (unincluded (_ranges a) (_ranges b))) by (fold u; rewrite Hu; now left).
      apply unincluded_in in Hin as (ra & rb & Hina & Hfb & Hle).
      pose proof (in_find _ _ _ Hsa Hina) as Hfa.
      exists ra, rb. split; [exact Hfa|]. split; [exact Hfb|]. split; [exact Hle|].
      subst d. unfold FieldRangeSet_minus. rewrite W2 by (simpl; lia).
      cbn [List.length last Z.of_nat Pos.of_succ_nat Z.add Z.gtb Z.compare Pos.compare
           Pos.compare_cont Z.eqb].
      unfold map_subscript. rewrite Hfa, Hfb. unfold appendQueries. cbn [_ranges _ns _queries].
      rewrite (map_set_present k _ ra _ Hsa Hfa). auto.
  - intros Hle Hminus doc. apply minus_superset; assumption.
Qed.

End SetProperties.

(** ** FieldRangeVector *)

Lemma wrap_long_long_small (z : Z) :
  - 2 ^ 63 <= z < 2 ^ 63 -> wrap_long_long z = z.
Proof.
  intros H. unfold wrap_long_long. rewrite Z.mod_small; lia.
Qed.

Lemma wrap_long_long_mul (x n : Z) :
  wrap_long_long (wrap_long_long x * n) = wrap_long_long (x * n).
Proof.
  unfold wrap_long_long. f_equal.
  rewrite (Z.mod_eq (x + 2 ^ 63) (2 ^ 64)) by lia.
  replace ((x + 2 ^ 63 - 2 ^ 64 * ((x + 2 ^ 63) / 2 ^ 64) - 2 ^ 63) * n + 2 ^ 63)
    with (x * n + 2 ^ 63 + (- ((x + 2 ^ 63) / 2 ^ 64) * n) * 2 ^ 64) by ring.
  apply Z_mod_plus_full.
Qed.

Section VectorProperties.

Context {M : BSONModel} {Ops : @FieldRangeOps M}.

Lemma size_loop_product (ranges : list FieldRange) (x : Z) :
  size_loop ranges (wrap_long_long x) = wrap_long_long (x * product ranges).
Proof.
  revert x. induction ranges as [|r ranges IH]; intros x; simpl.
  - now rewrite Z.mul_1_r.
  - rewrite wrap_long_long_mul, IH. f_equal. unfold interval_count. ring.
Qed.

Lemma size_product (v : FieldRangeVector) :
  size v = wrap_long_long (product (v_ranges v)).
Proof.
  unfold size. change 1 with (wrap_long_long 1) at 1.
  rewrite size_loop_product. f_equal. ring.
Qed.

Lemma product_pos (ranges : list FieldRange) :
  Forall (fun r => empty r = false) ranges -> 1 <= product ranges.
Proof.
  induction 1 as [|r ranges Hr _ IH]; simpl; [lia|].
  unfold interval_count, empty in *. destruct (_intervals r); [discriminate|].
  cbn [List.length]. nia.
Qed.

Lemma fill_step (g : Globals) (frs : FieldRangeSet) (direction : Z)
      (kp : string * Z) (kps : list (string * Z)) (acc : list FieldRange) :
  FieldRangeVector_fill g frs direction (kp :: kps) acc =
  (pushed <- projected g frs direction kp ;;
   _ <- assert (negb (empty pushed)) nonempty_assertion ;;
   FieldRangeVector_fill g frs direction kps (acc ++ [pushed])).
Proof. destruct kp. reflexivity. Qed.

(** What [projected] yields has as many intervals as the range read. *)
Lemma projected_count (g : Globals) (frs : FieldRangeSet) (direction : Z)
      (kp : string * Z) (r : FieldRange) :
  projected g frs direction kp = Ok r ->
  interval_count r = interval_count (field_range g frs kp).
Proof.
  unfold projected. destruct (is_forward direction kp).
  - now intros [= <-].
  - intros H. apply reverse_intervals in H as (Hi & _ & _).
    unfold interval_count. now rewrite Hi, length_map, length_rev.
Qed.

Lemma projected_empty (g : Globals) (frs : FieldRangeSet) (direction : Z)
      (kp : string * Z) (r : FieldRange) :
  projected g frs direction kp = Ok r ->
  empty r = empty (field_range g frs kp).
Proof.
  intros H. apply projected_count in H. unfold interval_count, empty in *.
  destruct (_intervals r), (_intervals (field_range g frs kp));
    try reflexivity; discriminate.
Qed.

Lemma projected_throws (g : Globals) (frs : FieldRangeSet) (direction : Z)
      (kp : string * Z) (e : Exception) :
  projected g frs direction kp = Thrown e ->
  e = AssertionFailed "_special.empty()" /\ is_forward direction kp = false /\
  _special (field_range g frs kp) <> EmptyString.
Proof.
  unfold projected. destruct (is_forward direction kp); [discriminate|].
  unfold reverse, assert.
  destruct (string_empty (_special (field_range g frs kp))) eqn:E; simpl; [discriminate|].
  intros [= <-]. repeat split. intros H. rewrite H in E. discriminate.
Qed.

(** A run of the loop that ends normally has pushed, for each element of
    the key pattern in order, a nonempty range. *)
Lemma fill_ok_inv (g : Globals) (frs : FieldRangeSet) (direction : Z)
      (kps : list (string * Z)) :
  forall acc ranges,
    FieldRangeVector_fill g frs direction kps acc = Ok ranges ->
    exists pushed,
      ranges = acc ++ pushed /\
      Forall2 (fun kp r => projected g frs direction kp = Ok r /\ empty r = false)
              kps pushed.
Proof.
  induction kps as [|kp kps IH]; intros acc ranges H.
  - simpl in H. injection H as <-. exists []. rewrite app_nil_r. auto.
  - rewrite fill_step in H.
    destruct (projected g frs direction kp) as [r|e] eqn:Hp; [|discriminate].
    cbn [bind] in H. unfold assert in H.
    destruct (empty r) eqn:He; [discriminate|]. cbn [negb bind] in H.
    destruct (IH _ _ H) as (pushed & -> & HF).
    exists (r :: pushed). rewrite <- app_assoc. split; [reflexivity|].
    constructor; auto.
Qed.

(** It fails on the first field whose range is empty or, read in
    reverse, carries a special tag. *)
Lemma fill_empty_throws (g : Globals) (frs : FieldRangeSet) (direction : Z)
      (kps : list (string * Z)) :
  forall acc,
    Exists (fun kp => empty (field_range g frs kp) = true) kps ->
    exists expr,
      FieldRangeVector_fill g frs direction kps acc = Thrown (AssertionFailed expr).
Proof.
  induction kps as [|kp kps IH]; intros acc Hex; [inversion Hex|].
  rewrite fill_step.
  destruct (projected g frs direction kp) as [r|e] eqn:Hp.
  - cbn [bind]. unfold assert. rewrite (projected_empty _ _ _ _ _ Hp).
    destruct (empty (field_range g frs kp)) eqn:He; cbn [negb bind].
    + eauto.
    + apply IH. inversion Hex; subst; [congruence|assumption].
  - apply projected_throws in Hp as (-> & _). cbn [bind]. eauto.
Qed.

Lemma fill_runs (g : Globals) (frs : FieldRangeSet) (direction : Z)
      (kps : list (string * Z)) :
  forall acc,
    Forall (fun kp => empty (field_range g frs kp) = false /\
                      (is_forward direction kp = false ->
                       _special (field_range g frs kp) = EmptyString)) kps ->
    exists ranges, FieldRangeVector_fill g frs direction kps acc = Ok ranges.
Proof.
  induction kps as [|kp kps IH]; intros acc HF; [simpl; eauto|].
  inversion HF as [|? ? [He Hs] HF']; subst.
  rewrite fill_step.
  destruct (projected g frs direction kp) as [r|e] eqn:Hp.
  - cbn [bind]. unfold assert. rewrite (projected_empty _ _ _ _ _ Hp), He.
    cbn [negb bind]. apply IH. exact HF'.
  - apply projected_throws in Hp as (_ & Hf & Hne). exfalso. auto.
Qed.

Lemma pushed_product (g : Globals) (frs : FieldRangeSet) (direction : Z)
      (kps : list (string * Z)) (pushed : list FieldRange) :
  Forall2 (fun kp r => projected g frs direction kp = Ok r /\ empty r = false) kps pushed ->
  product pushed = product (map (field_range g frs) kps) /\
  Forall (fun r => empty r = false) pushed.
Proof.
  induction 1 as [|kp r kps pushed [Hp He] _ [IH1 IH2]]; simpl; [auto|].
  rewrite IH1, (projected_count _ _ _ _ _ Hp). auto.
Qed.

(** The constructor, once the loop has ended normally. *)
Lemma new_after_fill (g : Globals) (frs : FieldRangeSet) (indexSpec : IndexSpec)
      (direction : Z) (ranges : list FieldRange) :
  FieldRangeVector_fill g frs direction (keyPattern indexSpec) [] = Ok ranges ->
  let v := mkFieldRangeVector ranges indexSpec (sign direction) (_queries frs) in
  FieldRangeVector_new g frs indexSpec direction =
  if size v <? 1000000 then Ok v else Thrown (UserAssertion 13385 limit_message).
Proof.
  intros H v. unfold FieldRangeVector_new. rewrite H. cbn [bind]. fold v.
  unfold uassert. destruct (size v <? 1000000); reflexivity.
Qed.

Lemma new_ok_inv (g : Globals) (frs : FieldRangeSet) (indexSpec : IndexSpec)
      (direction : Z) (v : FieldRangeVector) :
  FieldRangeVector_new g frs indexSpec direction = Ok v ->
  Forall2 (fun kp r => projected g frs direction kp = Ok r /\ empty r = false)
          (keyPattern indexSpec) (v_ranges v) /\
  size v < 1000000.
Proof.
  unfold FieldRangeVector_new.
  destruct (FieldRangeVector_fill g frs direction (keyPattern indexSpec) []) as [ranges|e] eqn:Hf;
    [|discriminate].
  cbn [bind]. unfold uassert.
  destruct (size _ <? 1000000) eqn:Hs; [|discriminate].
  cbn [bind]. intros [= <-]. cbn [v_ranges].
  apply fill_ok_inv in Hf as (pushed & -> & HF). split; [exact HF|].
  now apply Z.ltb_lt in Hs.
Qed.

Lemma startKey_loop_spec (ranges : list FieldRange) :
  forall b, Forall (fun r => empty r = false) ranges ->
  exists ks, startKey_loop ranges b = Some (b ++ ks) /\
             Forall2 (fun r e => exists fi rest,
                          _intervals r = fi :: rest /\ e = _bound (_lower fi)) ranges ks.
Proof.
  induction ranges as [|r ranges IH]; intros b HF.
  - exists []. rewrite app_nil_r. simpl. auto.
  - inversion HF as [|? ? He HF']; subst. simpl.
    unfold empty in He. destruct (_intervals r) as [|fi rest] eqn:Hi; [discriminate|].
    simpl. destruct (IH (b ++ [_bound (_lower fi)]) HF') as (ks & -> & H2).
    exists (_bound (_lower fi) :: ks). rewrite <- app_assoc. split; [reflexivity|].
    constructor; eauto.
Qed.

Lemma endKey_loop_spec (ranges : list FieldRange) :
  forall b, Forall (fun r => empty r = false) ranges ->
  exists ks, endKey_loop ranges b = Some (b ++ ks) /\
             Forall2 (fun r e => exists init fi,
                          _intervals r = init ++ [fi] /\ e = _bound (_upper fi)) ranges ks.
Proof.
  induction ranges as [|r ranges IH]; intros b HF.
  - exists []. rewrite app_nil_r. simpl. auto.
  - inversion HF as [|? ? He HF']; subst. simpl.
    unfold empty in He. destruct (_intervals r) as [|fi rest] eqn:Hi; [discriminate|].
    destruct (back_cons_some fi rest) as [fl Hb]. rewrite Hb.
    destruct (IH (b ++ [_bound (_upper fl)]) HF') as (ks & -> & H2).
    exists (_bound (_upper fl) :: ks). rewrite <- app_assoc. split; [reflexivity|].
    constructor; [|exact H2].
    destruct (back_some_inv _ _ Hb) as [init Hinit].
    exists init, fl. split; [congruence|reflexivity].
Qed.

End VectorProperties.

(** ** The odometer *)

Lemma fill_from_zero (x : Z) (l : list Z) : fill_from 0 x l = map (fun _ => x) l.
Proof. induction l as [|y l IH]; simpl; [reflexivity|now rewrite IH]. Qed.

Lemma scan_counts_cons (c : Z) (cs : list Z) (x : Z) (xs : list Z) (k : nat) :
  scan_counts (c :: cs) (x :: xs) (S k) =
  match scan_counts cs xs k with
  | Some (Some i) => Some (Some (S i))
  | Some None => if x >=? c - 1 then Some None else Some (Some O)
  | None => None
  end.
Proof.
  induction k as [|k IH].
  - reflexivity.
  - change (scan_counts (c :: cs) (x :: xs) (S (S k))) with
      (match nth_error xs k, nth_error cs k with
       | Some y, Some n =>
           if y >=? n - 1 then scan_counts (c :: cs) (x :: xs) (S k) else Some (Some (S k))
       | _, _ => None
       end).
    cbn [scan_counts].
    destruct (nth_error xs k) as [y|]; [|reflexivity].
    destruct (nth_error cs k) as [n|]; [|reflexivity].
    destruct (y >=? n - 1); [exact IH|reflexivity].
Qed.

Lemma scan_odometer (cs : list Z) :
  forall idx, List.length idx = List.length cs ->
  match scan_counts cs idx (List.length idx) with
  | Some (Some i) =>
      exists x, nth_error idx i = Some x /\
                odometer_step cs idx = Some (fill_from (S i) 0 (store_at i (x + 1) idx))
  | Some None => odometer_step cs idx = None
  | None => False
  end.
Proof.
  induction cs as [|c cs IH]; intros [|x xs] Hlen; try discriminate.
  - reflexivity.
  - cbn [List.length]. rewrite scan_counts_cons.
    injection Hlen as Hlen. specialize (IH xs Hlen).
    destruct (scan_counts cs xs (List.length xs)) as [[i|]|]; [| |contradiction].
    + destruct IH as (y & Hy & Ho). exists y. split; [exact Hy|].
      cbn [odometer_step]. rewrite Ho. reflexivity.
    + cbn [odometer_step]. rewrite IH. rewrite Z.geb_leb.
      destruct (Z.leb_spec (c - 1) x) as [H|H].
      * destruct (Z.ltb_spec x (c - 1)); [lia|reflexivity].
      * exists x. split; [reflexivity|].
        destruct (Z.ltb_spec x (c - 1)); [|lia].
        cbn [store_at fill_from]. now rewrite fill_from_zero.
Qed.

Lemma in_bounds_pos (cs idx : list Z) :
  in_bounds cs idx -> Forall (fun c => 1 <= c) cs.
Proof. induction 1; constructor; [lia|assumption]. Qed.

Lemma product_of_pos (cs : list Z) :
  Forall (fun c => 1 <= c) cs -> 1 <= product_of cs.
Proof. induction 1 as [|c cs Hc _ IH]; simpl; [lia|nia]. Qed.

Lemma value_bounds (cs idx : list Z) :
  in_bounds cs idx -> 0 <= position_value cs idx < product_of cs.
Proof.
  induction 1 as [|c x cs xs Hx HF IH]; simpl; [lia|].
  pose proof (product_of_pos cs (in_bounds_pos _ _ HF)). nia.
Qed.

Lemma value_zeros (cs : list Z) (l : list Z) :
  position_value cs (map (fun _ => 0) l) = 0.
Proof.
  revert l. induction cs as [|c cs IH]; intros [|y l]; simpl; try reflexivity.
  rewrite IH. lia.
Qed.

Lemma in_bounds_zeros (cs : list Z) :
  Forall (fun c => 1 <= c) cs -> in_bounds cs (map (fun _ => 0) cs).
Proof. induction 1; simpl; constructor; [lia|assumption]. Qed.

Lemma in_bounds_length (cs idx : list Z) :
  in_bounds cs idx -> List.length idx = List.length cs.
Proof. induction 1; simpl; congruence. Qed.

Lemma odometer_none (cs idx : list Z) :
  in_bounds cs idx -> odometer_step cs idx = None ->
  position_value cs idx = product_of cs - 1 /\ idx = map (fun c => c - 1) cs.
Proof.
  induction 1 as [|c x cs xs Hx HF IH]; simpl; [intros _; split; [lia|reflexivity]|].
  destruct (odometer_step cs xs); [discriminate|].
  destruct (Z.ltb_spec x (c - 1)); [discriminate|]. intros _.
  assert (x = c - 1) as -> by lia.
  destruct (IH eq_refl) as [Hv Hmax]. rewrite Hv, <- Hmax. split; [ring|reflexivity].
Qed.

Lemma odometer_some (cs idx idx' : list Z) :
  in_bounds cs idx -> odometer_step cs idx = Some idx' ->
  in_bounds cs idx' /\ position_value cs idx' = position_value cs idx + 1.
Proof.
  intros H. revert idx'. induction H as [|c x cs xs Hx HF IH]; intros idx'; simpl;
    [discriminate|].
  destruct (odometer_step cs xs) as [xs'|] eqn:Ho.
  - intros [= <-]. destruct (IH _ eq_refl) as [Hb Hv]. split.
    + constructor; assumption.
    + simpl. rewrite Hv. lia.
  - destruct (Z.ltb_spec x (c - 1)); [|discriminate]. intros [= <-].
    destruct (odometer_none _ _ HF Ho) as [Hv Hmax]. split.
    + constructor; [lia|].
      replace (map (fun _ : Z => 0) xs) with (map (fun _ : Z => 0) cs).
      * apply in_bounds_zeros. eapply in_bounds_pos; eassumption.
      * rewrite Hmax, map_map. reflexivity.
    + simpl. rewrite value_zeros, Hv. lia.
Qed.

Lemma lex_value (cs a b : list Z) :
  in_bounds cs a -> in_bounds cs b ->
  (lex_lt a b <-> position_value cs a < position_value cs b).
Proof.
  intros Ha. revert b. induction Ha as [|c x cs xs Hx HF IH]; intros b Hb.
  - inversion Hb; subst. simpl. lia.
  - inversion Hb as [|? y ? ys Hy HF']; subst. simpl.
    pose proof (value_bounds _ _ HF) as B1. pose proof (value_bounds _ _ HF') as B2.
    rewrite (IH ys HF'). split.
    + intros [H|[-> H]]; nia.
    + intros H. destruct (Z.lt_trichotomy x y) as [L|[E|G]].
      * now left.
      * subst. right. split; [reflexivity|lia].
      * exfalso. nia.
Qed.

Lemma value_inj (cs a b : list Z) :
  in_bounds cs a -> in_bounds cs b ->
  position_value cs a = position_value cs b -> a = b.
Proof.
  intros Ha. revert b. induction Ha as [|c x cs xs Hx HF IH]; intros b Hb.
  - inversion Hb; subst. reflexivity.
  - inversion Hb as [|? y ? ys Hy HF']; subst. simpl.
    pose proof (value_bounds _ _ HF) as B1. pose proof (value_bounds _ _ HF') as B2.
    intros H. assert (x = y) by nia. subst y. f_equal. apply IH; [assumption|lia].
Qed.

Lemma odometer_max (cs : list Z) :
  odometer_step cs (map (fun c => c - 1) cs) = None.
Proof.
  induction cs as [|c cs IH]; simpl; [reflexivity|]. rewrite IH.
  destruct (Z.ltb_spec (c - 1) (c - 1)); [lia|reflexivity].
Qed.

Lemma fill_from_length (k : nat) (x : Z) (l : list Z) :
  List.length (fill_from k x l) = List.length l.
Proof.
  revert k. induction l as [|y l IH]; intros [|k]; simpl; try reflexivity;
    now rewrite IH.
Qed.

Lemma store_at_length (i : nat) (x : Z) (l : list Z) :
  List.length (store_at i x l) = List.length l.
Proof.
  revert i. induction l as [|y l IH]; intros [|i]; simpl; try reflexivity.
  now rewrite IH.
Qed.

Lemma to_int_small (z : Z) : 0 <= z < 2 ^ 31 -> to_int z = z.
Proof. intros H. unfold to_int. rewrite Z.mod_small; lia. Qed.

Section IteratorProperties.

Context {M : BSONModel}.

Lemma product_counts (ranges : list FieldRange) :
  product ranges = product_of (map interval_count ranges).
Proof. induction ranges as [|r ranges IH]; simpl; [reflexivity|now rewrite IH]. Qed.

Lemma nIntervals_counts (v : FieldRangeVector) (i : nat) :
  counts_fit v -> nIntervals v i = nth_error (interval_counts v) i.
Proof.
  intros Hfit. unfold nIntervals, interval_counts. rewrite nth_error_map.
  destruct (nth_error (v_ranges v) i) as [r|] eqn:E; [|reflexivity].
  cbn [option_map]. f_equal. apply to_int_small.
  unfold counts_fit, interval_counts in Hfit. rewrite Forall_forall in Hfit.
  assert (H : 1 <= interval_count r < 2 ^ 31).
  { apply Hfit. apply in_map. eapply nth_error_In; eassumption. }
  change (0 <= interval_count r < 2 ^ 31). lia.
Qed.

Lemma advance_scan_counts (v : FieldRangeVector) (idx : list Z) (k : nat) :
  counts_fit v -> advance_scan v idx k = scan_counts (interval_counts v) idx k.
Proof.
  intros Hfit. induction k as [|k IH]; [reflexivity|].
  cbn [advance_scan scan_counts]. rewrite (nIntervals_counts v k Hfit), IH. reflexivity.
Qed.

(** One call of [advance()] on an iterator with one position per field:
    the positions move as the odometer says, or, when the odometer has no
    next position, position 0 is set to the number of intervals of the
    first field; the value returned is [ok()] of the new positions. *)
Lemma advance_step (it : Iterator) :
  counts_fit (_v it) ->
  List.length (_i it) = List.length (interval_counts (_v it)) ->
  v_ranges (_v it) <> [] ->
  exists b idx',
    advance it = Some (b, mkIterator (_v it) idx' (_cmp it) (_inc it) (_after it)) /\
    ok (mkIterator (_v it) idx' (_cmp it) (_inc it) (_after it)) = Some b /\
    List.length idx' = List.length (_i it) /\
    match odometer_step (interval_counts (_v it)) (_i it) with
    | Some next => idx' = next
    | None => exists c cs, interval_counts (_v it) = c :: cs /\ idx' = store_at 0 c (_i it)
    end.
Proof.
  intros Hfit Hlen Hne.
  assert (Hc : exists c cs, interval_counts (_v it) = c :: cs).
  { unfold interval_counts. destruct (v_ranges (_v it)); [contradiction|].
    simpl. eauto. }
  destruct Hc as (c & cs & Hc).
  assert (Hok : forall idx', List.length idx' = List.length (_i it) ->
                exists b, ok (mkIterator (_v it) idx' (_cmp it) (_inc it) (_after it)) = Some b).
  { intros idx' Hl. unfold ok. cbn [_i _v]. rewrite (nIntervals_counts _ 0 Hfit), Hc.
    destruct idx' as [|x idx']; [rewrite Hlen, Hc in Hl; discriminate|].
    simpl. eauto. }
  unfold advance. rewrite (advance_scan_counts _ _ _ Hfit).
  pose proof (scan_odometer (interval_counts (_v it)) (_i it) Hlen) as Hs.
  destruct (scan_counts (interval_counts (_v it)) (_i it) (List.length (_i it)))
    as [[i|]|]; [| |contradiction].
  - destruct Hs as (x & Hx & Ho). rewrite Hx, Ho.
    set (idx' := fill_from (S i) 0 (store_at i (x + 1) (_i it))).
    assert (Hl : List.length idx' = List.length (_i it)).
    { subst idx'. now rewrite fill_from_length, store_at_length. }
    destruct (Hok idx' Hl) as [b Hb]. rewrite Hb. exists b, idx'. auto.
  - rewrite Hs. rewrite (nIntervals_counts _ 0 Hfit), Hc. cbn [nth_error].
    destruct (_i it) as [|x xs] eqn:Ei; [rewrite Hc in Hlen; discriminate|].
    set (idx' := store_at 0 c (x :: xs)).
    assert (Hl : List.length idx' = List.length (x :: xs)) by reflexivity.
    destruct (Hok idx' Hl) as [b Hb]. rewrite Hb. exists b, idx'.
    repeat split; try assumption. exists c, cs. auto.
Qed.


Lemma map_const_repeat {A : Type} (x : Z) (l : list A) :
  map (fun _ => x) l = repeat x (List.length l).
Proof. induction l as [|y l IH]; simpl; [reflexivity|now rewrite IH]. Qed.

Lemma zero_positions (v : FieldRangeVector) :
  _i (Iterator_zero v) = map (fun _ => 0) (interval_counts v).
Proof.
  unfold Iterator_zero, setZero, Iterator_new, interval_counts. cbn [_i].
  rewrite fill_from_zero, !map_const_repeat, repeat_length, length_map. reflexivity.
Qed.

Lemma counts_fit_pos (v : FieldRangeVector) :
  counts_fit v -> Forall (fun c => 1 <= c) (interval_counts v).
Proof.
  unfold counts_fit. apply Forall_impl. intros c H. lia.
Qed.

Lemma ok_in_bounds (it : Iterator) :
  counts_fit (_v it) -> v_ranges (_v it) <> [] ->
  in_bounds (interval_counts (_v it)) (_i it) -> ok it = Some true.
Proof.
  intros Hfit Hne Hb. unfold ok. rewrite (nIntervals_counts _ 0 Hfit).
  inversion Hb as [|c x cs xs Hx HF Hc Hi].
  - exfalso. apply Hne. unfold interval_counts in *.
    destruct (v_ranges (_v it)); [reflexivity|discriminate].
  - simpl. f_equal. apply Z.ltb_lt. lia.
Qed.

(** The positions reached after [k] calls from all zeros, as long as
    [k] is below the product of the interval counts: the vector of rank
    [k]. *)
Lemma run_value (v : FieldRangeVector) :
  counts_fit v -> v_ranges v <> [] ->
  forall k, Z.of_nat k < product (v_ranges v) ->
  exists it,
    advance_times k (Iterator_zero v) = Some it /\ _v it = v /\
    in_bounds (interval_counts v) (_i it) /\
    position_value (interval_counts v) (_i it) = Z.of_nat k.
Proof.
  intros Hfit Hne. induction k as [|k IH]; intros Hk.
  - exists (Iterator_zero v). split; [reflexivity|]. split; [reflexivity|].
    rewrite zero_positions. split.
    + apply in_bounds_zeros. now apply counts_fit_pos.
    + apply value_zeros.
  - destruct IH as (it & Hrun & Hv & Hb & Hval); [lia|].
    cbn [advance_times]. rewrite Hrun.
    assert (Hlen : List.length (_i it) = List.length (interval_counts (_v it))).
    { rewrite Hv. now apply in_bounds_length. }
    destruct (advance_step it ltac:(now rewrite Hv) Hlen ltac:(now rewrite Hv))
      as (b & idx' & Hadv & _ & _ & Hodo).
    rewrite Hadv. rewrite Hv in Hodo.
    eexists. split; [reflexivity|]. cbn [_v _i]. split; [exact Hv|].
    destruct (odometer_step (interval_counts v) (_i it)) as [next|] eqn:Ho.
    + subst idx'. destruct (odometer_some _ _ _ Hb Ho) as [Hb' Hval'].
      split; [exact Hb'|]. rewrite Hval', Hval. lia.
    + exfalso. destruct (odometer_none _ _ Hb Ho) as [Hmax _].
      rewrite product_counts in Hk. fold (interval_counts v) in Hk. lia.
Qed.

Lemma run_end (v : FieldRangeVector) :
  counts_fit v -> v_ranges v <> [] ->
  forall m,
  exists it,
    advance_times (Z.to_nat (product (v_ranges v)) + m) (Iterator_zero v) = Some it /\
    _v it = v /\ _i it = past_the_end (interval_counts v) /\ ok it = Some false.
Proof.
  intros Hfit Hne.
  pose proof (product_of_pos _ (counts_fit_pos v Hfit)) as Hpos.
  unfold interval_counts in Hpos. rewrite <- product_counts in Hpos.
  assert (Hc : exists c cs, interval_counts v = c :: cs).
  { unfold interval_counts. destruct (v_ranges v); [contradiction|]. simpl. eauto. }
  destruct Hc as (c & cs & Hc).
  assert (Hokf : forall it, _v it = v -> _i it = past_the_end (interval_counts v) ->
                            ok it = Some false).
  { intros it Hv Hi. unfold ok. rewrite Hv, (nIntervals_counts _ 0 Hfit), Hi, Hc.
    simpl. f_equal. apply Z.ltb_ge. lia. }
  induction m as [|m IH].
  - rewrite Nat.add_0_r.
    destruct (Z.to_nat (product (v_ranges v))) as [|k] eqn:Ek; [lia|].
    destruct (run_value v Hfit Hne k ltac:(lia)) as (it & Hrun & Hv & Hb & Hval).
    cbn [advance_times]. rewrite Hrun.
    assert (Hlen : List.length (_i it) = List.length (interval_counts (_v it))).
    { rewrite Hv. now apply in_bounds_length. }
    destruct (advance_step it ltac:(now rewrite Hv) Hlen ltac:(now rewrite Hv))
      as (b & idx' & Hadv & _ & _ & Hodo).
    rewrite Hadv. rewrite Hv in Hodo.
    destruct (odometer_step (interval_counts v) (_i it)) as [next|] eqn:Ho.
    + exfalso. subst idx'. destruct (odometer_some _ _ _ Hb Ho) as [Hb' Hval'].
      pose proof (value_bounds _ _ Hb') as B.
      rewrite product_counts in Ek. fold (interval_counts v) in Ek. lia.
    + destruct Hodo as (c' & cs' & Hc' & ->).
      destruct (odometer_none _ _ Hb Ho) as [_ Hmax].
      assert (Hpast : store_at 0 c' (_i it) = past_the_end (interval_counts v)).
      { rewrite Hmax, Hc'. reflexivity. }
      eexists. split; [reflexivity|]. cbn [_v _i]. split; [exact Hv|].
      split; [exact Hpast|]. apply Hokf; [exact Hv|exact Hpast].
  - destruct IH as (it & Hrun & Hv & Hi & _).
    rewrite <- plus_n_Sm. cbn [advance_times]. rewrite Hrun.
    assert (Hlen : List.length (_i it) = List.length (interval_counts (_v it))).
    { rewrite Hv, Hi, Hc. simpl. now rewrite length_map. }
    destruct (advance_step it ltac:(now rewrite Hv) Hlen ltac:(now rewrite Hv))
      as (b & idx' & Hadv & _ & _ & Hodo).
    rewrite Hadv. rewrite Hv, Hi, Hc in Hodo.
    assert (Ho : odometer_step (c :: cs) (past_the_end (c :: cs)) = None).
    { simpl. rewrite odometer_max.
      destruct (Z.ltb_spec c (c - 1)); [lia|reflexivity]. }
    rewrite Ho in Hodo. destruct Hodo as (c' & cs' & [= <- <-] & ->).
    assert (Hpast : store_at 0 c (past_the_end (c :: cs)) = past_the_end (interval_counts v)).
    { rewrite Hc. reflexivity. }
    eexists. split; [reflexivity|]. cbn [_v _i]. split; [exact Hv|].
    split; [exact Hpast|]. apply Hokf; [exact Hv|exact Hpast].
Qed.

End IteratorProperties.

(** ** The constructor of FieldRangeVector *)

Section ConstructorProperties.

Context {M : BSONModel} {Ops : @FieldRangeOps M}.

Lemma new_empty_throws (g : Globals) (frs : FieldRangeSet) (indexSpec : IndexSpec)
      (direction : Z) :
  Exists (fun kp => empty (field_range g frs kp) = true) (keyPattern indexSpec) ->
  exists expr,
    FieldRangeVector_new g frs indexSpec direction = Thrown (AssertionFailed expr).
Proof.
  intros H. destruct (fill_empty_throws g frs direction _ [] H) as [expr He].
  exists expr. unfold FieldRangeVector_new. now rewrite He.
Qed.

Lemma fill_nonempty_passes (g : Globals) (frs : FieldRangeSet) (direction : Z)
      (kps : list (string * Z)) :
  forall acc,
    Forall (fun kp => empty (field_range g frs kp) = false) kps ->
    FieldRangeVector_fill g frs direction kps acc <>
    Thrown (AssertionFailed nonempty_assertion).
Proof.
  induction kps as [|kp kps IH]; intros acc HF; [discriminate|].
  inversion HF as [|? ? He HF']; subst. rewrite fill_step.
  destruct (projected g frs direction kp) as [r|e] eqn:Hp.
  - cbn [bind]. unfold assert. rewrite (projected_empty _ _ _ _ _ Hp), He.
    cbn [negb bind]. now apply IH.
  - apply projected_throws in Hp as (-> & _). cbn [bind]. discriminate.
Qed.

Lemma new_nonempty_passes (g : Globals) (frs : FieldRangeSet) (indexSpec : IndexSpec)
      (direction : Z) :
  Forall (fun kp => empty (field_range g frs kp) = false) (keyPattern indexSpec) ->
  FieldRangeVector_new g frs indexSpec direction <>
  Thrown (AssertionFailed nonempty_assertion).
Proof.
  intros HF. unfold FieldRangeVector_new.
  pose proof (fill_nonempty_passes g frs direction _ [] HF) as Hn.
  destruct (FieldRangeVector_fill g frs direction (keyPattern indexSpec) []) as [ranges|e];
    cbn [bind].
  - unfold uassert. destruct (size _ <? 1000000); cbn [bind]; discriminate.
  - intros [= ->]. now apply Hn.
Qed.

Lemma matchPossible_empty_entry (s : FieldRangeSet) (k : string) (r : FieldRange) :
  map_find k (_ranges s) = Some r -> empty r = true -> matchPossible s = false.
Proof.
  unfold matchPossible. induction (_ranges s) as [|[k' r'] m IH]; simpl; [discriminate|].
  destruct (String.eqb k k').
  - intros [= ->] ->. reflexivity.
  - intros Hf He. destruct (empty r'); [reflexivity|auto].
Qed.

Lemma new_ranges (g : Globals) (frs : FieldRangeSet) (indexSpec : IndexSpec)
      (direction : Z) (v : FieldRangeVector) :
  FieldRangeVector_new g frs indexSpec direction = Ok v ->
  Forall (fun r => empty r = false) (v_ranges v) /\
  product (v_ranges v) = product (map (field_range g frs) (keyPattern indexSpec)).
Proof.
  intros H. apply new_ok_inv in H as [HF _].
  destruct (pushed_product _ _ _ _ _ HF). auto.
Qed.

End ConstructorProperties.

(** C1.  The constructor fails an assertion, and so neither succeeds nor
    raises error 13385, as soon as the range of one key-pattern field is
    empty.  When every such range is nonempty, carries no special tag
    where it is read in reverse, and the product of the interval counts
    is below [2^63], it raises error 13385 with the message of the limit
    exactly when the product is at least 1,000,000, and below that it
    yields a vector whose [size()] is the product. *)
Theorem C1_combinatorial_limit {M : BSONModel} {Ops : @FieldRangeOps M}
        (g : Globals) (frs : FieldRangeSet) (indexSpec : IndexSpec) (direction : Z) :
  let counted := product (map (field_range g frs) (keyPattern indexSpec)) in
  let built := FieldRangeVector_new g frs indexSpec direction in
  (Exists (fun kp => empty (field_range g frs kp) = true) (keyPattern indexSpec) ->
   exists expr, built = Thrown (AssertionFailed expr)) /\
  (Forall (fun kp => empty (field_range g frs kp) = false /\
                     (is_forward direction kp = false ->
                      _special (field_range g frs kp) = EmptyString))
          (keyPattern indexSpec) ->
   counted < 2 ^ 63 ->
   (built = Thrown (UserAssertion 13385 limit_message) <-> 1000000 <= counted) /\
   (counted < 1000000 -> exists v, built = Ok v /\ size v = counted)).
Proof.
  intros counted built. split; [apply new_empty_throws|].
  intros HF Hsmall.
  destruct (fill_runs g frs direction _ [] HF) as [ranges Hfill].
  pose proof (new_after_fill g frs indexSpec direction ranges Hfill) as Hnew.
  cbv zeta in Hnew. fold built in Hnew.
  destruct (fill_ok_inv _ _ _ _ _ _ Hfill) as (pushed & Hr & HF2).
  simpl in Hr. subst pushed.
  destruct (pushed_product _ _ _ _ _ HF2) as [Hprod Hne].
  fold counted in Hprod.
  pose proof (product_pos _ Hne) as Hpos.
  assert (Hsize : size (mkFieldRangeVector ranges indexSpec (sign direction) (_queries frs))
                  = counted).
  { rewrite size_product. cbn [v_ranges]. rewrite Hprod.
    apply wrap_long_long_small. lia. }
  rewrite Hsize in Hnew. rewrite Hnew.
  destruct (Z.ltb_spec counted 1000000) as [Hlt|Hge].
  - split; [split; [discriminate|lia]|]. intros _. eauto.
  - split; [split; [lia|reflexivity]|]. lia.
Qed.

(** C9.  The constructor fails an assertion whenever the range of a
    key-pattern field is empty, which is the case when the set holds an
    empty range for it, [matchPossible()] being false then; when none is,
    the assertion on the pushed range never fails, and a vector whose
    product of interval counts is below [2^63] has a [size()] of at least
    1.  Beyond that the product
    wraps around: with eight intervals on each of twenty-two fields every
    range is nonempty, the constructor succeeds, and [size()] is 0. *)
Theorem C9_nonempty_assertion :
  (forall (M : BSONModel) (Ops : @FieldRangeOps M)
          (g : Globals) (frs : FieldRangeSet) (indexSpec : IndexSpec) (direction : Z),
      let built := FieldRangeVector_new g frs indexSpec direction in
      (Exists (fun kp => empty (field_range g frs kp) = true) (keyPattern indexSpec) ->
       exists expr, built = Thrown (AssertionFailed expr)) /\
      (forall kp r, In kp (keyPattern indexSpec) ->
                    map_find (fst kp) (_ranges frs) = Some r -> empty r = true ->
                    matchPossible frs = false /\
                    exists expr, built = Thrown (AssertionFailed expr)) /\
      (Forall (fun kp => empty (field_range g frs kp) = false) (keyPattern indexSpec) ->
       built <> Thrown (AssertionFailed nonempty_assertion) /\
       forall v, built = Ok v -> product (v_ranges v) < 2 ^ 63 -> 1 <= size v)) /\
  (Forall (fun kp => empty (field_range Globals_initial Sample.wide_set kp) = false)
          (keyPattern Sample.wide_index) /\
   Sample.build_wide = Ok Sample.wide_vector /\
   size Sample.wide_vector = 0).
Proof.
  split.
  - intros M Ops g frs indexSpec direction built. split; [apply new_empty_throws|].
    split.
    { intros kp r Hin Hf He. split; [eapply matchPossible_empty_entry; eassumption|].
      apply new_empty_throws. apply Exists_exists. exists kp. split; [exact Hin|].
      unfold field_range, range. now rewrite Hf. }
    intros HF. split; [now apply new_nonempty_passes|].
    intros v Hv Hsmall. destruct (new_ranges _ _ _ _ _ Hv) as [Hne _].
    pose proof (product_pos _ Hne). rewrite size_product, wrap_long_long_small; lia.
  - split; [|split].
    + repeat constructor.
    + vm_compute. reflexivity.
    + vm_compute. reflexivity.
Qed.

(** C7.  In a vector the constructor has built, the range of each field
    is what the constructor projects for the corresponding key-pattern
    element (the range of the set, reversed where the field is read
    backwards), [startKey()] is the list of the lower bound values of the
    first interval of each range, and [endKey()] the list of the upper
    bound values of the last interval of each range.  For the range
    [[1, 3]] on [a], the index [{ a : 1 }] and direction -1 the vector
    holds the single interval from 3 down to 1, both ends inclusive; its
    start key is 3 and its end key is 1. *)
Theorem C7_start_end_keys :
  (forall (M : BSONModel) (Ops : @FieldRangeOps M)
          (g : Globals) (frs : FieldRangeSet) (indexSpec : IndexSpec) (direction : Z)
          (v : FieldRangeVector),
      FieldRangeVector_new g frs indexSpec direction = Ok v ->
      Forall2 (fun kp r => projected g frs direction kp = Ok r)
              (keyPattern indexSpec) (v_ranges v) /\
      exists sk ek,
        startKey v = Some sk /\ endKey v = Some ek /\
        Forall2 (fun r e => exists fi rest,
                     _intervals r = fi :: rest /\ e = _bound (_lower fi))
                (v_ranges v) sk /\
        Forall2 (fun r e => exists init fi,
                     _intervals r = init ++ [fi] /\ e = _bound (_upper fi))
                (v_ranges v) ek) /\
  (Sample.build_descending = Ok Sample.three_down_to_one /\
   startKey Sample.three_down_to_one = Some [Sample.NumberInt 3] /\
   endKey Sample.three_down_to_one = Some [Sample.NumberInt 1]).
Proof.
  split.
  - intros M Ops g frs indexSpec direction v Hv.
    pose proof (new_ok_inv _ _ _ _ _ Hv) as [HF _].
    destruct (new_ranges _ _ _ _ _ Hv) as [Hne _].
    split.
    + eapply Forall2_impl; [|exact HF]. intros kp r [H _]. exact H.
    + destruct (startKey_loop_spec (v_ranges v) [] Hne) as (sk & Hs & HFs).
      destruct (endKey_loop_spec (v_ranges v) [] Hne) as (ek & He & HFe).
      exists sk, ek. auto.
  - repeat split.
Qed.

(** C10.  On a vector with at least one field, whose fields all have at
    least one interval (and no more than an [int] can count),
    [advance()] moves the positions as a mixed-radix odometer does and,
    once every position is at its last interval, sets position 0 to the
    number of intervals of the first field.  Started from all zeros, the
    first [total] states, [total] being the product of the interval
    counts, are within bounds with [ok()] true, strictly increasing in
    lexicographic order, and reach every vector of positions within
    bounds; from the [total]-th call on [ok()] is false.  [size()] is
    that product reduced to 64 bits: equal to it below [2^63] (6 for
    three intervals on [a] and two on [b], whose six position vectors come
    in order), and 0 for eight intervals on each of twenty-two fields,
    where the iterator nevertheless starts on a valid position. *)
Theorem C10_advance_odometer :
  (forall (M : BSONModel) (v : FieldRangeVector),
      counts_fit v -> v_ranges v <> [] ->
      let counts := interval_counts v in
      let total := product (v_ranges v) in
      let start := Iterator_zero v in
      (forall it, _v it = v -> List.length (_i it) = List.length counts ->
                  exists b it',
                    advance it = Some (b, it') /\ ok it' = Some b /\ _v it' = v /\
                    _i it' = match odometer_step counts (_i it) with
                             | Some next => next
                             | None => store_at 0 (hd 0 counts) (_i it)
                             end) /\
      (forall k, Z.of_nat k < total ->
                 exists it, advance_times k start = Some it /\
                            in_bounds counts (_i it) /\ ok it = Some true) /\
      (forall k k' it it',
          (k < k')%nat -> Z.of_nat k' < total ->
          advance_times k start = Some it -> advance_times k' start = Some it' ->
          lex_lt (_i it) (_i it')) /\
      (forall idx, in_bounds counts idx ->
                   exists k it, Z.of_nat k < total /\
                                advance_times k start = Some it /\ _i it = idx) /\
      (forall k, total <= Z.of_nat k ->
                 exists it, advance_times k start = Some it /\ ok it = Some false) /\
      size v = wrap_long_long total /\
      (total < 2 ^ 63 -> size v = total)) /\
  (size Sample.three_by_two = 6 /\
   map (Sample.positions_after Sample.three_by_two) (seq 0 8) =
   [Some [0; 0]; Some [0; 1]; Some [1; 0]; Some [1; 1]; Some [2; 0]; Some [2; 1];
    Some [3; 1]; Some [3; 1]]) /\
  (counts_fit Sample.wide_vector /\
   product (v_ranges Sample.wide_vector) = 2 ^ 66 /\
   size Sample.wide_vector = 0 /\
   ok (Iterator_zero Sample.wide_vector) = Some true).
Proof.
  split.
  - intros M v Hfit Hne counts total start.
    assert (Hpos : 1 <= total).
    { subst total. rewrite product_counts. apply product_of_pos.
      now apply counts_fit_pos. }
    split; [|split; [|split; [|split; [|split; [|split]]]]].
    + intros it Hv Hlen. subst counts. rewrite <- Hv in Hfit, Hne, Hlen.
      destruct (advance_step it Hfit Hlen Hne) as (b & idx' & Hadv & Hok & _ & Hodo).
      eexists b, _. split; [exact Hadv|]. split; [exact Hok|]. split; [exact Hv|].
      cbn [_i]. rewrite <- Hv.
      destruct (odometer_step (interval_counts (_v it)) (_i it)); [exact Hodo|].
      destruct Hodo as (c & cs & -> & ->). reflexivity.
    + intros k Hk. destruct (run_value v Hfit Hne k Hk) as (it & Hrun & Hv & Hb & _).
      exists it. split; [exact Hrun|]. split; [exact Hb|].
      apply ok_in_bounds; rewrite Hv; assumption.
    + intros k k' it it' Hlt Hk' Hrun Hrun'.
      destruct (run_value v Hfit Hne k ltac:(lia)) as (it1 & Hrun1 & _ & Hb1 & Hv1).
      destruct (run_value v Hfit Hne k' Hk') as (it2 & Hrun2 & _ & Hb2 & Hv2).
      subst start. rewrite Hrun1 in Hrun. rewrite Hrun2 in Hrun'.
      injection Hrun as <-. injection Hrun' as <-.
      apply (lex_value counts); [assumption|assumption|]. subst counts. lia.
    + intros idx Hb. pose proof (value_bounds _ _ Hb) as Hval.
      subst counts total. rewrite product_counts. fold (interval_counts v).
      set (k := Z.to_nat (position_value (interval_counts v) idx)).
      assert (Hk : Z.of_nat k < product (v_ranges v)).
      { rewrite product_counts. fold (interval_counts v). subst k. lia. }
      destruct (run_value v Hfit Hne k Hk) as (it & Hrun & _ & Hb' & Hv').
      exists k, it. split; [subst k; lia|]. split; [exact Hrun|].
      apply (value_inj (interval_counts v)); [assumption|assumption|].
      rewrite Hv'. subst k. lia.
    + intros k Hk.
      destruct (run_end v Hfit Hne (k - Z.to_nat total)) as (it & Hrun & _ & _ & Hok).
      fold total in Hrun.
      replace (Z.to_nat total + (k - Z.to_nat total))%nat with k in Hrun by lia.
      exists it. auto.
    + apply size_product.
    + intros Hsmall. rewrite size_product. apply wrap_long_long_small. subst total. lia.
  - split.
    + split; vm_compute; reflexivity.
    + split; [|split; [|split]].
      * apply Forall_forall. intros c Hc. vm_compute in Hc.
        repeat (destruct Hc as [<-|Hc]; [lia|]). contradiction.
      * vm_compute. reflexivity.
      * vm_compute. reflexivity.
      * vm_compute. reflexivity.
Qed.

(** C4.  An interval on the single value 5 answers true to [equality()]
    and keeps that answer in its cache.  After [setExclusiveBounds()] on
    the range that holds it both of its bounds are exclusive, and after
    [flipInclusive()] on its lower bound that bound is; in either case the
    cache is as it was, and [equality()] still answers true although the
    interval is no longer an equality.  The same through [FieldRange]
    alone: [inQuery()] on the range of [{ $in : [ 5, 6 ] }] answers true,
    and still does after [setExclusiveBounds()], when none of the
    intervals is an equality. *)
Theorem C4_equality_cache_stale :
  fst (FieldInterval_equality Sample.point_five) = true /\
  _cachedEquality Sample.point_five_asked = 1 /\
  _intervals (setExclusiveBounds (Sample.range_of [Sample.point_five_asked])) =
  [Sample.point_five_exclusive] /\
  _inclusive (_lower Sample.point_five_exclusive) = false /\
  _inclusive (_upper Sample.point_five_exclusive) = false /\
  equality_now Sample.point_five_exclusive = false /\
  fst (FieldInterval_equality Sample.point_five_exclusive) = true /\
  _inclusive (_lower Sample.point_five_flipped) = false /\
  equality_now Sample.point_five_flipped = false /\
  fst (FieldInterval_equality Sample.point_five_flipped) = true /\
  inQuery Sample.five_six = Ok (true, Sample.five_six_asked) /\
  forallb (fun fi => negb (equality_now fi)) (_intervals Sample.five_six_exclusive) = true /\
  inQuery Sample.five_six_exclusive = Ok (true, Sample.five_six_exclusive).
Proof. repeat split. Qed.

(** C8.  A lookup of an absent field reads the shared trivial range,
    whatever it holds at that moment, and the non-const [range] returns a
    reference to it; a call through a reference to an entry of the map
    leaves it alone.  On the sample: before anything is called through the
    reference, the lookup of an absent field in any set yields the
    universal range; after [makeEmpty()] through it, the same lookup
    yields a range without intervals. *)
Theorem C8_trivial_range_mutated :
  (forall (M : BSONModel) (Ops : @FieldRangeOps M)
          (g : Globals) (s : FieldRangeSet) (fieldName : string),
      (hasRange s fieldName = false ->
       range g s fieldName = __trivialRange g /\
       range_ref s fieldName = RefTrivialRange) /\
      (forall f, fst (call_through (RefEntry fieldName) f g s) = g) /\
      (forall f, call_through RefTrivialRange f g s = (mkGlobals (f (__trivialRange g)), s))) /\
  (range_ref Sample.no_ranges "a" = RefTrivialRange /\
   deref Globals_initial Sample.no_ranges (range_ref Sample.no_ranges "a") =
   Some trivialRange_initial /\
   range Globals_initial Sample.one_to_three "b" = trivialRange_initial /\
   universal (range Globals_initial Sample.one_to_three "b") /\
   snd Sample.after_makeEmpty = Sample.no_ranges /\
   range (fst Sample.after_makeEmpty) Sample.one_to_three "b" = makeEmpty trivialRange_initial /\
   empty (range (fst Sample.after_makeEmpty) Sample.one_to_three "b") = true /\
   ~ universal (range (fst Sample.after_makeEmpty) Sample.one_to_three "b")).
Proof.
  split.
  - intros M Ops g s fieldName. split; [|split].
    + unfold hasRange, range, range_ref.
      destruct (map_find fieldName (_ranges s)); [discriminate|auto].
    + intros f. unfold call_through.
      destruct (map_find fieldName (_ranges s)); reflexivity.
    + reflexivity.
  - repeat split.
    + eexists. repeat split.
    + intros (fi & H & _). discriminate.
Qed.

(** ** The sample operators are sound *)

Section CoverProperties.

Context {M : BSONModel} {O : @BSONOrder M}.

Lemma cmp_le_ge (a b : BSONElement) : woCompare a b <= 0 -> 0 <= woCompare b a.
Proof.
  intros H. destruct (Z_le_gt_dec 0 (woCompare b a)) as [|G]; [assumption|].
  assert (0 < woCompare a b) by (apply cmp_neg_pos; lia). lia.
Qed.

Lemma cmp_ge_le (a b : BSONElement) : 0 <= woCompare a b -> woCompare b a <= 0.
Proof.
  intros H. destruct (Z_le_gt_dec (woCompare b a) 0) as [|G]; [assumption|].
  assert (woCompare a b < 0) by (apply cmp_neg_pos; lia). lia.
Qed.

(** A value that a bound admits from below is admitted by any bound
    that is no greater. *)
Lemma lower_widens (a b e : BSONElement) (ia ib : bool) :
  ((woCompare a b <? 0) || ((woCompare a b =? 0) && (ia || negb ib))) = true ->
  ((woCompare b e <? 0) || ((woCompare b e =? 0) && ib)) = true ->
  ((woCompare a e <? 0) || ((woCompare a e =? 0) && ia)) = true.
Proof.
  intros H1 H2. apply orb_true_iff in H1, H2. apply orb_true_iff.
  assert (Hbe : woCompare b e <= 0).
  { destruct H2 as [H|H]; [apply Z.ltb_lt in H; lia|].
    apply andb_true_iff in H as [H _]. apply Z.eqb_eq in H. lia. }
  destruct H1 as [H1|H1].
  - left. apply Z.ltb_lt. apply Z.ltb_lt in H1. eapply cmp_lt_le_trans; eassumption.
  - apply andb_true_iff in H1 as [H1 Hi]. apply Z.eqb_eq in H1.
    destruct H2 as [H2|H2].
    + left. apply Z.ltb_lt. apply Z.ltb_lt in H2.
      eapply cmp_le_lt_trans; [|exact H2]. lia.
    + right. apply andb_true_iff in H2 as [H2 Hib]. apply Z.eqb_eq in H2.
      rewrite Hib in Hi. simpl in Hi. rewrite orb_false_r in Hi. rewrite Hi, andb_true_r.
      apply Z.eqb_eq.
      assert (L : woCompare a e <= 0)
        by (eapply woCompare_trans; [|exact Hbe]; lia).
      assert (G : woCompare e a <= 0).
      { eapply woCompare_trans; [apply cmp_ge_le; rewrite H2; lia|].
        apply cmp_ge_le. rewrite H1. lia. }
      apply cmp_le_ge in G. lia.
Qed.

Lemma upper_widens (c d e : BSONElement) (ic id : bool) :
  ((woCompare c d <? 0) || ((woCompare c d =? 0) && (id || negb ic))) = true ->
  ((woCompare e c <? 0) || ((woCompare e c =? 0) && ic)) = true ->
  ((woCompare e d <? 0) || ((woCompare e d =? 0) && id)) = true.
Proof.
  intros H1 H2. apply orb_true_iff in H1, H2. apply orb_true_iff.
  assert (Hec : woCompare e c <= 0).
  { destruct H2 as [H|H]; [apply Z.ltb_lt in H; lia|].
    apply andb_true_iff in H as [H _]. apply Z.eqb_eq in H. lia. }
  destruct H1 as [H1|H1].
  - left. apply Z.ltb_lt. apply Z.ltb_lt in H1. eapply cmp_le_lt_trans; eassumption.
  - apply andb_true_iff in H1 as [H1 Hi]. apply Z.eqb_eq in H1.
    destruct H2 as [H2|H2].
    + left. apply Z.ltb_lt. apply Z.ltb_lt in H2.
      eapply cmp_lt_le_trans; [exact H2|]. lia.
    + right. apply andb_true_iff in H2 as [H2 Hic]. apply Z.eqb_eq in H2.
      rewrite Hic in Hi. simpl in Hi. rewrite orb_false_r in Hi. rewrite Hi, andb_true_r.
      apply Z.eqb_eq.
      assert (L : woCompare e d <= 0)
        by (eapply woCompare_trans; [exact Hec|]; lia).
      assert (G : woCompare d e <= 0).
      { eapply woCompare_trans; [apply cmp_ge_le; rewrite H1; lia|].
        apply cmp_ge_le. rewrite H2. lia. }
      apply cmp_le_ge in G. lia.
Qed.

Lemma covers_contains (outer inner : FieldInterval) (e : BSONElement) :
  covers outer inner = true -> interval_contains inner e = true ->
  interval_contains outer e = true.
Proof.
  unfold covers, interval_contains. intros H1 H2.
  apply andb_true_iff in H1 as [L1 U1]. apply andb_true_iff in H2 as [L2 U2].
  apply andb_true_iff. split.
  - eapply lower_widens; eassumption.
  - eapply upper_widens; eassumption.
Qed.

Lemma covered_contains (other : FieldRange) (fi : FieldInterval) (e : BSONElement) :
  covered_by other fi = true -> interval_contains fi e = true ->
  range_contains other e = true.
Proof.
  unfold covered_by, range_contains. intros H He.
  apply existsb_exists in H as (fj & Hin & Hc). apply existsb_exists.
  exists fj. split; [exact Hin|]. eapply covers_contains; eassumption.
Qed.

Lemma subset_by_cover_sound (x y : FieldRange) :
  subset_by_cover x y = true ->
  forall e, range_contains x e = true -> range_contains y e = true.
Proof.
  unfold subset_by_cover. intros H e He. unfold range_contains in He.
  apply existsb_exists in He as (fi & Hin & Hc).
  rewrite forallb_forall in H. eapply covered_contains; [apply H|]; eassumption.
Qed.

Lemma drop_covered_sound (x y : FieldRange) (e : BSONElement) :
  range_contains x e = true -> range_contains y e = false ->
  range_contains (drop_covered x y) e = true.
Proof.
  intros Hx Hy. unfold range_contains in Hx. apply existsb_exists in Hx as (fi & Hin & Hc).
  unfold range_contains, drop_covered. cbn [_intervals]. apply existsb_exists.
  exists fi. split; [|exact Hc]. apply filter_In. split; [exact Hin|].
  apply negb_true_iff. destruct (covered_by y fi) eqn:E; [|reflexivity].
  rewrite (covered_contains y fi e E Hc) in Hy. discriminate.
Qed.

End CoverProperties.

Lemma Sample_compare_refl (a : Sample.Value) : Sample.compare a a = 0.
Proof. destruct a; simpl; try reflexivity. now rewrite Z.compare_refl. Qed.

Lemma Sample_compare_antisym (a b : Sample.Value) :
  Z.sgn (Sample.compare b a) = - Z.sgn (Sample.compare a b).
Proof.
  destruct a as [|x|], b as [|y|]; simpl; try reflexivity.
  rewrite (Z.compare_antisym x y). destruct (x ?= y); reflexivity.
Qed.

Lemma Sample_compare_trans (a b c : Sample.Value) :
  Sample.compare a b <= 0 -> Sample.compare b c <= 0 -> Sample.compare a c <= 0.
Proof.
  destruct a as [|x|], b as [|y|], c as [|z|]; simpl; try lia.
  destruct (Z.compare_spec x y), (Z.compare_spec y z), (Z.compare_spec x z); lia.
Qed.

#[global] Instance Sample_order : @BSONOrder Sample.bson.
Proof.
  constructor.
  - exact Sample_compare_refl.
  - exact Sample_compare_antisym.
  - exact Sample_compare_trans.
Qed.

(** ** Concrete inputs *)

(** An empty range for the indexed field: the product of the interval
    counts is 0, below the limit, and the constructor does not succeed. *)
Lemma C1_counterexample_empty_range :
  product (map (field_range Globals_initial Sample.nothing_for_a)
               (keyPattern Sample.index_a)) < 1000000 /\
  Sample.build_nothing = Thrown (AssertionFailed nonempty_assertion) /\
  forall v, Sample.build_nothing <> Ok v.
Proof.
  split; [reflexivity|]. split; [reflexivity|]. intros v. discriminate.
Qed.

Lemma C1_witness :
  Forall (fun kp =>
            empty (field_range Globals_initial Sample.in_three_two kp) = false /\
            (is_forward 1 kp = false ->
             _special (field_range Globals_initial Sample.in_three_two kp) = EmptyString))
         (keyPattern Sample.index_a_b) /\
  product (map (field_range Globals_initial Sample.in_three_two)
               (keyPattern Sample.index_a_b)) < 2 ^ 63 /\
  exists v, Sample.build_three_by_two = Ok v /\ size v = 6.
Proof.
  assert (HF : Forall (fun kp =>
            empty (field_range Globals_initial Sample.in_three_two kp) = false /\
            (is_forward 1 kp = false ->
             _special (field_range Globals_initial Sample.in_three_two kp) = EmptyString))
         (keyPattern Sample.index_a_b)).
  { repeat constructor. }
  assert (Hs : product (map (field_range Globals_initial Sample.in_three_two)
                            (keyPattern Sample.index_a_b)) < 2 ^ 63) by reflexivity.
  split; [exact HF|]. split; [exact Hs|].
  pose proof (C1_combinatorial_limit (Ops := Sample.ops) Globals_initial
                                     Sample.in_three_two Sample.index_a_b 1) as H.
  cbv zeta in H. destruct H as [_ H]. destruct (H HF Hs) as [_ H'].
  apply H'. reflexivity.
Defined.

(** Two sets without any range: no field is unincluded, and the
    difference is the first set as it was, which every document still
    satisfies. *)
Lemma C2_counterexample_no_ranges :
  ~ missing (_ranges Sample.no_ranges) (_ranges Sample.no_ranges) /\
  unincluded (_ranges Sample.no_ranges) (_ranges Sample.no_ranges) = [] /\
  FieldRangeSet_minus Sample.no_ranges Sample.no_ranges = Sample.no_ranges /\
  matchPossible (FieldRangeSet_minus Sample.no_ranges Sample.no_ranges) = true /\
  set_admits (FieldRangeSet_minus Sample.no_ranges Sample.no_ranges)
             Sample.five_and_one = true.
Proof.
  split; [intros (k & [] & _)|]. repeat split.
Qed.

Lemma C2_witness :
  sorted_keys (_ranges Sample.left_set) /\
  sorted_keys (_ranges Sample.right_set) /\
  set_admits Sample.left_set Sample.five_and_one = true /\
  set_admits Sample.right_set Sample.five_and_one = false /\
  set_admits (FieldRangeSet_minus Sample.left_set Sample.right_set)
             Sample.five_and_one = true.
Proof.
  assert (Ha : sorted_keys (_ranges Sample.left_set)) by (simpl; auto).
  assert (Hb : sorted_keys (_ranges Sample.right_set)) by (simpl; auto).
  split; [exact Ha|]. split; [exact Hb|]. split; [reflexivity|]. split; [reflexivity|].
  pose proof (C2_set_difference (Ops := Sample.ops) Sample.left_set Sample.right_set
                                Ha Hb) as H.
  cbv zeta in H. destruct H as (_ & _ & H).
  apply H.
  - exact subset_by_cover_sound.
  - exact drop_covered_sound.
  - reflexivity.
  - reflexivity.
Defined.

(** A target that carries a tag: the first [reverse] succeeds and keeps
    the tag, the second one fails the assertion, so that reversing twice
    does not give the range back.  And [r.reverse( r )] leaves the range
    without intervals. *)
Lemma C3_counterexample_tagged_target :
  _special Sample.two_intervals = EmptyString /\
  (exists r1,
     reverse Sample.two_intervals Cases.tagged_2d = Ok r1 /\
     _special r1 = "2d"%string /\
     reverse r1 trivialRange_initial = Thrown (AssertionFailed "_special.empty()")) /\
  reverse_self Sample.two_intervals = Ok (Sample.range_of []) /\
  Sample.range_of [] <> Sample.two_intervals.
Proof.
  split; [reflexivity|]. split; [|split; [reflexivity|discriminate]].
  eexists. split; [reflexivity|]. split; reflexivity.
Qed.

Lemma C3_witness :
  _special Sample.two_intervals = EmptyString /\
  exists r1 r2,
    reverse Sample.two_intervals trivialRange_initial = Ok r1 /\
    map endpoints (_intervals r1) =
    rev (map swapped (_intervals Sample.two_intervals)) /\
    reverse r1 trivialRange_initial = Ok r2 /\
    r2 = Sample.two_intervals.
Proof.
  split; [reflexivity|].
  destruct (proj1 (C3_reverse_involution Sample.two_intervals trivialRange_initial
                                         trivialRange_initial) eq_refl)
    as (r1 & H1 & H2 & _ & _ & _ & Hsecond & _).
  destruct (Hsecond eq_refl) as (r2 & H3 & _ & _ & _ & _ & Hsame).
  exists r1, r2. split; [exact H1|]. split; [exact H2|]. split; [exact H3|].
  apply Hsame; [reflexivity|]. repeat constructor.
Defined.



Lemma C7_witness :
  Sample.build_three_by_two = Ok Sample.three_by_two /\
  exists sk ek,
    startKey Sample.three_by_two = Some sk /\ endKey Sample.three_by_two = Some ek.
Proof.
  assert (Hv : Sample.build_three_by_two = Ok Sample.three_by_two) by reflexivity.
  split; [exact Hv|].
  destruct (proj1 C7_start_end_keys Sample.bson Sample.ops _ _ _ _ _ Hv)
    as (_ & sk & ek & Hs & He & _).
  exists sk, ek. split; assumption.
Defined.

(** * Further properties *)

Lemma front_map {A B : Type} (f : A -> B) (l : list A) :
  front (map f l) = option_map f (front l).
Proof. destruct l; reflexivity. Qed.

Lemma back_map {A B : Type} (f : A -> B) (l : list A) :
  back (map f l) = option_map f (back l).
Proof.
  induction l as [|x l IH]; [reflexivity|].
  destruct l as [|y l]; [reflexivity|]. exact IH.
Qed.

Lemma front_rev {A : Type} (l : list A) : front (rev l) = back l.
Proof.
  destruct (back l) as [x|] eqn:E.
  - destruct (back_some_inv _ _ E) as [l' ->]. rewrite rev_app_distr. reflexivity.
  - apply back_none_inv in E. subst. reflexivity.
Qed.

Lemma back_rev {A : Type} (l : list A) : back (rev l) = front l.
Proof.
  destruct l as [|x l]; [reflexivity|]. simpl. apply back_app_one.
Qed.

Lemma forallb_agree {A : Type} (f g : A -> bool) (l : list A) :
  (forall x, In x l -> f x = g x) -> forallb f l = forallb g l.
Proof.
  induction l as [|x l IH]; intros H; [reflexivity|].
  simpl. rewrite (H x (or_introl eq_refl)), IH; [reflexivity|].
  intros y Hy. apply H. now right.
Qed.

Section MoreRangeProperties.

Context {M : BSONModel}.

Lemma min_eval (r : FieldRange) :
  min r = match front (_intervals r) with
          | Some fi => Ok (_bound (_lower fi))
          | None => Thrown (AssertionFailed "!empty()")
          end.
Proof. unfold min, empty. destruct (_intervals r); reflexivity. Qed.

Lemma max_eval (r : FieldRange) :
  max r = match back (_intervals r) with
          | Some fi => Ok (_bound (_upper fi))
          | None => Thrown (AssertionFailed "!empty()")
          end.
Proof.
  unfold max, empty. destruct (_intervals r) as [|fi l] eqn:E; [reflexivity|].
  cbn [negb assert bind]. reflexivity.
Qed.

Lemma minInclusive_eval (r : FieldRange) :
  minInclusive r = match front (_intervals r) with
                   | Some fi => Ok (_inclusive (_lower fi))
                   | None => Thrown (AssertionFailed "!empty()")
                   end.
Proof. unfold minInclusive, empty. destruct (_intervals r); reflexivity. Qed.

Lemma maxInclusive_eval (r : FieldRange) :
  maxInclusive r = match back (_intervals r) with
                   | Some fi => Ok (_inclusive (_upper fi))
                   | None => Thrown (AssertionFailed "!empty()")
                   end.
Proof.
  unfold maxInclusive, empty. destruct (_intervals r) as [|fi l] eqn:E; [reflexivity|].
  cbn [negb assert bind]. reflexivity.
Qed.

(** X1.  Reversing a range exchanges its extremes: [min()] of the
    reverse is [max()] of the range and conversely, and likewise for
    [minInclusive()] and [maxInclusive()]; on an empty range all of them
    fail the same assertion before and after. *)
Theorem reverse_exchanges_extremes (r ret r1 : FieldRange) :
  reverse r ret = Ok r1 ->
  min r1 = max r /\ max r1 = min r /\
  minInclusive r1 = maxInclusive r /\ maxInclusive r1 = minInclusive r /\
  empty r1 = empty r.
Proof.
  intros H. destruct (reverse_intervals _ _ _ H) as (Hi & _ & _).
  rewrite (min_eval r1), (max_eval r1), (minInclusive_eval r1), (maxInclusive_eval r1).
  rewrite (min_eval r), (max_eval r), (minInclusive_eval r), (maxInclusive_eval r).
  unfold empty. rewrite Hi, front_map, back_map, front_rev, back_rev.
  destruct (_intervals r) as [|fi l]; [repeat split|].
  cbn [front option_map]. destruct (back (fi :: l)) as [fl|] eqn:Hb.
  - cbn [option_map]. repeat split.
    destruct (rev (fi :: l)) eqn:E; [|reflexivity].
    apply (f_equal (@List.length _)) in E. rewrite length_rev in E. discriminate.
  - apply back_none_inv in Hb. discriminate.
Qed.

Lemma FieldInterval_equality_facts (fi : FieldInterval) :
  _lower (snd (FieldInterval_equality fi)) = _lower fi /\
  _upper (snd (FieldInterval_equality fi)) = _upper fi /\
  (_cachedEquality fi = -1 -> fst (FieldInterval_equality fi) = equality_now fi).
Proof.
  unfold FieldInterval_equality.
  destruct (Z.eqb_spec (_cachedEquality fi) (-1)) as [E|E]; cbn [fst snd].
  - cbn [_lower _upper _cachedEquality]. destruct (equality_now fi); auto.
  - repeat split. intros; contradiction.
Qed.

(** X2.  [FieldInterval::equality()] is stable: it never changes a bound,
    after a call the cache is never unknown, and a second call returns
    the same answer and leaves the interval as the first call left it.
    On an interval whose cache is unknown the answer is whether both
    bounds are inclusive on values that compare equal; otherwise the
    interval is left as it is. *)
Theorem interval_equality_stable (fi : FieldInterval) :
  let asked := FieldInterval_equality fi in
  let again := FieldInterval_equality (snd asked) in
  _lower (snd asked) = _lower fi /\ _upper (snd asked) = _upper fi /\
  _cachedEquality (snd asked) <> -1 /\
  fst again = fst asked /\ snd again = snd asked /\
  (_cachedEquality fi = -1 -> fst asked = equality_now fi) /\
  (_cachedEquality fi <> -1 -> snd asked = fi).
Proof.
  unfold FieldInterval_equality.
  destruct (Z.eqb_spec (_cachedEquality fi) (-1)) as [E|E]; cbn [fst snd].
  - cbn [_lower _upper _cachedEquality].
    destruct (equality_now fi); cbn; repeat split; try reflexivity; try discriminate;
      intros; contradiction.
  - destruct (Z.eqb_spec (_cachedEquality fi) (-1)) as [E'|_]; [contradiction|].
    repeat split; try assumption. intros; contradiction.
Qed.

(** X3.  On an interval whose two end values compare equal,
    [strictValid()] and the equality test agree: such an interval is
    strictly valid exactly when both of its bounds are inclusive. *)
Theorem strictValid_on_equal_ends (fi : FieldInterval) :
  woCompare (_bound (_lower fi)) (_bound (_upper fi)) = 0 ->
  strictValid fi = equality_now fi /\
  strictValid fi = _inclusive (_lower fi) && _inclusive (_upper fi).
Proof.
  intros H. unfold strictValid, equality_now. rewrite H. cbn.
  destruct (_inclusive (_lower fi)), (_inclusive (_upper fi)); auto.
Qed.

Lemma inQuery_loop_spec (l : list FieldInterval) :
  map endpoints (snd (inQuery_loop l)) = map endpoints l /\
  fst (inQuery_loop l) = forallb (fun fi => fst (FieldInterval_equality fi)) l.
Proof.
  induction l as [|fi l [IH1 IH2]]; [split; reflexivity|].
  cbn [inQuery_loop forallb].
  pose proof (FieldInterval_equality_facts fi) as (Hl & Hu & _).
  destruct (FieldInterval_equality fi) as [b fi'] eqn:E. cbn [fst snd] in *.
  assert (He : endpoints fi' = endpoints fi) by (unfold endpoints; congruence).
  destruct b.
  - destruct (inQuery_loop l) as [b' l'']. cbn [fst snd] in *.
    cbn [map andb]. rewrite He, IH1. auto.
  - cbn [fst snd map andb]. rewrite He. auto.
Qed.

Lemma equality_total (r : FieldRange) : exists b, equality r = Ok b.
Proof.
  destruct (_intervals r) as [|fi l] eqn:Hi.
  - rewrite (equality_empty r Hi). eauto.
  - destruct (back_cons_some fi l) as [fl Hb].
    rewrite (equality_eval r fi fl l Hi Hb). eauto.
Qed.

(** X4.  [FieldRange::inQuery()] never fails and changes no bound, no
    backing object and no tag of the range.  On a range whose intervals
    have not been asked before it answers true exactly when
    [equality()] does or every interval is an equality; on a range
    without intervals it answers true. *)
Theorem inQuery_spec (r : FieldRange) :
  exists b r',
    inQuery r = Ok (b, r') /\
    map endpoints (_intervals r') = map endpoints (_intervals r) /\
    _objData r' = _objData r /\ _special r' = _special r /\
    (_intervals r = [] -> b = true) /\
    (Forall (fun fi => _cachedEquality fi = -1) (_intervals r) ->
     (b = true <->
      equality r = Ok true \/ forallb equality_now (_intervals r) = true)).
Proof.
  unfold inQuery. destruct (equality_total r) as [e He]. rewrite He. cbn [bind].
  destruct e.
  - exists true, r. repeat split; auto.
  - destruct (inQuery_loop_spec (_intervals r)) as [H1 H2].
    destruct (inQuery_loop (_intervals r)) as [b l] eqn:E. cbn [fst snd] in *.
    exists b, (mkFieldRange l (_objData r) (_special r)). cbn [_intervals _objData _special].
    split; [reflexivity|]. split; [exact H1|]. split; [reflexivity|]. split; [reflexivity|].
    split.
    + intros Hn. rewrite Hn in H2. exact H2.
    + intros Hfresh.
      assert (Hb : b = forallb equality_now (_intervals r)).
      { rewrite H2. apply forallb_agree. intros fi Hin.
        rewrite Forall_forall in Hfresh.
        pose proof (FieldInterval_equality_facts fi) as (_ & _ & Hf).
        apply Hf. now apply Hfresh. }
      rewrite Hb. split; [auto|]. intros [H|H]; [discriminate|exact H].
Qed.

Lemma nontrivial_total (r : FieldRange) : exists b, nontrivial r = Ok b.
Proof.
  destruct (_intervals r) as [|fi l] eqn:Hi.
  - rewrite (nontrivial_empty r Hi). eauto.
  - destruct (back_cons_some fi l) as [fl Hb].
    rewrite (nontrivial_eval r fi fl l Hi Hb). eauto.
Qed.

Lemma setExclusive_twice (fi : FieldInterval) :
  setExclusive (setExclusive fi) = setExclusive fi.
Proof. reflexivity. Qed.

(** X5.  [setExclusiveBounds()] touches the inclusivity flags only: the
    number of intervals, every bound value, the caches, the backing
    objects and the tag stay, and so do [empty()], [min()], [max()] and
    [nontrivial()], which do not look at the flags.  Afterwards
    [minInclusive()] and [maxInclusive()] are false on a nonempty range,
    [equality()] is false, and a second call changes nothing. *)
Theorem setExclusiveBounds_keeps_values (r : FieldRange) :
  let x := setExclusiveBounds r in
  map (fun fi => (_bound (_lower fi), _bound (_upper fi), _cachedEquality fi)) (_intervals x) =
  map (fun fi => (_bound (_lower fi), _bound (_upper fi), _cachedEquality fi)) (_intervals r) /\
  _objData x = _objData r /\ _special x = _special r /\
  empty x = empty r /\ min x = min r /\ max x = max r /\
  nontrivial x = nontrivial r /\
  (empty r = false -> minInclusive x = Ok false /\ maxInclusive x = Ok false) /\
  equality x = Ok false /\
  setExclusiveBounds x = x.
Proof.
  cbv zeta.
  assert (Hi : _intervals (setExclusiveBounds r) = map setExclusive (_intervals r))
    by reflexivity.
  split; [rewrite Hi, map_map; reflexivity|].
  split; [reflexivity|]. split; [reflexivity|].
  assert (He : empty (setExclusiveBounds r) = empty r).
  { unfold empty. rewrite Hi. destruct (_intervals r); reflexivity. }
  split; [exact He|].
  assert (Hmin : min (setExclusiveBounds r) = min r).
  { rewrite !min_eval, Hi, front_map. destruct (front (_intervals r)); reflexivity. }
  assert (Hmax : max (setExclusiveBounds r) = max r).
  { rewrite !max_eval, Hi, back_map. destruct (back (_intervals r)); reflexivity. }
  split; [exact Hmin|]. split; [exact Hmax|].
  split.
  { unfold nontrivial. rewrite He, Hmin, Hmax, Hi, length_map. reflexivity. }
  split.
  { intros Hne. rewrite minInclusive_eval, maxInclusive_eval, Hi, front_map, back_map.
    unfold empty in Hne. destruct (_intervals r) as [|fi l]; [discriminate|].
    destruct (back_cons_some fi l) as [fl ->]. split; reflexivity. }
  split.
  { destruct (equality_total (setExclusiveBounds r)) as [[|] Hb]; [|exact Hb].
    exfalso. apply equality_exclusive in Hb. destruct Hb as (fi & Hfi & _ & Hl & _).
    rewrite Hi in Hfi. destruct (_intervals r) as [|f0 l0]; [discriminate|].
    simpl in Hfi. injection Hfi as <- _. discriminate. }
  unfold setExclusiveBounds. cbn [_intervals _objData _special].
  rewrite map_map. reflexivity.
Qed.

(** X6.  [setExclusiveBounds()] and [reverse()] commute: reversing a
    range whose bounds have been made exclusive gives what making the
    bounds of the reversed range exclusive gives, and fails the same
    assertion when the range carries a tag. *)
Theorem setExclusiveBounds_reverse (r ret : FieldRange) :
  reverse (setExclusiveBounds r) ret =
  match reverse r ret with
  | Ok r1 => Ok (setExclusiveBounds r1)
  | Thrown e => Thrown e
  end.
Proof.
  unfold reverse, assert. cbn [_special setExclusiveBounds].
  destruct (string_empty (_special r)); cbn [bind]; [|reflexivity].
  f_equal. unfold setExclusiveBounds. cbn [_intervals _objData _special].
  rewrite !reverse_loop_map. cbn [app]. rewrite <- map_rev, !map_map. reflexivity.
Qed.

End MoreRangeProperties.

Section MoreSetProperties.

Context {M : BSONModel} {Ops : @FieldRangeOps M} {And : @FieldRangeAnd M}.

Lemma nNontrivialRanges_loop_spec (m : RangeMap) (count : Z) :
  nNontrivialRanges_loop m count =
  Ok (count + Z.of_nat (List.length (filter (fun kr => is_nontrivial (snd kr)) m))).
Proof.
  revert count. induction m as [|[k r] m IH]; intros count.
  - simpl. f_equal. lia.
  - cbn [nNontrivialRanges_loop filter snd]. unfold is_nontrivial at 1.
    destruct (nontrivial_total r) as [b ->]. cbn [bind]. rewrite IH.
    destruct b; cbn [List.length]; f_equal; lia.
Qed.

(** X7.  [nNontrivialRanges()] never fails: it returns the number of
    entries whose range answers true to [nontrivial()], which lies
    between zero and the number of entries.  It is zero once
    [makeEmpty()] has emptied every range, and [appendQueries] does not
    change it. *)
Theorem nNontrivialRanges_counts (s other : FieldRangeSet) :
  let n := Z.of_nat (List.length (filter (fun kr => is_nontrivial (snd kr)) (_ranges s))) in
  nNontrivialRanges s = Ok n /\
  0 <= n <= Z.of_nat (List.length (_ranges s)) /\
  nNontrivialRanges (FieldRangeSet_makeEmpty s) = Ok 0 /\
  nNontrivialRanges (appendQueries s other) = Ok n.
Proof.
  cbv zeta. unfold nNontrivialRanges. rewrite !nNontrivialRanges_loop_spec.
  split; [reflexivity|]. split.
  { pose proof (filter_length_le (fun kr => is_nontrivial (snd kr)) (_ranges s)). lia. }
  split; [|reflexivity].
  cbn [FieldRangeSet_makeEmpty _ranges]. f_equal.
  induction (_ranges s) as [|[k r] m IH]; [reflexivity|].
  cbn [map filter fst snd]. unfold is_nontrivial at 1.
  rewrite (nontrivial_empty (makeEmpty r) eq_refl). exact IH.
Qed.

Lemma map_find_set (k k' : string) (v : FieldRange) (m : RangeMap) :
  map_find k (map_set k' v m) = if String.eqb k k' then Some v else map_find k m.
Proof.
  induction m as [|[h r] m IH]; [reflexivity|].
  cbn [map_set]. destruct (String.compare k' h) eqn:E.
  - apply str_cmp_eq in E. subst h. cbn [map_find]. destruct (String.eqb k k'); reflexivity.
  - reflexivity.
  - cbn [map_find]. rewrite IH.
    destruct (String.eqb k h) eqn:Eh; [|reflexivity].
    destruct (String.eqb k k') eqn:Ek; [|reflexivity].
    apply String.eqb_eq in Eh, Ek. subst. rewrite str_cmp_refl in E. discriminate.
Qed.

Lemma sorted_cons (k : string) (r : FieldRange) (m : RangeMap) :
  above k m -> sorted_keys m -> sorted_keys ((k, r) :: m).
Proof.
  intros Hab Hs. cbn [sorted_keys]. split; [|exact Hs].
  destruct m as [|[k' r'] m]; [exact I|]. now inversion Hab.
Qed.

Lemma above_set (k0 k : string) (v : FieldRange) (m : RangeMap) :
  above k0 m -> String.compare k0 k = Lt -> above k0 (map_set k v m).
Proof.
  intros Hab Hk. induction m as [|[h r] m IH].
  - constructor; [exact Hk|constructor].
  - inversion Hab as [|? ? Hh Hm]; subst. cbn [map_set].
    destruct (String.compare k h).
    + constructor; assumption.
    + constructor; [exact Hk|exact Hab].
    + constructor; [exact Hh|now apply IH].
Qed.

Lemma sorted_set (k : string) (v : FieldRange) (m : RangeMap) :
  sorted_keys m -> sorted_keys (map_set k v m).
Proof.
  induction m as [|[h r] m IH]; intros Hs; [split; exact I|].
  destruct (sorted_above _ _ _ Hs) as [Hab Hs'].
  cbn [map_set]. destruct (String.compare k h) eqn:E.
  - now apply sorted_cons.
  - split; assumption.
  - apply sorted_cons; [|now apply IH].
    apply above_set; [exact Hab|now apply str_cmp_gt_lt].
Qed.

Lemma sorted_same_keys (m m' : RangeMap) :
  keys m = keys m' -> sorted_keys m -> sorted_keys m'.
Proof.
  revert m'. induction m as [|[k r] m IH]; intros [|[k' r'] m'] Hk Hs;
    try discriminate; [exact I|].
  injection Hk as -> Hk. destruct Hs as [Hh Hs]. split; [|now apply (IH m')].
  destruct m as [|[k1 r1] m], m' as [|[k2 r2] m']; try discriminate; [exact I|].
  injection Hk as -> _. exact Hh.
Qed.

Lemma above_key (k0 k : string) (m : RangeMap) :
  above k0 m -> In k (keys m) -> String.compare k0 k = Lt.
Proof.
  intros Hab Hin. unfold keys in Hin. apply in_map_iff in Hin as (kr & <- & Hin).
  unfold above in Hab. rewrite Forall_forall in Hab. now apply Hab.
Qed.

Lemma in_keys (k : string) (r : FieldRange) (m : RangeMap) : In (k, r) m -> In k (keys m).
Proof. intros H. unfold keys. apply in_map_iff. now exists (k, r). Qed.

Lemma find_keys (k : string) (m : RangeMap) :
  In k (keys m) <-> map_find k m <> None.
Proof.
  induction m as [|[h r] m IH]; [simpl; tauto|].
  cbn [keys map fst In map_find]. fold (keys m). destruct (String.eqb k h) eqn:E.
  - apply String.eqb_eq in E. subst. split; [discriminate|now left].
  - rewrite <- IH. split; [|tauto]. intros [->|H]; [|exact H].
    rewrite String.eqb_refl in E. discriminate.
Qed.

Lemma and_rest_find (j : RangeMap) :
  forall whole k, sorted_keys j ->
    map_find k (and_rest j whole) =
    match map_find k j with
    | Some rb => Some rb
    | None => map_find k whole
    end.
Proof.
  induction j as [|[kj rj] j IH]; intros whole k Hs; [reflexivity|].
  destruct (sorted_above _ _ _ Hs) as [Hab Hs'].
  cbn [and_rest map_find]. rewrite (IH _ _ Hs'), map_find_set.
  destruct (String.eqb k kj) eqn:E; [|reflexivity].
  apply String.eqb_eq in E. subst. now rewrite (above_find_none _ _ Hab).
Qed.

Lemma and_rest_sorted (j : RangeMap) :
  forall whole, sorted_keys whole -> sorted_keys (and_rest j whole).
Proof.
  induction j as [|[kj rj] j IH]; intros whole Hs; [exact Hs|].
  cbn [and_rest]. apply IH. now apply sorted_set.
Qed.

Lemma and_walk_eq (i j whole : RangeMap) :
  and_walk i j whole =
  match i with
  | [] => and_rest j whole
  | (ki, ri) :: i' =>
      match j with
      | [] => whole
      | (kj, rj) :: j' =>
          match String.compare ki kj with
          | Eq => and_walk i' j' (map_set ki (FieldRange_and ri rj) whole)
          | Lt => and_walk i' j whole
          | Gt => and_walk i j' (map_set kj rj whole)
          end
      end
  end.
Proof. destruct i as [|[ki ri] i]; destruct j as [|[kj rj] j]; reflexivity. Qed.

Lemma and_walk_sorted (i : RangeMap) :
  forall j whole, sorted_keys whole -> sorted_keys (and_walk i j whole).
Proof.
  induction i as [|[ki ri] i IHi]; intros j whole Hs.
  - rewrite and_walk_eq. now apply and_rest_sorted.
  - revert whole Hs. induction j as [|[kj rj] j IHj]; intros whole Hs.
    + rewrite and_walk_eq. exact Hs.
    + rewrite and_walk_eq. destruct (String.compare ki kj).
      * apply IHi. now apply sorted_set.
      * now apply IHi.
      * apply IHj. now apply sorted_set.
Qed.

Lemma and_walk_find (i : RangeMap) :
  forall j whole,
    sorted_keys i -> sorted_keys j ->
    (forall k r, In (k, r) i -> map_find k whole = Some r) ->
    (forall k, In k (keys j) -> map_find k whole = map_find k i) ->
    forall k, map_find k (and_walk i j whole) = and_entry (map_find k whole) (map_find k j).
Proof.
  induction i as [|[ki ri] i IHi]; intros j whole Hsi Hsj I1 I2 k.
  - rewrite and_walk_eq, (and_rest_find _ _ _ Hsj).
    destruct (map_find k j) as [rb|] eqn:Ej.
    + rewrite (I2 k (in_keys _ _ _ (find_in _ _ _ Ej))). reflexivity.
    + destruct (map_find k whole); reflexivity.
  - destruct (sorted_above _ _ _ Hsi) as [Habi Hsi'].
    revert whole I1 I2. induction j as [|[kj rj] j IHj]; intros whole I1 I2.
    + rewrite and_walk_eq. cbn [map_find]. destruct (map_find k whole); reflexivity.
    + destruct (sorted_above _ _ _ Hsj) as [Habj Hsj'].
      rewrite and_walk_eq. destruct (String.compare ki kj) eqn:E.
      * apply str_cmp_eq in E. subst kj.
        rewrite (IHi j (map_set ki (FieldRange_and ri rj) whole) Hsi' Hsj').
        -- rewrite map_find_set. cbn [map_find].
           destruct (String.eqb k ki) eqn:Ek; [|reflexivity].
           apply String.eqb_eq in Ek. subst k.
           rewrite (above_find_none _ _ Habj), (I1 ki ri (or_introl eq_refl)). reflexivity.
        -- intros k0 r0 Hin. rewrite map_find_set.
           destruct (str_lt_eqb _ _ (above_key _ _ _ Habi (in_keys _ _ _ Hin))) as [_ ->].
           apply I1. now right.
        -- intros k0 Hin. rewrite map_find_set.
           destruct (str_lt_eqb _ _ (above_key _ _ _ Habj Hin)) as [_ Hne]. rewrite Hne.
           rewrite (I2 k0 (or_intror Hin)). cbn [map_find]. now rewrite Hne.
      * apply (IHi ((kj, rj) :: j) whole Hsi' Hsj).
        -- intros k0 r0 Hin. apply I1. now right.
        -- intros k0 Hin. rewrite (I2 k0 Hin). cbn [map_find].
           assert (Hlt : String.compare ki k0 = Lt).
           { destruct Hin as [<-|Hin]; [exact E|].
             eapply str_cmp_lt_trans; [exact E|]. now apply (above_key _ _ _ Habj). }
           destruct (str_lt_eqb _ _ Hlt) as [_ ->]. reflexivity.
      * apply str_cmp_gt_lt in E.
        rewrite (IHj Hsj' (map_set kj rj whole)).
        -- rewrite map_find_set. cbn [map_find].
           destruct (String.eqb k kj) eqn:Ek; [|reflexivity].
           apply String.eqb_eq in Ek. subst k.
           rewrite (above_find_none _ _ Habj), (I2 kj (or_introl eq_refl)).
           assert (Hab : above kj ((ki, ri) :: i)).
           { constructor; [exact E|]. now apply (above_trans _ _ _ E). }
           rewrite (above_find_none _ _ Hab). reflexivity.
        -- intros k0 r0 Hin. rewrite map_find_set.
           assert (Hlt : String.compare kj k0 = Lt).
           { destruct Hin as [[= <- <-]|Hin]; [exact E|].
             eapply str_cmp_lt_trans; [exact E|].
             now apply (above_key _ _ _ Habi), (in_keys _ r0). }
           destruct (str_lt_eqb _ _ Hlt) as [_ ->]. now apply I1.
        -- intros k0 Hin. rewrite map_find_set.
           destruct (str_lt_eqb _ _ (above_key _ _ _ Habj Hin)) as [_ ->].
           apply I2. now right.
Qed.

Lemma and_find (a b : FieldRangeSet) (k : string) :
  sorted_keys (_ranges a) -> sorted_keys (_ranges b) ->
  map_find k (_ranges (FieldRangeSet_and a b)) =
  and_entry (map_find k (_ranges a)) (map_find k (_ranges b)).
Proof.
  intros Ha Hb. cbn [FieldRangeSet_and appendQueries _ranges].
  apply and_walk_find; try assumption.
  - intros k0 r0 Hin. now apply in_find.
  - reflexivity.
Qed.

(** X8.  [FieldRangeSet::operator&=] on two maps ordered by key: a field
    that both sets constrain gets the [&=] of the two ranges, a field of
    one set only keeps the range it has there, and no other field
    appears.  The map stays ordered by key, the namespace is kept and the
    queries of the other set are appended. *)
Theorem and_lookup (a b : FieldRangeSet) :
  sorted_keys (_ranges a) -> sorted_keys (_ranges b) ->
  let c := FieldRangeSet_and a b in
  (forall k, map_find k (_ranges c) =
             and_entry (map_find k (_ranges a)) (map_find k (_ranges b))) /\
  (forall k, In k (keys (_ranges c)) <->
             In k (keys (_ranges a)) \/ In k (keys (_ranges b))) /\
  sorted_keys (_ranges c) /\
  _ns c = _ns a /\ _queries c = _queries a ++ _queries b.
Proof.
  intros Ha Hb c. split; [|split; [|split; [|split; reflexivity]]].
  - intros k. now apply and_find.
  - intros k. rewrite !find_keys. unfold c. rewrite (and_find _ _ _ Ha Hb).
    destruct (map_find k (_ranges a)), (map_find k (_ranges b)); cbn;
      intuition congruence.
  - cbn [c FieldRangeSet_and appendQueries _ranges]. now apply and_walk_sorted.
Qed.

Lemma walk_key_in (i : RangeMap) :
  forall j n key n' key' j',
    minus_walk i j n key = LoopDone n' key' j' ->
    (n' = n /\ key' = key) \/ In key' (keys i).
Proof.
  induction i as [|[ki ri] i IH]; intros j n key n' key' j' H.
  - cbn [minus_walk] in H. destruct (n <? 2); injection H as <- <- _; now left.
  - cbn [minus_walk] in H. destruct (n <? 2); [|injection H as <- <- _; now left].
    destruct j as [|[kj rj] j]; [injection H as <- <- _; now left|].
    destruct (String.compare ki kj); [| |discriminate].
    + destruct (FieldRange_le ri rj).
      * destruct (IH _ _ _ _ _ _ H) as [?|?]; [now left|right; now right].
      * destruct (IH _ _ _ _ _ _ H) as [[_ ->]|?]; right; [now left|now right].
    + destruct (IH _ _ _ _ _ _ H) as [?|?]; [now left|right; now right].
Qed.

Lemma map_set_keys (k : string) (v : FieldRange) (m : RangeMap) :
  sorted_keys m -> In k (keys m) -> keys (map_set k v m) = keys m.
Proof.
  intros Hs Hin. apply find_keys in Hin.
  destruct (map_find k m) as [ra|] eqn:E; [|contradiction].
  rewrite (map_set_present k v ra m Hs E). unfold keys. rewrite map_map.
  apply map_ext_in. intros [h r] Hh. cbn [fst].
  destruct (String.eqb h k) eqn:Eh; [|reflexivity].
  apply String.eqb_eq in Eh. now subst.
Qed.

(** X9.  [FieldRangeSet::operator-=] on a map ordered by key never adds
    or removes a field: the result has the fields of the left operand, in
    the same order, and the same namespace; its queries are those of the
    left operand, followed by those of the right operand when one range
    was replaced by a difference. *)
Theorem minus_keeps_fields (a b : FieldRangeSet) :
  sorted_keys (_ranges a) ->
  let d := FieldRangeSet_minus a b in
  keys (_ranges d) = keys (_ranges a) /\
  sorted_keys (_ranges d) /\
  _ns d = _ns a /\
  (_queries d = _queries a \/ _queries d = _queries a ++ _queries b) /\
  (forall k, hasRange d k = hasRange a k).
Proof.
  intros Hs d.
  assert (Hk : keys (_ranges d) = keys (_ranges a) /\ _ns d = _ns a /\
               (_queries d = _queries a \/ _queries d = _queries a ++ _queries b)).
  { unfold d, FieldRangeSet_minus.
    destruct (minus_walk (_ranges a) (_ranges b) 0 EmptyString) as [|n key j] eqn:W;
      [auto|].
    destruct j; [|auto]. destruct (n >? 1); [auto|].
    destruct (Z.eqb_spec n 0) as [Hn|Hn].
    - cbn [FieldRangeSet_makeEmpty _ranges _ns _queries]. split; [|auto].
      unfold keys. rewrite map_map. reflexivity.
    - cbn [appendQueries _ranges _ns _queries]. split; [|auto].
      apply map_set_keys; [exact Hs|].
      destruct (walk_key_in _ _ _ _ _ _ _ W) as [[Hn' _]|Hin]; [congruence|exact Hin]. }
  destruct Hk as (Hk & Hn & Hq).
  split; [exact Hk|]. split; [now apply (sorted_same_keys (_ranges a))|].
  split; [exact Hn|]. split; [exact Hq|].
  intros k. unfold hasRange.
  pose proof (find_keys k (_ranges d)) as Hd. pose proof (find_keys k (_ranges a)) as Ha.
  rewrite Hk in Hd.
  destruct (map_find k (_ranges d)), (map_find k (_ranges a)); try reflexivity; exfalso.
  - apply (proj1 Ha); [|reflexivity]. apply Hd. discriminate.
  - apply (proj1 Hd); [|reflexivity]. apply Ha. discriminate.
Qed.


End MoreSetProperties.

(** ** Query patterns *)

Lemma normalizeSort_loop_closed (direction : Z) (spec : list (string * bool))
      (b : list (string * Z)) :
  normalizeSort_loop direction spec b =
  b ++ map (fun e : string * bool => (fst e, direction * (if snd e then -1 else 1))) spec.
Proof.
  revert b. induction spec as [|[n t] spec IH]; intros b; cbn [normalizeSort_loop map].
  - now rewrite app_nil_r.
  - rewrite IH, <- app_assoc. reflexivity.
Qed.

Lemma normalizeSort_closed (spec : list (string * bool)) :
  normalizeSort spec =
  map (fun e : string * bool => (fst e,
                 if Bool.eqb (snd e) (match spec with [] => true | (_, t) :: _ => t end)
                 then -1 else 1)) spec.
Proof.
  destruct spec as [|[n t] spec]; [reflexivity|].
  unfold normalizeSort. rewrite normalizeSort_loop_closed. cbn [app].
  apply map_ext. intros [m u]. cbn [fst snd]. destruct t, u; reflexivity.
Qed.

(** X11.  [QueryPattern::normalizeSort]: the document built has the
    field names of the specification in the same order; the number of a
    field is [-1] when its sign test agrees with that of the first field
    and [1] otherwise, so the first number is always [-1]; and
    normalizing what has been built gives it back. *)
Theorem normalizeSort_shape (spec : list (string * bool)) :
  let built := normalizeSort spec in
  map fst built = map fst spec /\
  Forall2 (fun e f => snd f = if Bool.eqb (snd e) (hd true (map snd spec)) then -1 else 1)
          spec built /\
  (forall e rest, spec = e :: rest -> exists tl, built = (fst e, -1) :: tl) /\
  normalizeSort (read_sort built) = built.
Proof.
  cbv zeta. rewrite normalizeSort_closed.
  assert (Hh : match spec with [] => true | (_, t) :: _ => t end = hd true (map snd spec))
    by (destruct spec as [|[n t] spec]; reflexivity).
  rewrite Hh. split; [|split; [|split]].
  - rewrite map_map. reflexivity.
  - generalize (hd true (map snd spec)). intros t.
    clear Hh. induction spec as [|e spec IH]; cbn [map]; constructor; [reflexivity|exact IH].
  - intros [n t] rest ->. cbn [map fst snd hd]. rewrite Bool.eqb_reflx. eauto.
  - clear Hh. destruct spec as [|[n t] spec]; [reflexivity|].
    cbn [map fst snd hd]. rewrite Bool.eqb_reflx.
    unfold read_sort. cbn [map fst snd].
    rewrite normalizeSort_closed. cbn [map fst snd].
    f_equal. rewrite !map_map. apply map_ext. intros [m u]. cbn [fst snd].
    destruct (Bool.eqb u t); reflexivity.
Qed.

(** X12.  [QueryPattern::normalizeSort] does not tell a specification
    from the one whose sign tests are all the opposite: the two are
    normalized to the same document. *)
Theorem normalizeSort_opposite (spec : list (string * bool)) :
  normalizeSort (map (fun e : string * bool => (fst e, negb (snd e))) spec) = normalizeSort spec.
Proof.
  rewrite !normalizeSort_closed, map_map.
  destruct spec as [|[n t] spec]; [reflexivity|].
  cbn [map fst snd]. f_equal; [destruct t; reflexivity|].
  apply map_ext. intros [m u]. cbn [fst snd]. destruct t, u; reflexivity.
Qed.

Lemma PatternType_value_inj (t u : PatternType) :
  PatternType_value t = PatternType_value u -> t = u.
Proof. destruct t, u; simpl; intros H; try reflexivity; discriminate. Qed.

Lemma str_cmp_lt_gt (a b : string) : String.compare a b = Lt -> String.compare b a = Gt.
Proof. intros H. rewrite String.compare_antisym, H. reflexivity. Qed.

Lemma less_walk_same (i : list (string * PatternType)) (s : bool) : less_walk i i s = s.
Proof.
  induction i as [|[n t] i IH]; [reflexivity|].
  cbn [less_walk]. rewrite str_cmp_refl, Z.gtb_ltb, Z.ltb_irrefl. exact IH.
Qed.

Lemma less_walk_cases (i : list (string * PatternType)) :
  forall j,
    ((forall s, less_walk i j s = true) /\ (forall s, less_walk j i s = false)) \/
    ((forall s, less_walk i j s = false) /\ (forall s, less_walk j i s = true)) \/
    i = j.
Proof.
  induction i as [|[n t] i IH]; intros [|[m u] j].
  - right. right. reflexivity.
  - left. split; reflexivity.
  - right. left. split; reflexivity.
  - cbn [less_walk]. destruct (String.compare n m) eqn:E.
    + apply str_cmp_eq in E. subst m. rewrite str_cmp_refl, !Z.gtb_ltb.
      destruct (Z.ltb_spec (PatternType_value t) (PatternType_value u)) as [H|H].
      * left. split; [reflexivity|]. intros s.
        destruct (Z.ltb_spec (PatternType_value u) (PatternType_value t)); [lia|reflexivity].
      * destruct (Z.ltb_spec (PatternType_value u) (PatternType_value t)) as [H'|H'].
        -- right. left. split; reflexivity.
        -- assert (t = u) by (apply PatternType_value_inj; lia). subst u.
           destruct (IH j) as [?|[?| ->]]; [now left|right; now left|right; now right].
    + rewrite (str_cmp_lt_gt _ _ E). left. split; reflexivity.
    + rewrite (str_cmp_gt_lt _ _ E). right. left. split; reflexivity.
Qed.

Lemma less_walk_trans (i : list (string * PatternType)) :
  forall j k s1 s2 s3,
    (s1 = true -> s2 = true -> s3 = true) ->
    less_walk i j s1 = true -> less_walk j k s2 = true -> less_walk i k s3 = true.
Proof.
  induction i as [|[n t] i IH]; intros [|[m u] j] [|[p w] k] s1 s2 s3 Hs;
    cbn [less_walk]; try discriminate; try reflexivity; [auto|].
  rewrite !Z.gtb_ltb.
  destruct (String.compare n m) eqn:E1; try discriminate;
    destruct (String.compare m p) eqn:E2; try discriminate; intros H1 H2.
  - apply str_cmp_eq in E1, E2. subst m p. rewrite str_cmp_refl.
    destruct (Z.ltb_spec (PatternType_value t) (PatternType_value u)),
             (Z.ltb_spec (PatternType_value u) (PatternType_value t)),
             (Z.ltb_spec (PatternType_value u) (PatternType_value w)),
             (Z.ltb_spec (PatternType_value w) (PatternType_value u)),
             (Z.ltb_spec (PatternType_value t) (PatternType_value w)),
             (Z.ltb_spec (PatternType_value w) (PatternType_value t));
      try reflexivity; try discriminate; try lia.
    now apply (IH j k s1 s2 s3).
  - apply str_cmp_eq in E1. subst m. now rewrite E2.
  - apply str_cmp_eq in E2. subst p. now rewrite E1.
  - now rewrite (str_cmp_lt_trans _ _ _ E1 E2).
Qed.

Section PatternProperties.

Context {M : BSONModel} {C : @BSONObjCompare M} {O : @BSONObjOrder M C}.

Lemma objCompare_neg_pos (a b : BSONObj) : objCompare a b < 0 <-> 0 < objCompare b a.
Proof. pose proof (objCompare_antisym a b). lia. Qed.

Lemma objCompare_lt_trans (a b c : BSONObj) :
  objCompare a b < 0 -> objCompare b c < 0 -> objCompare a c < 0.
Proof.
  intros H1 H2.
  assert (H3 : objCompare a c <= 0) by (apply (objCompare_trans a b c); lia).
  destruct (Z.eq_dec (objCompare a c) 0) as [E|E]; [|lia].
  assert (H4 : objCompare c a <= 0) by (pose proof (objCompare_antisym a c); lia).
  pose proof (objCompare_trans c a b H4 ltac:(lia)).
  pose proof (objCompare_antisym b c). lia.
Qed.

Lemma QueryPattern_less_irrefl (a : QueryPattern) : QueryPattern_less a a = false.
Proof.
  unfold QueryPattern_less. rewrite less_walk_same, objCompare_refl. reflexivity.
Qed.

Lemma QueryPattern_less_trans (a b c : QueryPattern) :
  QueryPattern_less a b = true -> QueryPattern_less b c = true ->
  QueryPattern_less a c = true.
Proof.
  unfold QueryPattern_less. apply less_walk_trans.
  rewrite !Z.ltb_lt. apply objCompare_lt_trans.
Qed.

Lemma QueryPattern_less_asym (a b : QueryPattern) :
  QueryPattern_less a b = true -> QueryPattern_less b a = false.
Proof.
  intros H. destruct (QueryPattern_less b a) eqn:E; [|reflexivity].
  rewrite <- (QueryPattern_less_irrefl a). symmetry.
  now apply (QueryPattern_less_trans a b a).
Qed.

(** X13.  [QueryPattern::operator<] is a strict order whenever the
    comparison of documents is a total preorder: no pattern is less than
    itself, two patterns are never each less than the other, and the
    relation is transitive. *)
Theorem QueryPattern_less_strict_order :
  (forall a, QueryPattern_less a a = false) /\
  (forall a b, QueryPattern_less a b = true -> QueryPattern_less b a = false) /\
  (forall a b c, QueryPattern_less a b = true -> QueryPattern_less b c = true ->
                 QueryPattern_less a c = true).
Proof.
  split; [exact QueryPattern_less_irrefl|].
  split; [exact QueryPattern_less_asym|exact QueryPattern_less_trans].
Qed.

(** X14.  [QueryPattern::operator==] never fails its assertion when the
    comparison of documents is a total preorder.  It answers true exactly
    when the two patterns have the same fields with the same types and
    their sort documents compare equal, [operator!=] answers the
    opposite, and of two patterns that are not equal exactly one is less
    than the other. *)
Theorem QueryPattern_eq_spec (a b : QueryPattern) :
  QueryPattern_eq a b = Ok (negb (QueryPattern_less a b || QueryPattern_less b a)) /\
  QueryPattern_ne a b = Ok (QueryPattern_less a b || QueryPattern_less b a) /\
  (QueryPattern_eq a b = Ok true <->
   _fieldTypes a = _fieldTypes b /\ objCompare (_sort a) (_sort b) = 0) /\
  (QueryPattern_eq a b = Ok false ->
   QueryPattern_less a b = negb (QueryPattern_less b a)).
Proof.
  assert (He : QueryPattern_eq a b =
               Ok (negb (QueryPattern_less a b || QueryPattern_less b a))).
  { unfold QueryPattern_eq. cbv zeta.
    destruct (QueryPattern_less a b) eqn:E1; [|reflexivity].
    rewrite (QueryPattern_less_asym _ _ E1). reflexivity. }
  split; [exact He|]. split; [|split].
  - unfold QueryPattern_ne. rewrite He. cbn [bind]. now rewrite Bool.negb_involutive.
  - rewrite He. unfold QueryPattern_less.
    pose proof (objCompare_antisym (_sort a) (_sort b)) as Ha.
    destruct (less_walk_cases (_fieldTypes a) (_fieldTypes b)) as [[H1 H2]|[[H1 H2]|H]].
    + rewrite H1. cbn. split; [discriminate|]. intros [E _]. rewrite E in H1.
      specialize (H1 false). rewrite less_walk_same in H1. discriminate.
    + rewrite H1, H2. cbn. split; [discriminate|]. intros [E _]. rewrite E in H2.
      specialize (H2 false). rewrite less_walk_same in H2. discriminate.
    + rewrite H, !less_walk_same. split.
      * intros [= Hn]. apply Bool.negb_true_iff, Bool.orb_false_iff in Hn as [Hn1 Hn2].
        apply Z.ltb_ge in Hn1, Hn2. split; [reflexivity|]. lia.
      * intros [_ Hz].
        assert (Hz' : objCompare (_sort b) (_sort a) = 0) by lia.
        rewrite Hz, Hz'. reflexivity.
  - rewrite He. intros [= Hn]. apply Bool.negb_false_iff in Hn.
    destruct (QueryPattern_less a b) eqn:E1.
    + now rewrite (QueryPattern_less_asym _ _ E1).
    + cbn in Hn. now rewrite Hn.
Qed.

End PatternProperties.

(** ** Vectors and their iterator *)

Section MoreVectorProperties.

Context {M : BSONModel} {Ops : @FieldRangeOps M}.

Lemma sign_cases (x : Z) : sign x = 1 \/ sign x = -1.
Proof. unfold sign. destruct (x >=? 0); auto. Qed.

Lemma fill_same_forward (g : Globals) (frs : FieldRangeSet) (d d' : Z)
      (kps kps' : list (string * Z)) :
  Forall2 (fun kp kp' => fst kp' = fst kp /\ is_forward d' kp' = is_forward d kp) kps kps' ->
  forall acc,
    FieldRangeVector_fill g frs d' kps' acc = FieldRangeVector_fill g frs d kps acc.
Proof.
  induction 1 as [|kp kp' kps kps' [Hn Hf] _ IH]; intros acc; [reflexivity|].
  rewrite !fill_step. unfold projected, field_range. rewrite Hn, Hf.
  destruct (if is_forward d kp then _ else _) as [pushed|e]; [|reflexivity].
  cbn [bind]. destruct (assert _ _); [|reflexivity]. cbn [bind]. apply IH.
Qed.

Lemma new_fields (g : Globals) (frs : FieldRangeSet) (indexSpec : IndexSpec)
      (direction : Z) (v : FieldRangeVector) :
  FieldRangeVector_new g frs indexSpec direction = Ok v ->
  _indexSpec v = indexSpec /\ _direction v = sign direction /\ v_queries v = _queries frs.
Proof.
  intros H. destruct (FieldRangeVector_fill g frs direction (keyPattern indexSpec) [])
    as [ranges|e] eqn:F.
  - rewrite (new_after_fill _ _ _ _ _ F) in H.
    destruct (size _ <? 1000000); [|discriminate]. injection H as <-. auto.
  - unfold FieldRangeVector_new in H. rewrite F in H. discriminate.
Qed.

(** X15.  The constructor of [FieldRangeVector] reads its direction by
    sign only: two directions that are both negative, or both not, give
    the same vector or the same failure.  A vector it returns holds the
    index specification it was given, [1] or [-1] as direction, the
    queries of the set, one range per element of the key pattern, and
    has a size below the limit. *)
Theorem constructor_direction_by_sign (g : Globals) (frs : FieldRangeSet)
        (indexSpec : IndexSpec) :
  (forall d d', sign d = sign d' ->
     FieldRangeVector_new g frs indexSpec d = FieldRangeVector_new g frs indexSpec d') /\
  (forall d v, FieldRangeVector_new g frs indexSpec d = Ok v ->
     _indexSpec v = indexSpec /\ v_queries v = _queries frs /\
     _direction v = (if d >=? 0 then 1 else -1) /\
     List.length (v_ranges v) = List.length (keyPattern indexSpec) /\
     size v < 1000000).
Proof.
  split.
  - intros d d' Hs. unfold FieldRangeVector_new. rewrite Hs.
    rewrite (fill_same_forward g frs d' d (keyPattern indexSpec) (keyPattern indexSpec));
      [reflexivity|].
    induction (keyPattern indexSpec) as [|kp l IH]; constructor; [|exact IH].
    split; [reflexivity|]. unfold is_forward. now rewrite Hs.
  - intros d v H. destruct (new_fields _ _ _ _ _ H) as (Hi & Hd & Hq).
    destruct (new_ok_inv _ _ _ _ _ H) as [HF Hsz].
    repeat split; try assumption. symmetry. exact (Forall2_length HF).
Qed.

(** X16.  An index and the one with every direction reversed, scanned in
    opposite directions, give the same ranges: the constructor fails the
    same way on both, or returns two vectors with the same ranges, the
    same queries and the same size, whose directions are opposite. *)
Theorem opposite_index_opposite_scan (g : Globals) (frs : FieldRangeSet)
        (indexSpec indexSpec' : IndexSpec) (d d' : Z) :
  Forall2 opposite (keyPattern indexSpec) (keyPattern indexSpec') ->
  sign d' = - sign d ->
  match FieldRangeVector_new g frs indexSpec d, FieldRangeVector_new g frs indexSpec' d' with
  | Ok v, Ok v' =>
      v_ranges v' = v_ranges v /\ v_queries v' = v_queries v /\ size v' = size v /\
      _direction v' = - _direction v
  | Thrown e, Thrown e' => e' = e
  | _, _ => False
  end.
Proof.
  intros Hop Hd.
  assert (HF : FieldRangeVector_fill g frs d' (keyPattern indexSpec') [] =
               FieldRangeVector_fill g frs d (keyPattern indexSpec) []).
  { apply fill_same_forward. eapply Forall2_impl; [|exact Hop].
    intros kp kp' [Hn Hs]. split; [exact Hn|]. unfold is_forward. rewrite Hs, Hd.
    now rewrite Z.mul_opp_opp. }
  destruct (FieldRangeVector_fill g frs d (keyPattern indexSpec) []) as [ranges|e] eqn:F.
  - rewrite (new_after_fill _ _ _ _ _ F), (new_after_fill _ _ _ _ _ HF).
    cbv zeta. unfold size. cbn [v_ranges].
    destruct (size_loop ranges 1 <? 1000000); [|reflexivity].
    cbn [v_ranges v_queries _direction]. repeat split. exact Hd.
  - unfold FieldRangeVector_new. rewrite F, HF. reflexivity.
Qed.

Lemma size_loop_counts (rs rs' : list FieldRange) :
  map interval_count rs' = map interval_count rs ->
  forall ret, size_loop rs' ret = size_loop rs ret.
Proof.
  revert rs'. induction rs as [|r rs IH]; intros [|r' rs'] H ret; try discriminate;
    [reflexivity|].
  injection H as Hc H. cbn [size_loop]. fold (interval_count r) (interval_count r').
  rewrite Hc. now apply IH.
Qed.

Lemma mirrored_counts (rs rs' : list FieldRange) :
  Forall2 mirrored rs rs' -> map interval_count rs' = map interval_count rs.
Proof.
  induction 1 as [|r r' rs rs' Hm _ IH]; [reflexivity|].
  cbn [map]. rewrite IH. f_equal. unfold interval_count.
  destruct Hm as [-> | ->]; now rewrite length_map, length_rev.
Qed.

Lemma mirrored_keys (rs rs' : list FieldRange) :
  Forall2 mirrored rs rs' ->
  forall b, startKey_loop rs' b = endKey_loop rs b /\ endKey_loop rs' b = startKey_loop rs b.
Proof.
  induction 1 as [|r r' rs rs' Hm _ IH]; intros b; [split; reflexivity|].
  cbn [startKey_loop endKey_loop].
  assert (Hf : option_map (fun fi => _bound (_lower fi)) (front (_intervals r')) =
               option_map (fun fi => _bound (_upper fi)) (back (_intervals r)) /\
               option_map (fun fi => _bound (_upper fi)) (back (_intervals r')) =
               option_map (fun fi => _bound (_lower fi)) (front (_intervals r))).
  { destruct Hm as [-> | ->]; rewrite front_map, back_map, front_rev, back_rev.
    - destruct (back (_intervals r)), (front (_intervals r)); split; reflexivity.
    - destruct (back (_intervals r')), (front (_intervals r')); split; reflexivity. }
  destruct Hf as [Hf1 Hf2].
  destruct (front (_intervals r')) as [f'|], (back (_intervals r)) as [l|];
    try discriminate;
    destruct (back (_intervals r')) as [l'|], (front (_intervals r)) as [f|];
    try discriminate; cbn [option_map] in Hf1, Hf2;
    try injection Hf1 as Hf1; try injection Hf2 as Hf2;
    try rewrite Hf1; try rewrite Hf2; split; try reflexivity; apply IH.
Qed.

Lemma projected_mirrored (g : Globals) (frs : FieldRangeSet) (d d' : Z)
      (kps : list (string * Z)) :
  sign d' = - sign d ->
  forall rs rs',
    Forall2 (fun kp r => projected g frs d kp = Ok r /\ empty r = false) kps rs ->
    Forall2 (fun kp r => projected g frs d' kp = Ok r /\ empty r = false) kps rs' ->
    Forall2 mirrored rs rs'.
Proof.
  intros Hd. induction kps as [|kp kps IH]; intros rs rs' H H'.
  - inversion H; inversion H'; subst. constructor.
  - inversion H as [|? r ? rs0 [Hp _] Hr]; inversion H' as [|? r' ? rs0' [Hp' _] Hr']; subst.
    constructor; [|now apply IH].
    unfold projected, is_forward in Hp, Hp'. rewrite Hd in Hp'.
    destruct (sign_cases (snd kp)) as [Hs|Hs], (sign_cases d) as [Hs'|Hs'];
      rewrite Hs, Hs' in Hp, Hp'; cbn in Hp, Hp'.
    + injection Hp as <-. left. now apply reverse_intervals in Hp'.
    + injection Hp' as <-. right. now apply reverse_intervals in Hp.
    + injection Hp' as <-. right. now apply reverse_intervals in Hp.
    + injection Hp as <-. left. now apply reverse_intervals in Hp'.
Qed.

(** X17.  Scanning an index in the opposite direction exchanges the two
    ends of the scan: of the vectors the constructor returns for a set
    and an index in the two directions, [startKey()] of each is
    [endKey()] of the other, and both have the same number of intervals
    per field and the same size. *)
Theorem reversed_scan_exchanges_keys (g : Globals) (frs : FieldRangeSet)
        (indexSpec : IndexSpec) (d d' : Z) (v v' : FieldRangeVector) :
  sign d' = - sign d ->
  FieldRangeVector_new g frs indexSpec d = Ok v ->
  FieldRangeVector_new g frs indexSpec d' = Ok v' ->
  startKey v' = endKey v /\ endKey v' = startKey v /\
  interval_counts v' = interval_counts v /\ size v' = size v.
Proof.
  intros Hd H H'.
  destruct (new_ok_inv _ _ _ _ _ H) as [HF _].
  destruct (new_ok_inv _ _ _ _ _ H') as [HF' _].
  pose proof (projected_mirrored g frs d d' _ Hd _ _ HF HF') as Hm.
  destruct (mirrored_keys _ _ Hm []) as [Hs He].
  pose proof (mirrored_counts _ _ Hm) as Hc.
  repeat split; try assumption. unfold size. now apply size_loop_counts.
Qed.

End MoreVectorProperties.

Section MoreIteratorProperties.

Context {M : BSONModel}.









Lemma odometer_fresh (counts : list Z) :
  counts <> [] -> Forall (fun c => 1 <= c) counts ->
  odometer_step counts (repeat (-1) (List.length counts)) =
  Some (repeat (-1) (List.length counts - 1) ++ [0]).
Proof.
  induction counts as [|c counts IH]; intros Hne Hpos; [contradiction|].
  inversion Hpos as [|? ? Hc Hcs]; subst.
  cbn [List.length repeat odometer_step]. rewrite Nat.sub_succ, Nat.sub_0_r.
  destruct counts as [|c' counts].
  - cbn. destruct (Z.ltb_spec (-1) (c - 1)); [reflexivity|lia].
  - rewrite (IH ltac:(discriminate) Hcs).
    cbn [List.length]. rewrite Nat.sub_succ, Nat.sub_0_r. reflexivity.
Qed.

(** X19.  A freshly constructed iterator has every position at [-1]:
    [ok()] holds although no position designates an interval, and the
    keys are undefined.  On a vector whose fields each have at least one
    interval the first [advance()] returns true and moves the last
    position alone to 0; with a single field this is the state
    [setZero( 0 )] gives, with more fields the first position still is
    [-1] and [startKey()] remains undefined. *)
Theorem fresh_iterator_advance (v : FieldRangeVector) :
  counts_fit v -> v_ranges v <> [] ->
  ok (Iterator_new v) = Some true /\
  Iterator_startKey (Iterator_new v) = None /\
  Iterator_endKey (Iterator_new v) = None /\
  exists it',
    advance (Iterator_new v) = Some (true, it') /\ _v it' = v /\
    _i it' = repeat (-1) (List.length (v_ranges v) - 1) ++ [0] /\
    (List.length (v_ranges v) = 1%nat -> it' = Iterator_zero v) /\
    ((2 <= List.length (v_ranges v))%nat ->
     Iterator_startKey it' = None /\ Iterator_endKey it' = None).
Proof.
  intros Hfit Hne.
  assert (Hc : exists r rs, v_ranges v = r :: rs).
  { destruct (v_ranges v) as [|r rs]; [contradiction|eauto]. }
  destruct Hc as (r & rs & Hv).
  assert (Hpos : Forall (fun c => 1 <= c) (interval_counts v)) by now apply counts_fit_pos.
  assert (Hc1 : 1 <= interval_count r).
  { unfold interval_counts in Hpos. rewrite Hv in Hpos. now inversion Hpos. }
  assert (Hok : forall x idx cmp inc after,
             x < interval_count r -> ok (mkIterator v (x :: idx) cmp inc after) = Some true).
  { intros x idx cmp inc after Hx. unfold ok. cbn [_i _v nth_error].
    rewrite (nIntervals_counts v 0 Hfit).
    unfold interval_counts. rewrite Hv. cbn [map nth_error]. f_equal. apply Z.ltb_lt. lia. }
  split.
  { unfold Iterator_new. rewrite Hv at 1. cbn [List.length repeat]. apply Hok. lia. }
  split.
  { unfold Iterator_startKey, Iterator_new. cbn [_i _v]. rewrite Hv.
    cbn [List.length repeat Iterator_startKey_loop]. unfold interval_at.
    destruct (nth_error _ 0); reflexivity. }
  split.
  { unfold Iterator_endKey, Iterator_new. cbn [_i _v]. rewrite Hv.
    cbn [List.length repeat Iterator_endKey_loop]. unfold interval_at.
    destruct (nth_error _ 0); reflexivity. }
  assert (Hlen : List.length (_i (Iterator_new v)) =
                 List.length (interval_counts (_v (Iterator_new v)))).
  { unfold Iterator_new, interval_counts. cbn [_i _v]. now rewrite repeat_length, length_map. }
  destruct (advance_step (Iterator_new v) Hfit Hlen Hne) as (b & idx' & Hadv & Hb & _ & Hodo).
  assert (Hidx : idx' = repeat (-1) (List.length (v_ranges v) - 1) ++ [0]).
  { unfold Iterator_new in Hodo. cbn [_i _v] in Hodo.
    assert (Hl : List.length (v_ranges v) = List.length (interval_counts v))
      by (unfold interval_counts; now rewrite length_map).
    rewrite Hl in Hodo |- *.
    rewrite odometer_fresh in Hodo; [exact Hodo| |exact Hpos].
    unfold interval_counts. rewrite Hv. discriminate. }
  assert (Hb' : b = true).
  { unfold Iterator_new in Hb. cbn [_v _cmp _inc _after] in Hb. rewrite Hidx, Hv in Hb.
    cbn [List.length] in Hb. rewrite Nat.sub_succ, Nat.sub_0_r in Hb.
    destruct rs as [|r2 rs]; cbn [List.length repeat app] in Hb;
      rewrite Hok in Hb by lia; congruence. }
  subst b. eexists. split; [exact Hadv|]. cbn [_v _i].
  split; [reflexivity|]. split; [exact Hidx|]. split.
  - intros H1. unfold Iterator_zero, setZero, Iterator_new. cbn [_v _i _cmp _inc _after].
    rewrite Hidx, H1. reflexivity.
  - intros H2. rewrite Hidx, Hv. rewrite Hv in H2. cbn [List.length] in H2.
    destruct rs as [|r2 rs]; [cbn in H2; lia|].
    unfold Iterator_startKey, Iterator_endKey. cbn [_i _v List.length].
    rewrite Nat.sub_succ, Nat.sub_0_r. cbn [repeat app Iterator_startKey_loop Iterator_endKey_loop].
    unfold interval_at. destruct (nth_error _ 0); split; reflexivity.
Qed.

Lemma fill_from_closed (k : nat) (x : Z) (l : list Z) :
  fill_from k x l = firstn k l ++ repeat x (List.length l - k).
Proof.
  revert k. induction l as [|y l IH]; intros [|k]; try reflexivity.
  - cbn [fill_from firstn app List.length]. rewrite Nat.sub_0_r.
    cbn [repeat]. f_equal. rewrite (IH 0%nat), Nat.sub_0_r. reflexivity.
  - cbn [fill_from firstn app List.length]. rewrite Nat.sub_succ. f_equal. apply IH.
Qed.

Lemma fill_from_twice (k : nat) (x y : Z) (l : list Z) :
  fill_from k x (fill_from k y l) = fill_from k x l.
Proof.
  revert k. induction l as [|z l IH]; intros [|k]; try reflexivity;
    cbn [fill_from]; f_equal; apply IH.
Qed.

(** X20.  [Iterator::setZero( i )] and [setMinus( i )], for [i] not
    negative, keep the positions before [i] and set every position from
    [i] on to 0 and to [-1]; they change nothing else, each undoes the
    other's writes, and both leave an iterator as it is when [i] is not
    below the number of positions.  [setMinus( 0 )] gives back the
    positions of a freshly constructed iterator. *)
Theorem setZero_setMinus (it : Iterator) (i : nat) :
  _i (setZero it i) = firstn i (_i it) ++ repeat 0 (List.length (_i it) - i) /\
  _i (setMinus it i) = firstn i (_i it) ++ repeat (-1) (List.length (_i it) - i) /\
  setZero (setMinus it i) i = setZero it i /\
  setMinus (setZero it i) i = setMinus it i /\
  ((List.length (_i it) <= i)%nat -> setZero it i = it /\ setMinus it i = it) /\
  (forall v, setMinus (Iterator_zero v) 0 = Iterator_new v).
Proof.
  unfold setZero, setMinus. cbn [_i _v _cmp _inc _after].
  rewrite !fill_from_twice, !fill_from_closed.
  split; [reflexivity|]. split; [reflexivity|]. split; [reflexivity|].
  split; [reflexivity|]. split.
  - intros Hl. replace (List.length (_i it) - i)%nat with 0%nat by lia.
    rewrite firstn_all2 by exact Hl. cbn [repeat]. rewrite app_nil_r.
    destruct it; split; reflexivity.
  - intros v. unfold Iterator_zero, setZero, Iterator_new. cbn [_i _v _cmp _inc _after].
    rewrite fill_from_twice, fill_from_closed, repeat_length. cbn [firstn app].
    now rewrite Nat.sub_0_r.
Qed.

End MoreIteratorProperties.

Section EmptyRange.

Context {M : BSONModel}.

(** X21.  A range emptied by [makeEmpty()] keeps its backing objects and
    its tag.  On it [min()], [max()], [minInclusive()] and
    [maxInclusive()] fail the assertion [!empty()], whereas [equality()]
    and [nontrivial()] answer false and [inQuery()] answers true, none
    of them failing; [setExclusiveBounds()] and a second [makeEmpty()]
    change nothing. *)
Theorem makeEmpty_behaviour (r : FieldRange) :
  let e := makeEmpty r in
  empty e = true /\ _objData e = _objData r /\ _special e = _special r /\
  min e = Thrown (AssertionFailed "!empty()") /\
  max e = Thrown (AssertionFailed "!empty()") /\
  minInclusive e = Thrown (AssertionFailed "!empty()") /\
  maxInclusive e = Thrown (AssertionFailed "!empty()") /\
  equality e = Ok false /\ nontrivial e = Ok false /\
  inQuery e = Ok (true, e) /\
  setExclusiveBounds e = e /\ makeEmpty e = e.
Proof.
  cbv zeta. repeat split; reflexivity.
Qed.

End EmptyRange.

(** ** The sample comparison of documents is a total preorder *)

Lemma compare_docs_refl (a : list (string * Sample.Value)) : Cases.compare_docs a a = 0.
Proof.
  induction a as [|[n x] a IH]; [reflexivity|].
  cbn [Cases.compare_docs]. rewrite str_cmp_refl, Sample_compare_refl. exact IH.
Qed.

Lemma compare_docs_antisym (a : list (string * Sample.Value)) :
  forall b, Z.sgn (Cases.compare_docs b a) = - Z.sgn (Cases.compare_docs a b).
Proof.
  induction a as [|[n x] a IH]; intros [|[m y] b]; try reflexivity.
  cbn [Cases.compare_docs]. rewrite (String.compare_antisym n m).
  destruct (String.compare m n); cbn [CompOpp]; try reflexivity.
  pose proof (Sample_compare_antisym x y) as Hxy.
  destruct (Z.eqb_spec (Sample.compare x y) 0) as [E|E],
           (Z.eqb_spec (Sample.compare y x) 0) as [E'|E']; try lia.
  apply IH.
Qed.

Lemma compare_docs_trans (a : list (string * Sample.Value)) :
  forall b c, Cases.compare_docs a b <= 0 -> Cases.compare_docs b c <= 0 ->
              Cases.compare_docs a c <= 0.
Proof.
  induction a as [|[n x] a IH]; intros [|[m y] b] [|[p z] c];
    cbn [Cases.compare_docs]; try lia.
  destruct (String.compare n m) eqn:E1; try lia;
    destruct (String.compare m p) eqn:E2; try lia; intros H1 H2.
  - apply str_cmp_eq in E1, E2. subst m p. rewrite str_cmp_refl.
    pose proof (Sample_compare_trans x y z) as T.
    pose proof (Sample_compare_trans z x y) as T1.
    pose proof (Sample_compare_trans y z x) as T2.
    pose proof (Sample_compare_antisym x y) as A1.
    pose proof (Sample_compare_antisym y z) as A2.
    pose proof (Sample_compare_antisym x z) as A3.
    destruct (Z.eqb_spec (Sample.compare x y) 0) as [Exy|Exy],
             (Z.eqb_spec (Sample.compare y z) 0) as [Eyz|Eyz],
             (Z.eqb_spec (Sample.compare x z) 0) as [Exz|Exz]; try lia.
    now apply (IH b c).
  - apply str_cmp_eq in E1. subst m. rewrite E2. lia.
  - apply str_cmp_eq in E2. subst p. rewrite E1. lia.
  - rewrite (str_cmp_lt_trans _ _ _ E1 E2). lia.
Qed.

#[global] Instance Cases_order : @BSONObjOrder Sample.bson Cases.docs.
Proof.
  constructor.
  - exact compare_docs_refl.
  - intros a b. apply compare_docs_antisym.
  - exact compare_docs_trans.
Qed.

(** ** Concrete inputs for the further properties *)

Lemma reverse_exchanges_extremes_witness :
  exists r1,
    reverse Sample.two_intervals trivialRange_initial = Ok r1 /\
    min r1 = Ok (Sample.NumberInt 7) /\ max r1 = Ok (Sample.NumberInt 1).
Proof.
  eexists. split; [reflexivity|].
  destruct (reverse_exchanges_extremes Sample.two_intervals trivialRange_initial _ eq_refl)
    as (H1 & H2 & _).
  split; [exact H1|exact H2].
Defined.

Lemma strictValid_on_equal_ends_witness :
  woCompare (_bound (_lower Sample.point_five)) (_bound (_upper Sample.point_five)) = 0 /\
  strictValid Sample.point_five = equality_now Sample.point_five.
Proof.
  split; [reflexivity|].
  exact (proj1 (strictValid_on_equal_ends Sample.point_five eq_refl)).
Defined.

Lemma and_lookup_witness :
  sorted_keys (_ranges Cases.on_a_c) /\ sorted_keys (_ranges Cases.on_b_c) /\
  keys (_ranges (FieldRangeSet_and Cases.on_a_c Cases.on_b_c)) =
  ["a"%string; "b"%string; "c"%string] /\
  sorted_keys (_ranges (FieldRangeSet_and Cases.on_a_c Cases.on_b_c)).
Proof.
  assert (Ha : sorted_keys (_ranges Cases.on_a_c)) by (simpl; auto).
  assert (Hb : sorted_keys (_ranges Cases.on_b_c)) by (simpl; auto).
  split; [exact Ha|]. split; [exact Hb|]. split; [reflexivity|].
  pose proof (and_lookup (And := Cases.intersect) Cases.on_a_c Cases.on_b_c Ha Hb) as H.
  cbv zeta in H. destruct H as (_ & _ & H & _). exact H.
Defined.

Lemma minus_keeps_fields_witness :
  sorted_keys (_ranges Sample.left_set) /\
  keys (_ranges (FieldRangeSet_minus Sample.left_set Sample.right_set)) =
  keys (_ranges Sample.left_set).
Proof.
  assert (Ha : sorted_keys (_ranges Sample.left_set)) by (simpl; auto).
  split; [exact Ha|].
  pose proof (minus_keeps_fields (Ops := Sample.ops) Sample.left_set Sample.right_set Ha) as H.
  cbv zeta in H. destruct H as (H & _). exact H.
Defined.


Lemma QueryPattern_less_strict_order_witness :
  QueryPattern_less Cases.eq_a Cases.eq_a_low_b = true /\
  QueryPattern_less Cases.eq_a_low_b Cases.eq_a_low_b_sorted = true /\
  QueryPattern_less Cases.eq_a Cases.eq_a_low_b_sorted = true /\
  QueryPattern_less Cases.eq_a_low_b_sorted Cases.eq_a = false.
Proof.
  assert (H1 : QueryPattern_less Cases.eq_a Cases.eq_a_low_b = true) by reflexivity.
  assert (H2 : QueryPattern_less Cases.eq_a_low_b Cases.eq_a_low_b_sorted = true)
    by reflexivity.
  destruct (QueryPattern_less_strict_order (O := Cases_order)) as (_ & Ha & Ht).
  split; [exact H1|]. split; [exact H2|].
  pose proof (Ht _ _ _ H1 H2) as H3. split; [exact H3|]. exact (Ha _ _ H3).
Defined.

Lemma QueryPattern_eq_spec_witness :
  QueryPattern_eq Cases.eq_a_low_b Cases.eq_a_low_b = Ok true /\
  QueryPattern_ne Cases.eq_a_low_b Cases.eq_a_low_b_sorted = Ok true.
Proof.
  destruct (QueryPattern_eq_spec (O := Cases_order) Cases.eq_a_low_b Cases.eq_a_low_b)
    as (_ & _ & H & _).
  split; [apply H; split; reflexivity|].
  destruct (QueryPattern_eq_spec (O := Cases_order) Cases.eq_a_low_b Cases.eq_a_low_b_sorted)
    as (_ & H' & _).
  exact H'.
Defined.

Lemma opposite_index_opposite_scan_witness :
  Forall2 opposite (keyPattern Cases.index_a_down_b) (keyPattern Cases.index_down_a_b) /\
  sign (-1) = - sign 1 /\
  exists v v',
    FieldRangeVector_new Globals_initial Sample.in_three_two Cases.index_a_down_b 1 = Ok v /\
    FieldRangeVector_new Globals_initial Sample.in_three_two Cases.index_down_a_b (-1) = Ok v' /\
    v_ranges v' = v_ranges v.
Proof.
  assert (Hop : Forall2 opposite (keyPattern Cases.index_a_down_b)
                        (keyPattern Cases.index_down_a_b))
    by (repeat constructor).
  assert (Hd : sign (-1) = - sign 1) by reflexivity.
  split; [exact Hop|]. split; [exact Hd|].
  pose proof (opposite_index_opposite_scan (Ops := Sample.ops) Globals_initial
                Sample.in_three_two _ _ 1 (-1) Hop Hd) as H.
  eexists. eexists. split; [reflexivity|]. split; [reflexivity|].
  exact (proj1 H).
Defined.

Lemma reversed_scan_exchanges_keys_witness :
  sign (-1) = - sign 1 /\
  FieldRangeVector_new Globals_initial Sample.one_to_three Sample.index_a 1 =
  Ok Cases.one_up_to_three /\
  FieldRangeVector_new Globals_initial Sample.one_to_three Sample.index_a (-1) =
  Ok Sample.three_down_to_one /\
  startKey Sample.three_down_to_one = endKey Cases.one_up_to_three /\
  endKey Sample.three_down_to_one = startKey Cases.one_up_to_three.
Proof.
  assert (Hd : sign (-1) = - sign 1) by reflexivity.
  assert (H : FieldRangeVector_new Globals_initial Sample.one_to_three Sample.index_a 1 =
              Ok Cases.one_up_to_three) by reflexivity.
  assert (H' : FieldRangeVector_new Globals_initial Sample.one_to_three Sample.index_a (-1) =
               Ok Sample.three_down_to_one) by reflexivity.
  split; [exact Hd|]. split; [exact H|]. split; [exact H'|].
  destruct (reversed_scan_exchanges_keys (Ops := Sample.ops) _ _ _ _ _ _ _ Hd H H')
    as (Hs & He & _).
  split; [exact Hs|exact He].
Defined.

Lemma fresh_iterator_advance_witness :
  counts_fit Sample.three_by_two /\ v_ranges Sample.three_by_two <> [] /\
  ok (Iterator_new Sample.three_by_two) = Some true /\
  Iterator_startKey (Iterator_new Sample.three_by_two) = None.
Proof.
  assert (Hfit : counts_fit Sample.three_by_two).
  { repeat constructor; cbn; lia. }
  assert (Hne : v_ranges Sample.three_by_two <> []) by discriminate.
  split; [exact Hfit|]. split; [exact Hne|].
  destruct (fresh_iterator_advance Sample.three_by_two Hfit Hne) as (H1 & H2 & _).
  split; [exact H1|exact H2].
Defined.
